(** * Capacity-charge model of [src/app/page.tsx]

    A shallow embedding of the cost model, the brute-force optimizer, the
    derived figures and the drag controller of the [EnergyModelingApp]
    component.  A JavaScript [number] is an IEEE-754 binary64 value, so the
    embedding computes on Rocq's primitive floats: sums are rounded sums,
    [0/0] is [NaN], comparisons with [NaN] are false. *)

From Stdlib Require Import Reals Lra.
From Stdlib Require Import Floats Uint63 ZArith List Bool Lia String.
Import ListNotations.

#[local] Set Warnings "-inexact-float".
#[local] Open Scope float_scope.

(** ** The [Math] built-ins used by the page (ECMAScript 21.3.2) *)

Module Math.

(** [Math.max(...coerced)]: start from -Infinity; a [NaN] argument makes
    the result [NaN]; [+0] beats [-0]; otherwise keep the greater. *)
Fixpoint max_loop (highest : float) (coerced : list float) : float :=
  match coerced with
  | [] => highest
  | number :: rest =>
      if is_nan number then nan
      else
        let highest :=
          if Leibniz.eqb number zero && Leibniz.eqb highest neg_zero
          then zero else highest in
        let highest := if highest <? number then number else highest in
        max_loop highest rest
  end.

Definition max (coerced : list float) : float := max_loop neg_infinity coerced.

(** [Math.min(...coerced)]: the mirror image, starting from +Infinity. *)
Fixpoint min_loop (lowest : float) (coerced : list float) : float :=
  match coerced with
  | [] => lowest
  | number :: rest =>
      if is_nan number then nan
      else
        let lowest :=
          if Leibniz.eqb number neg_zero && Leibniz.eqb lowest zero
          then neg_zero else lowest in
        let lowest := if number <? lowest then number else lowest in
        min_loop lowest rest
  end.

Definition min (coerced : list float) : float := min_loop infinity coerced.

(** The float holding the integer [k] (exact for [|k| <= 2^53]). *)
Definition of_Z (k : Z) : float :=
  match k with
  | Z0 => zero
  | Zpos _ => of_uint63 (Uint63.of_Z k)
  | Zneg p => - of_uint63 (Uint63.of_Z (Zpos p))
  end.

(** [Math.round(n)]: a non-finite, zero or integral [n] is returned as it
    is; otherwise the nearest integer, ties towards +Infinity, with a
    result of zero keeping the sign of [n].  For [n = (-1)^s * m * 2^e]
    with [e < 0] the nearest integer is [floor (n + 1/2)]. *)
Definition round (n : float) : float :=
  match Prim2SF n with
  | S754_finite s m e =>
      if (0 <=? e)%Z then n
      else
        let q := (2 ^ (- e))%Z in
        let k := ((cond_Zopp s (2 * Zpos m) + q) / (2 * q))%Z in
        if (k =? 0)%Z then (if s then neg_zero else zero) else of_Z k
  | _ => n
  end.

End Math.

(** ** Data of the page *)

Record Tariff := {
  contractedRate : float;   (* $/kW/month on the contracted capacity *)
  exceedanceRate : float    (* $/kW/month on the exceedance *)
}.

(** The two rate literals of [calculateMonthlyCharge]. *)
Definition tariff : Tariff :=
  {| contractedRate := 16.37; exceedanceRate := 24.56 |}.

Definition months : list string :=
  ["May"; "Jun"; "Jul"; "Aug"; "Sep"; "Oct"; "Nov"; "Dec"]%string.

Definition maxDemands : list float :=
  [3114; 2736; 1467; 3894; 3085; 3077; 3113; 3098].

(** The [useState] cells of the component that the model reads or writes. *)
Record State := {
  batteryCapacity : float;
  contractedCapacity : float;
  explanation : option float;
  isDragging : bool;
  isHovering : bool
}.

Definition initialState : State :=
  {| batteryCapacity := 400; contractedCapacity := 3100;
     explanation := None; isDragging := false; isHovering := false |}.

Definition setBatteryCapacity (v : float) (st : State) : State :=
  {| batteryCapacity := v; contractedCapacity := contractedCapacity st;
     explanation := explanation st; isDragging := isDragging st;
     isHovering := isHovering st |}.

Definition setContractedCapacity (v : float) (st : State) : State :=
  {| batteryCapacity := batteryCapacity st; contractedCapacity := v;
     explanation := explanation st; isDragging := isDragging st;
     isHovering := isHovering st |}.

Definition setExplanation (v : option float) (st : State) : State :=
  {| batteryCapacity := batteryCapacity st;
     contractedCapacity := contractedCapacity st;
     explanation := v; isDragging := isDragging st;
     isHovering := isHovering st |}.

Definition setIsDragging (b : bool) (st : State) : State :=
  {| batteryCapacity := batteryCapacity st;
     contractedCapacity := contractedCapacity st;
     explanation := explanation st; isDragging := b;
     isHovering := isHovering st |}.

(** [xs.reduce((sum, c) => sum + c, 0)] *)
Definition sum (xs : list float) : float :=
  fold_left (fun sum c => sum + c) xs 0.

(** [xs.map((x, index) => f x index)] *)
Fixpoint mapi_from {A B} (f : A -> nat -> B) (index : nat) (xs : list A) : list B :=
  match xs with
  | [] => []
  | x :: rest => f x index :: mapi_from f (S index) rest
  end.

Definition mapi {A B} (f : A -> nat -> B) (xs : list A) : list B :=
  mapi_from f 0 xs.

(** ** Cost model, optimizer and derived figures

    The page hard-codes the demand series and the two rates; the section
    takes them as variables so that statements can range over them. *)

Section Model.

Variable demands : list float.
Variable rates : Tariff.

Definition effectiveDemands (st : State) : list float :=
  map (fun demand => Math.max [0; demand - batteryCapacity st]) demands.

Definition minEffectiveDemand (st : State) : float :=
  Math.min (effectiveDemands st).

Definition maxEffectiveDemand (st : State) : float :=
  Math.max (effectiveDemands st).

Definition calculateMonthlyCharge (effectiveDemand capacity : float) : float :=
  let contractedCharge := capacity * contractedRate rates in
  let exceedance := Math.max [0; effectiveDemand - capacity] in
  let uncontractedCharge := exceedance * exceedanceRate rates in
  contractedCharge + uncontractedCharge.

Definition calculateTotalCharge (st : State) (capacity : float) : float :=
  sum (map (fun effDemand => calculateMonthlyCharge effDemand capacity)
           (effectiveDemands st)).

(** The [for (capacity = 1000; capacity <= 4000; capacity += 10)] loop;
    [None] only when the fuel runs out before the loop condition fails. *)
Fixpoint findOptimalCapacity_loop (fuel : nat) (st : State)
    (capacity optimalCapacity minCost : float) : option float :=
  match fuel with
  | O => None
  | S fuel =>
      if capacity <=? 4000 then
        let totalCost := calculateTotalCharge st capacity in
        if totalCost <? minCost
        then findOptimalCapacity_loop fuel st (capacity + 10) capacity totalCost
        else findOptimalCapacity_loop fuel st (capacity + 10) optimalCapacity minCost
      else Some optimalCapacity
  end.

Definition findOptimalCapacity (st : State) : option float :=
  findOptimalCapacity_loop 302 st 1000 0 infinity.

(** [handleSetOptimalCapacity]; the explanation text is kept as the
    capacity it names. *)
Definition handleSetOptimalCapacity (st : State) : option State :=
  match findOptimalCapacity st with
  | Some optimalCapacity =>
      Some (setExplanation (Some optimalCapacity)
              (setContractedCapacity optimalCapacity st))
  | None => None
  end.

Definition monthlyCharges (st : State) : list float :=
  map (fun effDemand => calculateMonthlyCharge effDemand (contractedCapacity st))
      (effectiveDemands st).

Definition totalCharge (st : State) : float := sum (monthlyCharges st).

Definition originalCharges : list float :=
  map (fun demand => calculateMonthlyCharge demand 3100) demands.

Definition totalOriginalCharge : float := sum originalCharges.

Definition savings (st : State) : float := totalOriginalCharge - totalCharge st.

Definition isPositiveSavings (st : State) : bool := 0 <=? savings st.

Definition netLabel (st : State) : string :=
  if isPositiveSavings st then "savings"%string else "additional cost"%string.

Definition tooLow : string :=
  "the contracted capacity may be set too low relative to your effective demands, causing higher exceedance penalties.".

Definition tooHigh : string :=
  "the contracted capacity may be set too high relative to your actual usage, causing overpayment in fixed charges.".

Definition batteryHelps : string :=
  "the battery helps reduce your peak demand each month, thus reducing penalties for exceedance.".

Definition negativeReason (st : State) : string :=
  let negativeReason := tooLow in
  if maxEffectiveDemand st <? contractedCapacity st then tooHigh
  else if contractedCapacity st <? minEffectiveDemand st then tooLow
  else negativeReason.

(** The sentence completed at lines 320-323 of the page. *)
Definition rationale (st : State) : string :=
  if isPositiveSavings st then batteryHelps else negativeReason st.

(** [monthlyCharges[index]] is [undefined] out of range, and a number
    minus [undefined] is [NaN]. *)
Definition monthlySavings (st : State) : list float :=
  mapi (fun demand index =>
          let originalCharge := calculateMonthlyCharge demand 3100 in
          let newCharge := nth index (monthlyCharges st) nan in
          originalCharge - newCharge)
       demands.

End Model.

(** ** Interaction controller *)

(** What [handleMouseMove] reads: the pointer's [clientY] and the chart's
    bounding rectangle. *)
Record MouseMove := {
  clientY : float;
  chartTop : float;
  chartHeight : float
}.

Definition handleMouseMove (e : MouseMove) (st : State) : State :=
  if isDragging st then
    let yPixel := clientY e - chartTop e in
    if (0 <=? yPixel) && (yPixel <=? chartHeight e) then
      let yValue := (1 - yPixel / chartHeight e) * 4000 in
      let newCapacity := Math.round (yValue / 10) * 10 in
      setContractedCapacity (Math.max [1000; Math.min [4000; newCapacity]]) st
    else st
  else st.

Definition handleMouseDown (st : State) : State := setIsDragging true st.
Definition handleMouseUp (st : State) : State := setIsDragging false st.

(** The two [onChange] handlers; [value] is [Number(e.target.value)]. *)
Definition onChangeBatteryCapacity (value : float) (st : State) : State :=
  setBatteryCapacity value st.

Definition onChangeContractedCapacity (value : float) (st : State) : State :=
  setContractedCapacity value st.

(** ** Vocabulary of the statements *)

(** The candidate capacities 1000, 1010, ..., 4000. *)
Definition grid : list float :=
  map (fun i => Math.of_Z (1000 + 10 * Z.of_nat i)) (seq 0 301).

(** The values the battery input steps through: 0, 10, ..., 1000. *)
Definition batteryGrid : list float :=
  map (fun i => Math.of_Z (10 * Z.of_nat i)) (seq 0 101).

Definition onGrid (v : float) : bool := existsb (Leibniz.eqb v) grid.
Definition onBatteryGrid (v : float) : bool := existsb (Leibniz.eqb v) batteryGrid.

(** The bounds of the contracted-capacity input. *)
Definition inCapacityBounds (v : float) : bool := (1000 <=? v) && (v <=? 4000).

(** The bounds of the battery-capacity input. *)
Definition inBatteryBounds (v : float) : bool := (0 <=? v) && (v <=? 1000).

(** [v] is an integer and [v % 10 === 0], read off the binary expansion
    [(-1)^s * m * 2^e]. *)
Definition isMultipleOf10 (v : float) : bool :=
  match Prim2SF v with
  | S754_zero _ => true
  | S754_finite _ m e =>
      if (0 <=? e)%Z then ((Zpos m * 2 ^ e) mod 10 =? 0)%Z
      else ((Zpos m mod 2 ^ (- e) =? 0) && ((Zpos m / 2 ^ (- e)) mod 10 =? 0))%Z
  | _ => false
  end.

(** A finite, non-zero float. *)
Definition finite (x : float) : Prop :=
  match Prim2SF x with S754_finite _ _ _ => True | _ => False end.

(** A float that is not [NaN] and carries the sign [s]. *)
Definition SFsigned (s : bool) (x : spec_float) : Prop :=
  match x with
  | S754_nan => False
  | S754_zero s' | S754_infinity s' | S754_finite s' _ _ => s' = s
  end.

(** Positive floats of at least 2^9 = 512 (or Infinity) ... *)
Definition SFlarge (x : spec_float) : Prop :=
  match x with
  | S754_infinity false => True
  | S754_finite false m e => (10 <= Zpos (digits2_pos m) + e)%Z
  | _ => False
  end.

(** ... and positive floats whose exponent puts them at 4096 or more. *)
Definition SFbig (x : spec_float) : Prop :=
  match x with
  | S754_infinity false => True
  | S754_finite false m e => (-40 <= e)%Z
  | _ => False
  end.

(** The last two steps of the drag mapping: times 10, then the clamp. *)
Definition clampedTenfold (n : float) : float :=
  Math.max [1000; Math.min [4000; n * 10]].

(** The optimizer's loop body as a fold over the candidates: the pair is
    [(optimalCapacity, minCost)]. *)
Definition scan_step (cost : float -> float) (best : float * float)
    (capacity : float) : float * float :=
  if cost capacity <? snd best then (capacity, cost capacity) else best.

Definition scan (cost : float -> float) (candidates : list float)
    (best : float * float) : float * float :=
  fold_left (scan_step cost) candidates best.

(** What the scan has established once it has seen [seen]: either nothing
    was adopted, or the best so far is the first of the cheapest. *)
Definition scanned (cost : float -> float) (seen : list float)
    (best : float * float) : Prop :=
  (best = (0, infinity) /\ forall c, In c seen -> (cost c <? infinity) = false)
  \/ exists pre post, seen = pre ++ fst best :: post
       /\ snd best = cost (fst best)
       /\ (cost (fst best) <? infinity) = true
       /\ (forall c, In c pre -> (cost c <=? cost (fst best)) = false)
       /\ (forall c, In c post -> (cost c <? cost (fst best)) = false).

(** The loop counter started at [capacity] takes exactly the values of
    [candidates] and then fails the loop test. *)
Fixpoint visits (capacity : float) (candidates : list float) : bool :=
  match candidates with
  | [] => negb (capacity <=? 4000)
  | c :: rest =>
      (capacity <=? 4000) && Leibniz.eqb capacity c && visits (capacity + 10) rest
  end.

Fixpoint increasing (l : list float) : bool :=
  match l with
  | [] => true
  | x :: rest => forallb (fun y => x <? y) rest && increasing rest
  end.

(** A state with the given capacities and nothing else going on. *)
Definition mkState (battery contracted : float) : State :=
  {| batteryCapacity := battery; contractedCapacity := contracted;
     explanation := None; isDragging := false; isHovering := false |}.

(** The current-scenario path run on the baseline's inputs. *)
Definition baselineState (st : State) : State :=
  setContractedCapacity 3100 (setBatteryCapacity 0 st).

(** Distance between the net savings and the sum of the monthly savings
    on the page's data. *)
Definition savingsDrift (st : State) : float :=
  abs (savings maxDemands tariff st - sum (monthlySavings maxDemands tariff st)).

(** The three-way rule for the rationale, as the specification words it. *)
Inductive Branch := BatteryDriven | OverContracting | UnderContracting.

Definition branch_text (b : Branch) : string :=
  match b with
  | BatteryDriven => batteryHelps
  | OverContracting => tooHigh
  | UnderContracting => tooLow
  end.

Definition rationale_rule (netSavings contracted maxEffective : float) : Branch :=
  if 0 <=? netSavings then BatteryDriven
  else if maxEffective <? contracted then OverContracting
  else UnderContracting.

(** A drag in progress on the initial page, and three pointer positions
    over a chart 432 pixels high, and one over a collapsed chart. *)
Definition dragging : State := handleMouseDown initialState.

Definition moveInside : MouseMove :=
  {| clientY := 200; chartTop := 100; chartHeight := 432 |}.

Definition moveAbove : MouseMove :=
  {| clientY := 95; chartTop := 100; chartHeight := 432 |}.

Definition moveBelow : MouseMove :=
  {| clientY := 540; chartTop := 100; chartHeight := 432 |}.

Definition zeroHeightMove : MouseMove :=
  {| clientY := 0; chartTop := 0; chartHeight := 0 |}.

(** ** Vocabulary of the further properties *)

(** A list of numbers none of which is [NaN]. *)
Definition noNaN (l : list float) : bool := forallb (fun x => negb (is_nan x)) l.

(** A number that is [NaN] or not below zero: what a charge can be. *)
Definition neverNegative (x : float) : bool := is_nan x || (0 <=? x).

(** The same on the decoded form: neither a negative number nor [-Infinity]. *)
Definition SFnn (x : spec_float) : Prop :=
  match x with
  | S754_infinity true | S754_finite true _ _ => False
  | _ => True
  end.

(** A decoded number that is not zero and has sign [s]. *)
Definition SFnonzero (s : bool) (x : spec_float) : Prop :=
  match x with
  | S754_finite s' _ _ | S754_infinity s' => s' = s
  | _ => False
  end.

(** The mantissa [m] and exponent [e] of a binary64 number in its normal
    form: either [m] has 53 bits or [e] is the least exponent. *)
Definition canonical (m : positive) (e : Z) : Prop :=
  Z.max (Zpos (digits2_pos m) + e - 53) (-1074) = e.

(** The integer the subtraction of two finite numbers rounds, after both
    mantissas are brought to the smaller exponent (as [SFsub] does). *)
Definition aligned_diff (s1 : bool) m1 e1 (s2 : bool) m2 e2 : Z :=
  let ez := Z.min e1 e2 in
  (cond_Zopp s1 (Zpos (fst (shl_align m1 e1 ez)))
   - cond_Zopp s2 (Zpos (fst (shl_align m2 e2 ez))))%Z.

(** The guard of [handleMouseMove]: [yPixel >= 0 && yPixel <= chartHeight]. *)
Definition inPlot (e : MouseMove) : bool :=
  (0 <=? clientY e - chartTop e) && (clientY e - chartTop e <=? chartHeight e).

(** A sequence of [mousemove] events, handled one after the other. *)
Definition handleMouseMoves (events : list MouseMove) (st : State) : State :=
  fold_left (fun st e => handleMouseMove e st) events st.

(** [chartData = months.map((month, index) => ({ month,
      maxDemand: maxDemands[index], effectiveDemand: effectiveDemands[index] }))];
    an index past the end of an array reads [undefined] ([None]). *)
Record ChartRow := {
  month : string;
  maxDemand : option float;
  effectiveDemand : option float
}.

Definition chartData (months : list string) (demands : list float) (st : State)
    : list ChartRow :=
  mapi (fun month index =>
          {| month := month;
             maxDemand := nth_error demands index;
             effectiveDemand := nth_error (effectiveDemands demands st) index |})
       months.

(** *** Rounding to nearest, ties to even

    What [SpecFloat]'s [binary_round_aux] computes, said on integers and on
    real numbers. *)

(** The record [rec] holds [m] shifted right by [k] bits, with the position
    of the bits shifted out relative to one half. *)
Definition shifted (m k : Z) (rec : shr_record) : Prop :=
  shr_m rec = (m / 2 ^ k)%Z
  /\ loc_of_shr_record rec
     = (if (m mod 2 ^ k =? 0)%Z then loc_Exact
        else loc_Inexact (2 * (m mod 2 ^ k) ?= 2 ^ k)%Z).

(** [m / 2 ^ n] rounded to the nearest integer, ties to even. *)
Definition rne (m n : Z) : Z :=
  round_nearest_even (m / 2 ^ n)
    (if (m mod 2 ^ n =? 0)%Z then loc_Exact
     else loc_Inexact (2 * (m mod 2 ^ n) ?= 2 ^ n)%Z).

(** Powers of two and the real number [m * 2 ^ e]. *)
Definition bpow (e : Z) : R := powerRZ 2 e.

Definition F2R (m e : Z) : R := (IZR m * bpow e)%R.

(** [k * g] is a multiple of [g] nearest to [v], and [k] is even when [v]
    is half way between two multiples. *)
Definition nearest (v g : R) (k : Z) : Prop :=
  (v - g / 2 <= IZR k * g <= v + g / 2)%R
  /\ ((IZR k * g = v + g / 2 \/ IZR k * g = v - g / 2)%R -> Z.even k = true).


(** The real number a decoded number stands for; the infinities and [NaN]
    count as 0 here and are told apart by the statements that use it. *)
Definition SFR (x : spec_float) : R :=
  match x with
  | S754_finite s m e => F2R (cond_Zopp s (Zpos m)) e
  | _ => 0%R
  end.

(** [r] is the positive real number [v] rounded to binary64: [v] lies in
    the binade below [2 ^ E], the multiple [k * 2 ^ fexp E] is nearest to it
    (ties to even), and [r] is that multiple, or [+Infinity] from [2 ^ 1024]
    on. *)
Definition RndPos (v : R) (r : spec_float) : Prop :=
  exists E k,
    (bpow (E - 1) <= v < bpow E)%R
    /\ nearest v (bpow (fexp prec emax E)) k
    /\ match r with
       | S754_zero s => s = false /\ k = 0%Z
       | S754_finite s m e =>
           s = false /\ F2R (Zpos m) e = F2R k (fexp prec emax E)
           /\ (F2R k (fexp prec emax E) < bpow 1024)%R
       | S754_infinity s => s = false /\ (bpow 1024 <= F2R k (fexp prec emax E))%R
       | S754_nan => False
       end.

(** A zero or a finite number. *)
Definition SFfin (x : spec_float) : Prop :=
  match x with
  | S754_zero _ | S754_finite _ _ _ => True
  | _ => False
  end.

(** [r] is the real number [v] rounded to binary64, whatever its sign. *)
Definition Rnd (v : R) (r : spec_float) : Prop :=
  (v = 0%R /\ exists s, r = S754_zero s)
  \/ ((0 < v)%R /\ RndPos v r)
  \/ ((v < 0)%R /\ RndPos (- v) (SFopp r)).

(** * Facts about binary64 arithmetic

    Derived from the specification of the primitive operations on
    [spec_float]. *)

(** ** Comparisons *)

Ltac cmp_cases :=
  repeat match goal with
  | H : context [Z.compare ?a ?b] |- _ => destruct (Z.compare_spec a b)
  | |- context [Z.compare ?a ?b] => destruct (Z.compare_spec a b)
  | H : context [Pos.compare ?a ?b] |- _ => destruct (Pos.compare_spec a b)
  | |- context [Pos.compare ?a ?b] => destruct (Pos.compare_spec a b)
  end.

(** Case analysis on two or three [spec_float]s and their comparisons. *)
Ltac sf_order :=
  unfold SFleb, SFltb, SFcompare;
  repeat match goal with
  | x : spec_float |- _ => destruct x as [[]|[]| |[] ? ?]
  end;
  try discriminate; try congruence; try reflexivity;
  change (Pos.compare_cont Eq) with Pos.compare; intros; cmp_cases; simpl in *;
  try discriminate; try reflexivity; try lia.

Lemma SFltb_irrefl x : SFltb x x = false.
Proof.
  unfold SFltb, SFcompare. destruct x as [s|s| |s m e]; try destruct s;
    rewrite ?Z.compare_refl, ?Pos.compare_cont_refl; reflexivity.
Qed.

Lemma SFltb_trans x y z : SFltb x y = true -> SFltb y z = true -> SFltb x z = true.
Proof. sf_order. Qed.

Lemma SFleb_ltb_trans x y z : SFleb x y = true -> SFltb y z = true -> SFltb x z = true.
Proof. sf_order. Qed.

Lemma SFltb_leb x y : SFltb x y = true -> SFleb x y = true.
Proof. unfold SFltb, SFleb. destruct (SFcompare x y) as [[]|]; easy. Qed.

Lemma SFltb_not_leb x y : SFltb x y = true -> SFleb y x = false.
Proof. sf_order. Qed.

Lemma ltb_irrefl x : (x <? x) = false.
Proof. rewrite FloatAxioms.ltb_spec. apply SFltb_irrefl. Qed.

Lemma ltb_trans x y z : (x <? y) = true -> (y <? z) = true -> (x <? z) = true.
Proof. rewrite !FloatAxioms.ltb_spec. apply SFltb_trans. Qed.

Lemma leb_ltb_trans x y z : (x <=? y) = true -> (y <? z) = true -> (x <? z) = true.
Proof. rewrite !FloatAxioms.ltb_spec, FloatAxioms.leb_spec. apply SFleb_ltb_trans. Qed.

Lemma ltb_leb x y : (x <? y) = true -> (x <=? y) = true.
Proof. rewrite FloatAxioms.ltb_spec, FloatAxioms.leb_spec. apply SFltb_leb. Qed.

Lemma ltb_not_leb x y : (x <? y) = true -> (y <=? x) = false.
Proof. rewrite FloatAxioms.ltb_spec, FloatAxioms.leb_spec. apply SFltb_not_leb. Qed.

(** ** [NaN] *)

Lemma is_nan_spec (x : float) :
  is_nan x = match Prim2SF x with S754_nan => true | _ => false end.
Proof.
  unfold is_nan. rewrite FloatAxioms.eqb_spec. unfold SFeqb, SFcompare.
  destruct (Prim2SF x) as [s|s| |s m e]; try (destruct s);
    rewrite ?Z.compare_refl, ?Pos.compare_cont_refl; reflexivity.
Qed.

Lemma is_nan_false (x : float) : is_nan x = false <-> Prim2SF x <> S754_nan.
Proof. rewrite is_nan_spec. destruct (Prim2SF x); split; congruence. Qed.

Lemma leb_notnan_r x y : (x <=? y) = true -> is_nan y = false.
Proof.
  rewrite FloatAxioms.leb_spec, is_nan_spec. unfold SFleb, SFcompare.
  destruct (Prim2SF x), (Prim2SF y); try reflexivity; discriminate.
Qed.

Lemma float_of_SF x sf : Prim2SF x = sf -> x = SF2Prim sf.
Proof. intros <-. symmetry. apply SF2Prim_Prim2SF. Qed.

Lemma finite_of_bounds h : (0 <? h) = true -> (h <? infinity) = true -> finite h.
Proof.
  rewrite !FloatAxioms.ltb_spec. unfold finite.
  change (Prim2SF 0) with (S754_zero false).
  change (Prim2SF infinity) with (S754_infinity false).
  destruct (Prim2SF h) as [s|s| |s m e]; try destruct s; simpl; try discriminate; auto.
Qed.

(** ** Rounding keeps the sign and never makes a [NaN] *)

Lemma shr_1_nonneg mrs : (0 <= shr_m mrs)%Z -> (0 <= shr_m (shr_1 mrs))%Z.
Proof.
  destruct mrs as [m r s]. simpl. destruct m as [|p|p]; [easy| |lia].
  destruct p; simpl; lia.
Qed.

Lemma iter_shr_1_nonneg p : forall mrs,
  (0 <= shr_m mrs)%Z -> (0 <= shr_m (SpecFloat.iter_pos shr_1 p mrs))%Z.
Proof.
  induction p as [p IH|p IH|]; simpl; intros mrs H.
  - apply IH, IH, shr_1_nonneg, H.
  - apply IH, IH, H.
  - apply shr_1_nonneg, H.
Qed.

Lemma shr_fexp_nonneg m e l :
  (0 <= m)%Z -> (0 <= shr_m (fst (shr_fexp prec emax m e l)))%Z.
Proof.
  intros H. unfold shr_fexp, shr.
  assert (H0 : (0 <= shr_m (shr_record_of_loc m l))%Z).
  { destruct l as [|[]]; exact H. }
  destruct (_ - e)%Z; simpl; auto using iter_shr_1_nonneg.
Qed.

Lemma round_nearest_even_nonneg m l : (0 <= m)%Z -> (0 <= round_nearest_even m l)%Z.
Proof.
  intros H. unfold round_nearest_even. destruct l as [|[]]; try lia.
  destruct (Z.even m); lia.
Qed.

Lemma binary_round_aux_signed s m e l :
  (0 <= m)%Z -> SFsigned s (binary_round_aux prec emax s m e l).
Proof.
  intros H. unfold binary_round_aux.
  pose proof (shr_fexp_nonneg m e l H) as H1.
  destruct (shr_fexp prec emax m e l) as [mrs' e']. simpl in H1.
  pose proof (shr_fexp_nonneg _ e' loc_Exact
                (round_nearest_even_nonneg _ (loc_of_shr_record mrs') H1)) as H2.
  destruct (shr_fexp prec emax _ e' loc_Exact) as [mrs'' e'']. simpl in H2.
  destruct (shr_m mrs''); [reflexivity| |lia].
  destruct (_ <=? _)%Z; reflexivity.
Qed.

Lemma binary_round_signed s m e : SFsigned s (binary_round prec emax s m e).
Proof.
  unfold binary_round. destruct (shl_align _ _ _) as [mz ez].
  apply binary_round_aux_signed. lia.
Qed.

Lemma SFsigned_notnan s x : SFsigned s x -> x <> S754_nan.
Proof. destruct x; simpl; congruence. Qed.

Lemma SFsigned_true_not_pos x : SFsigned true x -> SFltb (S754_zero false) x = false.
Proof. destruct x as [s|s| |s m e]; simpl; try easy; intros ->; reflexivity. Qed.

Lemma binary_normalize_notnan m e sz : binary_normalize prec emax m e sz <> S754_nan.
Proof.
  destruct m; simpl; [congruence| |]; eapply SFsigned_notnan, binary_round_signed.
Qed.

Lemma SFsub_finite_l s m e y :
  y <> S754_nan -> SF64sub (S754_finite s m e) y <> S754_nan.
Proof.
  unfold SF64sub, SFsub. destruct y as [sy|sy| |sy my ey]; try congruence.
  intros _. apply binary_normalize_notnan.
Qed.

Lemma SFmul_finite_r x s m e :
  x <> S754_nan -> SF64mul x (S754_finite s m e) <> S754_nan.
Proof.
  unfold SF64mul, SFmul. destruct x as [sx|sx| |sx mx ex]; try congruence.
  intros _. eapply SFsigned_notnan, binary_round_aux_signed. lia.
Qed.

Lemma SFdiv_core_nonneg mx ex my ey :
  (0 <= fst (fst (SFdiv_core_binary prec emax (Zpos mx) ex (Zpos my) ey)))%Z.
Proof.
  unfold SFdiv_core_binary.
  set (s := (_ - _ - _)%Z).
  set (m' := match s with
             | Zpos _ => Z.shiftl (Zpos mx) s | Z0 => Zpos mx | Zneg _ => 0%Z
             end).
  assert (Hm : (0 <= m')%Z).
  { subst m'. destruct s; try lia. apply Z.shiftl_nonneg. lia. }
  pose proof (Z.div_pos m' (Zpos my) Hm ltac:(lia)) as Hq.
  unfold Z.div in Hq. destruct (Z.div_eucl m' (Zpos my)) as [q r]. exact Hq.
Qed.

Lemma SFdiv_finite_r x s m e :
  x <> S754_nan -> SF64div x (S754_finite s m e) <> S754_nan.
Proof.
  unfold SF64div, SFdiv. destruct x as [sx|sx| |sx mx ex]; try congruence.
  intros _. pose proof (SFdiv_core_nonneg mx ex m e) as H.
  destruct (SFdiv_core_binary prec emax (Zpos mx) ex (Zpos m) e) as [[mz ez] lz].
  eapply SFsigned_notnan, binary_round_aux_signed. exact H.
Qed.

Lemma sub_notnan x y : finite x -> is_nan y = false -> is_nan (x - y) = false.
Proof.
  unfold finite. rewrite !is_nan_false, FloatAxioms.sub_spec.
  destruct (Prim2SF x); try easy. intros _. apply SFsub_finite_l.
Qed.

Lemma mul_notnan x y : is_nan x = false -> finite y -> is_nan (x * y) = false.
Proof.
  unfold finite. rewrite !is_nan_false, FloatAxioms.mul_spec.
  destruct (Prim2SF y); try easy. intros H _. apply SFmul_finite_r, H.
Qed.

Lemma div_notnan x y : is_nan x = false -> finite y -> is_nan (x / y) = false.
Proof.
  unfold finite. rewrite !is_nan_false, FloatAxioms.div_spec.
  destruct (Prim2SF y); try easy. intros H _. apply SFdiv_finite_r, H.
Qed.

(** ** A finite float divided by itself is 1 *)

Lemma SFdiv_core_self m e :
  SFdiv_core_binary prec emax (Zpos m) e (Zpos m) e = ((2 ^ 53)%Z, (-53)%Z, loc_Exact).
Proof.
  unfold SFdiv_core_binary.
  replace (Zdigits2 (Zpos m) + e - (Zdigits2 (Zpos m) + e))%Z with 0%Z by lia.
  rewrite Z.sub_diag.
  change (Z.min (fexp prec emax 0) 0) with (-53)%Z.
  change (0 - -53)%Z with 53%Z. cbv iota.
  rewrite Z.shiftl_mul_pow2 by lia.
  pose proof (Z.div_eucl_eq (Zpos m * 2 ^ 53) (Zpos m) ltac:(lia)) as Heq.
  pose proof (Z.mod_pos_bound (Zpos m * 2 ^ 53) (Zpos m) ltac:(lia)) as Hb.
  unfold Z.modulo in Hb.
  destruct (Z.div_eucl (Zpos m * 2 ^ 53) (Zpos m)) as [q r].
  assert (Hq : q = (2 ^ 53)%Z) by nia.
  assert (Hr : r = 0%Z) by nia.
  subst q r. unfold new_location.
  destruct (Z.even (Zpos m)); reflexivity.
Qed.

Lemma div_self h : finite h -> h / h = 1.
Proof.
  unfold finite. intros Hf. apply Prim2SF_inj. rewrite FloatAxioms.div_spec.
  destruct (Prim2SF h) as [| | |s m e]; try contradiction.
  unfold SF64div, SFdiv. rewrite SFdiv_core_self.
  destruct s; reflexivity.
Qed.

(** ** The [Math] built-ins *)

Lemma max_0 v : Math.max [0; v] = if is_nan v then nan else if 0 <? v then v else 0.
Proof.
  unfold Math.max, Math.max_loop.
  change (is_nan 0) with false. cbv iota.
  change (Leibniz.eqb 0 zero && Leibniz.eqb neg_infinity neg_zero) with false.
  cbv iota zeta.
  change (neg_infinity <? 0) with true. cbv iota.
  change (Leibniz.eqb 0 neg_zero) with false. rewrite andb_false_r. reflexivity.
Qed.

Lemma min_4000 v :
  Math.min [4000; v] = if is_nan v then nan else if v <? 4000 then v else 4000.
Proof.
  unfold Math.min, Math.min_loop.
  change (is_nan 4000) with false. cbv iota.
  change (Leibniz.eqb 4000 neg_zero && Leibniz.eqb infinity zero) with false.
  cbv iota zeta.
  change (4000 <? infinity) with true. cbv iota.
  change (Leibniz.eqb 4000 zero) with false. rewrite andb_false_r. reflexivity.
Qed.

Lemma max_1000 v :
  Math.max [1000; v] = if is_nan v then nan else if 1000 <? v then v else 1000.
Proof.
  unfold Math.max, Math.max_loop.
  change (is_nan 1000) with false. cbv iota.
  change (Leibniz.eqb 1000 zero && Leibniz.eqb neg_infinity neg_zero) with false.
  cbv iota zeta.
  change (neg_infinity <? 1000) with true. cbv iota.
  change (Leibniz.eqb 1000 neg_zero) with false. rewrite andb_false_r. reflexivity.
Qed.

(** The final clamp of the drag handler keeps every number in bounds. *)
Lemma clamp_bounds v :
  is_nan v = false -> inCapacityBounds (Math.max [1000; Math.min [4000; v]]) = true.
Proof.
  intros Hv. rewrite min_4000, Hv. unfold inCapacityBounds.
  destruct (v <? 4000) eqn:H4; [|reflexivity].
  rewrite max_1000, Hv. destruct (1000 <? v) eqn:H1; [|reflexivity].
  rewrite (ltb_leb _ _ H1), (ltb_leb _ _ H4). reflexivity.
Qed.

(** ... and lets [NaN] through. *)
Lemma clamp_nan v : is_nan v = true -> Math.max [1000; Math.min [4000; v]] = nan.
Proof. intros Hv. rewrite min_4000, Hv. reflexivity. Qed.

Lemma of_Z_notnan k : is_nan (Math.of_Z k) = false.
Proof.
  rewrite is_nan_false. destruct k; simpl.
  - vm_compute. congruence.
  - rewrite FloatAxioms.of_uint63_spec. apply binary_normalize_notnan.
  - rewrite FloatAxioms.opp_spec, FloatAxioms.of_uint63_spec.
    pose proof (binary_normalize_notnan (to_Z (of_Z (Zpos p))) 0 false) as H.
    destruct (binary_normalize _ _ _ _); simpl; congruence.
Qed.

Lemma round_notnan x : is_nan x = false -> is_nan (Math.round x) = false.
Proof.
  intros H. unfold Math.round. destruct (Prim2SF x) as [s|s| |s m e]; try exact H.
  destruct (0 <=? e)%Z; [exact H|]. cbv zeta.
  destruct (_ =? 0)%Z; [destruct s; reflexivity|]. apply of_Z_notnan.
Qed.

(** [Math.round] on the cases the ECMAScript text singles out. *)
Example round_examples :
  map Math.round [2.5; -2.5; 0.4; -0.4; -0.5; 0.49999999999999994; 310.5; infinity]
  = [3; -2; 0; -0; -0; 0; 311; infinity].
Proof. reflexivity. Qed.

(** ** Binary digits and magnitudes *)
Lemma digits2_pos_size p : digits2_pos p = Pos.size p.
Proof. induction p; simpl; congruence. Qed.

Lemma Zdigits2_log2 m : (0 < m)%Z -> Zdigits2 m = (Z.log2 m + 1)%Z.
Proof.
  destruct m as [|p|p]; try lia. intros _. simpl. rewrite digits2_pos_size.
  destruct p; simpl; lia.
Qed.

Lemma Zdigits2_nonneg m : (0 <= Zdigits2 m)%Z.
Proof. destruct m; simpl; lia. Qed.

Lemma Zdigits2_pos m : (0 < m)%Z -> (0 < Zdigits2 m)%Z.
Proof. destruct m; simpl; lia. Qed.

Lemma Zdigits2_zero_inv m : (0 <= m)%Z -> Zdigits2 m = 0%Z -> m = 0%Z.
Proof. destruct m; simpl; lia. Qed.

Lemma Zdigits2_mul a b :
  (0 < a)%Z -> (0 < b)%Z -> (Zdigits2 a + Zdigits2 b - 1 <= Zdigits2 (a * b))%Z.
Proof.
  intros Ha Hb. rewrite !Zdigits2_log2 by nia.
  pose proof (Z.log2_mul_below a b Ha Hb). lia.
Qed.

Lemma Zdigits2_succ m :
  (0 < m)%Z -> (Zdigits2 m <= Zdigits2 (m + 1) <= Zdigits2 m + 1)%Z.
Proof.
  intros Hm. rewrite !Zdigits2_log2 by lia.
  pose proof (Z.log2_le_mono m (m + 1) ltac:(lia)).
  pose proof (Z.log2_succ_le m). unfold Z.succ in *. lia.
Qed.

Lemma shr_1_digits mrs :
  (0 <= shr_m mrs)%Z ->
  Zdigits2 (shr_m (shr_1 mrs)) = Z.max 0 (Zdigits2 (shr_m mrs) - 1).
Proof.
  destruct mrs as [m r s]. cbn [shr_m]. destruct m as [|p|p]; try lia; [reflexivity|].
  intros _. destruct p; cbn [shr_1 shr_m Zdigits2 digits2_pos];
    rewrite ?Pos2Z.inj_succ; lia.
Qed.

Lemma iter_shr_1_digits p : forall mrs,
  (0 <= shr_m mrs)%Z ->
  Zdigits2 (shr_m (SpecFloat.iter_pos shr_1 p mrs))
  = Z.max 0 (Zdigits2 (shr_m mrs) - Zpos p).
Proof.
  induction p as [p IH|p IH|]; simpl; intros mrs H.
  - rewrite IH, IH, shr_1_digits by auto using iter_shr_1_nonneg, shr_1_nonneg. lia.
  - rewrite IH, IH by auto using iter_shr_1_nonneg. lia.
  - apply shr_1_digits, H.
Qed.

Lemma shr_record_of_loc_m m l : shr_m (shr_record_of_loc m l) = m.
Proof. destruct l as [|[]]; reflexivity. Qed.

(** In the normal range a right shift to the target exponent keeps the
    mantissa positive and the magnitude [digits + exponent]. *)
Lemma shr_fexp_normal m e l :
  (0 < m)%Z -> (-1074 <= Zdigits2 m + e - 53)%Z ->
  (0 < shr_m (fst (shr_fexp prec emax m e l)))%Z
  /\ (Zdigits2 (shr_m (fst (shr_fexp prec emax m e l))) + snd (shr_fexp prec emax m e l)
      = Zdigits2 m + e)%Z
  /\ (Zdigits2 m + e - 53 <= snd (shr_fexp prec emax m e l))%Z.
Proof.
  intros Hm Hn. unfold shr_fexp, shr, fexp, SpecFloat.emin, prec, emax.
  pose proof (shr_record_of_loc_m m l) as Hr.
  destruct (Z.max (Zdigits2 m + e - 53) (3 - 1024 - 53) - e)%Z as [|p|p] eqn:En;
    cbn [fst snd]; rewrite ?Hr; try (repeat split; lia).
  pose proof (iter_shr_1_digits p (shr_record_of_loc m l) ltac:(lia)) as Hd.
  pose proof (iter_shr_1_nonneg p (shr_record_of_loc m l) ltac:(lia)) as Hp.
  rewrite Hr in Hd.
  assert (Zdigits2 (shr_m (SpecFloat.iter_pos shr_1 p (shr_record_of_loc m l))) = 53%Z)
    by lia.
  repeat split; try lia.
  destruct (shr_m (SpecFloat.iter_pos shr_1 p (shr_record_of_loc m l))); simpl in *; lia.
Qed.

Lemma binary_round_aux_normal s m e l :
  (0 < m)%Z -> (-1074 <= Zdigits2 m + e - 53)%Z ->
  match binary_round_aux prec emax s m e l with
  | S754_finite s' _ e' => s' = s /\ (Zdigits2 m + e - 53 <= e')%Z
  | S754_infinity s' => s' = s
  | _ => False
  end.
Proof.
  intros Hm Hn. unfold binary_round_aux.
  destruct (shr_fexp_normal m e l Hm Hn) as (H1 & H2 & H3).
  destruct (shr_fexp prec emax m e l) as [mrs' e']. cbn [fst snd] in *.
  set (mr := round_nearest_even (shr_m mrs') (loc_of_shr_record mrs')).
  assert (Hr : (shr_m mrs' <= mr <= shr_m mrs' + 1)%Z).
  { subst mr. unfold round_nearest_even.
    destruct (loc_of_shr_record mrs') as [|[]]; try lia. destruct (Z.even _); lia. }
  assert (Hd : (Zdigits2 (shr_m mrs') <= Zdigits2 mr)%Z).
  { assert (mr = shr_m mrs' \/ mr = shr_m mrs' + 1)%Z as [->| ->] by lia; [lia|].
    apply Zdigits2_succ, H1. }
  destruct (shr_fexp_normal mr e' loc_Exact ltac:(lia) ltac:(lia)) as (H4 & H5 & H6).
  destruct (shr_fexp prec emax mr e' loc_Exact) as [mrs'' e'']. cbn [fst snd] in *.
  destruct (shr_m mrs''); try lia.
  destruct (_ <=? _)%Z; [split|]; [reflexivity|lia|reflexivity].
Qed.

Lemma valid_canonical x s m e :
  Prim2SF x = S754_finite s m e ->
  Z.max (Zpos (digits2_pos m) + e - 53) (-1074) = e.
Proof.
  intros H. pose proof (Prim2SF_valid x) as Hv. rewrite H in Hv.
  unfold SpecFloat.valid_binary, bounded, canonical_mantissa, fexp in Hv.
  apply andb_prop in Hv as [Hv _]. apply Z.eqb_eq in Hv. exact Hv.
Qed.

Lemma mul_10_big x : SFlarge (Prim2SF x) -> SFbig (Prim2SF (x * 10)).
Proof.
  rewrite FloatAxioms.mul_spec.
  destruct (Prim2SF 10) as [s|s| |s m' e'] eqn:E; vm_compute in E; try discriminate.
  injection E as <- <- <-.
  destruct (Prim2SF x) as [[]|[]| |[] m e];
    cbv beta iota delta [SFlarge SF64mul SFmul xorb]; try easy. intros H.
  pose proof (Zdigits2_mul (Zpos m) 5629499534213120 ltac:(lia) ltac:(lia)) as Hd.
  change (Zdigits2 5629499534213120) with 53%Z in Hd.
  change (Zdigits2 (Zpos m)) with (Zpos (digits2_pos m)) in Hd.
  change (Z.pos m * 5629499534213120)%Z with (Z.pos (m * 5629499534213120)) in Hd.
  pose proof (binary_round_aux_normal false (Zpos (m * 5629499534213120)) (e + -49)
                loc_Exact ltac:(lia) ltac:(lia)) as Hr.
  destruct (binary_round_aux _ _ _ _ _ _) as [| [] | | [] ? ?];
    cbv beta iota delta [SFbig]; try easy. lia.
Qed.

Lemma SFbig_not_below_4000 x :
  SFbig x -> x <> S754_nan /\ SFltb x (Prim2SF 4000) = false.
Proof.
  destruct (Prim2SF 4000) as [s|s| |s m' e'] eqn:E; vm_compute in E; try discriminate.
  injection E as <- <- <-.
  unfold SFbig, SFltb, SFcompare. destruct x as [[]|[]| |[] m e]; try easy.
  intros H. split; [congruence|].
  destruct (Z.compare_spec e (-41)); (lia || reflexivity).
Qed.

Lemma clamp_big v : SFbig (Prim2SF v) -> Math.max [1000; Math.min [4000; v]] = 4000.
Proof.
  intros H. apply SFbig_not_below_4000 in H as [Hn Hlt].
  rewrite min_4000, FloatAxioms.ltb_spec, Hlt.
  apply is_nan_false in Hn. rewrite Hn. reflexivity.
Qed.

Lemma SFsigned_true_below x m e :
  SFsigned true x ->
  SFltb x (S754_finite false m e) = true /\ SFltb (S754_finite false m e) x = false.
Proof. destruct x as [[]|[]| |[] ? ?]; try easy. Qed.

Lemma clamp_negative v :
  SFsigned true (Prim2SF v) -> Math.max [1000; Math.min [4000; v]] = 1000.
Proof.
  intros H. pose proof (SFsigned_notnan _ _ H) as Hn. apply is_nan_false in Hn.
  rewrite min_4000, Hn, FloatAxioms.ltb_spec.
  destruct (Prim2SF 4000) as [s|s| |s m' e'] eqn:E; vm_compute in E; try discriminate.
  injection E as <- _ _.
  rewrite (proj1 (SFsigned_true_below _ _ _ H)).
  rewrite max_1000, Hn, FloatAxioms.ltb_spec.
  destruct (Prim2SF 1000) as [s|s| |s m1 e1] eqn:E; vm_compute in E; try discriminate.
  injection E as <- _ _.
  rewrite (proj2 (SFsigned_true_below _ _ _ H)). reflexivity.
Qed.

Lemma mul_10_signed s x : SFsigned s (Prim2SF x) -> SFsigned s (Prim2SF (x * 10)).
Proof.
  rewrite FloatAxioms.mul_spec.
  destruct (Prim2SF 10) as [s0|s0| |s0 m' e'] eqn:E; vm_compute in E; try discriminate.
  injection E as <- <- <-.
  destruct (Prim2SF x) as [sx|sx| |sx m e]; intros H; cbn [SFsigned] in H; try easy;
    subst; unfold SF64mul, SFmul; rewrite xorb_false_r; try reflexivity.
  apply binary_round_aux_signed. lia.
Qed.

Lemma iter_xO_digits d : forall m,
  Zpos (digits2_pos (Pos.iter xO m d)) = (Zpos (digits2_pos m) + Zpos d)%Z.
Proof.
  induction d using Pos.peano_ind; intros m.
  - simpl. lia.
  - rewrite Pos.iter_succ. simpl digits2_pos. rewrite Pos2Z.inj_succ, IHd. lia.
Qed.

Lemma shl_align_digits m e e' :
  (Zpos (digits2_pos (fst (shl_align m e e'))) + snd (shl_align m e e')
   = Zpos (digits2_pos m) + e)%Z.
Proof.
  unfold shl_align. destruct (e' - e)%Z as [|d|d] eqn:E; cbn [fst snd]; try lia.
  rewrite iter_xO_digits. lia.
Qed.

Lemma binary_round_normal s m e :
  (-1074 <= Zpos (digits2_pos m) + e - 53)%Z ->
  match binary_round prec emax s m e with
  | S754_finite s' _ e' => s' = s /\ (Zpos (digits2_pos m) + e - 53 <= e')%Z
  | S754_infinity s' => s' = s
  | _ => False
  end.
Proof.
  intros H. unfold binary_round.
  pose proof (shl_align_digits m e (fexp prec emax (Zpos (digits2_pos m) + e))) as Hd.
  destruct (shl_align _ _ _) as [mz ez]. cbn [fst snd] in Hd.
  pose proof (binary_round_aux_normal s (Zpos mz) ez loc_Exact ltac:(lia)) as Hr.
  cbn [Zdigits2] in Hr. rewrite Hd in Hr. apply Hr. lia.
Qed.

Lemma digits_ge_10 p : (512 <= Zpos p)%Z -> (10 <= Zpos (digits2_pos p))%Z.
Proof.
  intros H. change (Zpos (digits2_pos p)) with (Zdigits2 (Zpos p)).
  rewrite Zdigits2_log2 by lia.
  pose proof (Z.log2_le_mono 512 (Zpos p) H) as Hl.
  change (Z.log2 512) with 9%Z in Hl. lia.
Qed.

Lemma of_Z_large k :
  (512 <= k < 2 ^ 63)%Z -> SFlarge (Prim2SF (Math.of_Z k)).
Proof.
  intros Hk. destruct k as [|p|p]; try lia. unfold Math.of_Z.
  pose proof (valid_canonical (of_uint63 (of_Z (Zpos p)))) as Hv.
  rewrite FloatAxioms.of_uint63_spec in *.
  rewrite Uint63.of_Z_spec, Z.mod_small in * by (change wB with (2 ^ 63)%Z; lia).
  cbn [binary_normalize] in *.
  pose proof (digits_ge_10 p ltac:(lia)) as Hd.
  pose proof (binary_round_normal false p 0 ltac:(lia)) as Hr.
  destruct (binary_round prec emax false p 0) as [| [] | | [] m e];
    cbn [SFlarge]; try contradiction; try discriminate; try exact I;
    try (destruct Hr; discriminate).
  specialize (Hv _ _ _ eq_refl). lia.
Qed.

Lemma of_Z_negative k : (k < 0)%Z -> SFsigned true (Prim2SF (Math.of_Z k)).
Proof.
  intros Hk. destruct k as [|p|p]; try lia. unfold Math.of_Z.
  rewrite FloatAxioms.opp_spec, FloatAxioms.of_uint63_spec.
  pose proof (Uint63.to_Z_bounded (of_Z (Zpos p))) as Hb.
  destruct (to_Z (of_Z (Zpos p))) as [|q|q]; try lia; cbn [binary_normalize].
  - reflexivity.
  - pose proof (binary_round_signed false q 0) as Hs.
    destruct (binary_round prec emax false q 0); simpl in *; subst; easy.
Qed.

Lemma small_counts_on_grid :
  forallb (fun i => onGrid (clampedTenfold (Math.of_Z (Z.of_nat i)))) (seq 1 511) = true.
Proof. vm_compute. reflexivity. Qed.

Lemma small_count_on_grid k :
  (1 <= k <= 511)%Z -> onGrid (clampedTenfold (Math.of_Z k)) = true.
Proof.
  intros Hk. pose proof small_counts_on_grid as H. rewrite forallb_forall in H.
  specialize (H (Z.to_nat k)). rewrite Z2Nat.id in H by lia.
  apply H, in_seq. lia.
Qed.

Lemma mantissa_bound x s m e :
  Prim2SF x = S754_finite s m e -> (Zpos m < 2 ^ 53)%Z.
Proof.
  intros H. pose proof (valid_canonical x s m e H) as Hc.
  assert (Hd : (Zpos (digits2_pos m) <= 53)%Z) by lia.
  change (Zpos (digits2_pos m)) with (Zdigits2 (Zpos m)) in Hd.
  rewrite Zdigits2_log2 in Hd by lia.
  apply Z.log2_lt_pow2; lia.
Qed.

Lemma onGrid_1000 : onGrid 1000 = true. Proof. reflexivity. Qed.
Lemma onGrid_4000 : onGrid 4000 = true. Proof. reflexivity. Qed.

(** Whatever number is rounded, ten times the result, clamped, is a grid
    value. *)
Lemma rounded_tenfold_on_grid z :
  is_nan z = false -> onGrid (clampedTenfold (Math.round z)) = true.
Proof.
  intros Hn. unfold Math.round, clampedTenfold.
  destruct (Prim2SF z) as [s|s| |s m e] eqn:Hz.
  - apply float_of_SF in Hz. subst z. destruct s; reflexivity.
  - apply float_of_SF in Hz. subst z. destruct s; reflexivity.
  - rewrite is_nan_spec, Hz in Hn. discriminate.
  - pose proof (valid_canonical z s m e Hz) as Hc.
    pose proof (mantissa_bound z s m e Hz) as Hm.
    destruct (0 <=? e)%Z eqn:He.
    + apply Z.leb_le in He. destruct s.
      * rewrite clamp_negative; [reflexivity|].
        apply mul_10_signed. rewrite Hz. reflexivity.
      * rewrite clamp_big; [reflexivity|].
        apply mul_10_big. rewrite Hz. cbn [SFlarge]. lia.
    + apply Z.leb_gt in He. cbv zeta.
      set (q := (2 ^ (- e))%Z).
      assert (Hq : (2 <= q)%Z).
      { subst q. change 2%Z with (2 ^ 1)%Z at 1. apply Z.pow_le_mono_r; lia. }
      set (k := ((cond_Zopp s (2 * Zpos m) + q) / (2 * q))%Z).
      destruct (k =? 0)%Z eqn:Hk0; [destruct s; reflexivity|].
      apply Z.eqb_neq in Hk0.
      destruct s; cbn [cond_Zopp] in k.
      * assert (k < 0)%Z.
        { assert (k < 1)%Z; [|lia]. apply Z.div_lt_upper_bound; lia. }
        rewrite clamp_negative; [reflexivity|].
        apply mul_10_signed, of_Z_negative. assumption.
      * assert (0 <= k)%Z by (apply Z.div_pos; lia).
        assert (k < 2 ^ 63)%Z by (apply Z.div_lt_upper_bound; lia).
        destruct (Z_le_gt_dec k 511).
        -- apply small_count_on_grid. lia.
        -- rewrite clamp_big; [reflexivity|].
           apply mul_10_big, of_Z_large. lia.
Qed.

(** * The optimizer *)

Section ScanFacts.
Variable cost : float -> float.

Lemma scanned_step seen best c :
  scanned cost seen best -> scanned cost (seen ++ [c]) (scan_step cost best c).
Proof.
  intros [[-> Hnone] | (pre & post & -> & Hmin & Hfin & Hpre & Hpost)];
    unfold scan_step; simpl snd.
  - destruct (cost c <? infinity) eqn:Hc.
    + right. exists seen, []. simpl. repeat split; auto; [|easy].
      intros c' Hin. specialize (Hnone c' Hin).
      destruct (cost c' <=? cost c) eqn:Hle; [|reflexivity].
      rewrite (leb_ltb_trans _ _ _ Hle Hc) in Hnone. discriminate.
    + left. split; [reflexivity|]. intros c' Hin.
      apply in_app_or in Hin as [Hin|[<-|[]]]; auto.
  - rewrite Hmin. destruct (cost c <? cost (fst best)) eqn:Hc.
    + right. exists (pre ++ fst best :: post), []. simpl.
      repeat split; auto; [| |easy].
      * eapply ltb_trans; eassumption.
      * intros c' Hin.
        destruct (cost c' <=? cost c) eqn:Hle; [|reflexivity].
        pose proof (leb_ltb_trans _ _ _ Hle Hc) as Hlt.
        apply in_app_or in Hin as [Hin|[<-|Hin]].
        -- specialize (Hpre c' Hin). rewrite (ltb_leb _ _ Hlt) in Hpre. discriminate.
        -- rewrite ltb_irrefl in Hlt. discriminate.
        -- specialize (Hpost c' Hin). rewrite Hlt in Hpost. discriminate.
    + right. exists pre, (post ++ [c]). rewrite <- app_assoc. simpl.
      repeat split; auto.
      intros c' Hin. apply in_app_or in Hin as [Hin|[<-|[]]]; auto.
Qed.

Lemma scanned_scan candidates : forall seen best,
  scanned cost seen best -> scanned cost (seen ++ candidates) (scan cost candidates best).
Proof.
  induction candidates as [|c cs IH]; intros seen best H; simpl.
  - rewrite app_nil_r. exact H.
  - replace (seen ++ c :: cs) with ((seen ++ [c]) ++ cs)
      by (rewrite <- app_assoc; reflexivity).
    apply IH, scanned_step, H.
Qed.

Lemma scan_spec candidates : scanned cost candidates (scan cost candidates (0, infinity)).
Proof.
  apply (scanned_scan candidates [] (0, infinity)). left. split; [reflexivity|easy].
Qed.

End ScanFacts.

Example grid_shape :
  List.length grid = 301%nat /\ firstn 3 grid = [1000; 1010; 1020]
  /\ last grid nan = 4000.
Proof. vm_compute. repeat split; reflexivity. Qed.

Lemma visits_grid : visits 1000 grid = true.
Proof. vm_compute. reflexivity. Qed.

Lemma grid_increasing : increasing grid = true.
Proof. vm_compute. reflexivity. Qed.

Lemma grid_multiples : forallb isMultipleOf10 (0 :: grid) = true.
Proof. vm_compute. reflexivity. Qed.

Lemma increasing_split pre : forall c post,
  increasing (pre ++ c :: post) = true -> forall c', In c' post -> (c <? c') = true.
Proof.
  induction pre as [|x pre IH]; simpl; intros c post H c' Hin.
  - apply andb_prop in H as [H _]. rewrite forallb_forall in H. auto.
  - apply andb_prop in H as [_ H]. eauto.
Qed.

(** With enough fuel the loop ends by its own test, and it is the fold of
    the loop body over the values its counter takes. *)
Lemma loop_scan demands rates st candidates :
  forall fuel capacity optimalCapacity minCost,
  visits capacity candidates = true ->
  (List.length candidates < fuel)%nat ->
  findOptimalCapacity_loop demands rates fuel st capacity optimalCapacity minCost =
  Some (fst (scan (calculateTotalCharge demands rates st) candidates
               (optimalCapacity, minCost))).
Proof.
  induction candidates as [|c cs IH]; intros fuel capacity opt minCost Hv Hf;
    (destruct fuel as [|fuel]; [simpl in Hf; lia|]); simpl in *.
  - destruct (capacity <=? 4000); [discriminate|reflexivity].
  - apply andb_prop in Hv as [Hv Hrest]. apply andb_prop in Hv as [Hle Heq].
    apply FloatAxioms.Leibniz.eqb_spec in Heq. subst c. rewrite Hle.
    unfold scan_step. simpl snd.
    destruct (_ <? minCost); apply IH; auto; lia.
Qed.

Lemma findOptimalCapacity_scan demands rates st :
  findOptimalCapacity demands rates st =
  Some (fst (scan (calculateTotalCharge demands rates st) grid (0, infinity))).
Proof.
  unfold findOptimalCapacity. apply loop_scan; [exact visits_grid|].
  vm_compute. lia.
Qed.

Lemma calculateTotalCharge_battery demands rates st1 st2 capacity :
  batteryCapacity st1 = batteryCapacity st2 ->
  calculateTotalCharge demands rates st1 capacity =
  calculateTotalCharge demands rates st2 capacity.
Proof.
  intros H. unfold calculateTotalCharge, effectiveDemands. rewrite H. reflexivity.
Qed.

Lemma findOptimalCapacity_battery demands rates st1 st2 :
  batteryCapacity st1 = batteryCapacity st2 ->
  findOptimalCapacity demands rates st1 = findOptimalCapacity demands rates st2.
Proof.
  intros H. unfold findOptimalCapacity. generalize 302%nat 1000 0 infinity.
  induction n as [|fuel IH]; intros capacity opt minCost; simpl; [reflexivity|].
  rewrite (calculateTotalCharge_battery demands rates st1 st2 capacity H), !IH.
  reflexivity.
Qed.

(** The optimizer returns 0 when no candidate costs less than Infinity, and
    the first of the cheapest candidates otherwise. *)
Lemma findOptimalCapacity_cases demands rates st :
  let cost := calculateTotalCharge demands rates st in
  (findOptimalCapacity demands rates st = Some 0
   /\ forall c, In c grid -> (cost c <? infinity) = false)
  \/ exists c, findOptimalCapacity demands rates st = Some c
       /\ In c grid
       /\ (cost c <? infinity) = true
       /\ (forall c', In c' grid -> (cost c' <? cost c) = false)
       /\ (forall c', In c' grid -> (c' <? c) = true -> (cost c' <=? cost c) = false).
Proof.
  intros cost. rewrite findOptimalCapacity_scan. fold cost.
  destruct (scan_spec cost grid)
    as [[Hb Hnone]|(pre & post & Hg & Hmin & Hfin & Hpre & Hpost)].
  - left. rewrite Hb. auto.
  - right. set (c := fst (scan cost grid (0, infinity))) in *.
    exists c. split; [reflexivity|]. split; [rewrite Hg; apply in_elt|].
    split; [exact Hfin|]. split.
    + intros c' Hin. rewrite Hg in Hin.
      apply in_app_or in Hin as [Hin|[<-|Hin]]; auto.
      * specialize (Hpre c' Hin). destruct (cost c' <? cost c) eqn:E; [|reflexivity].
        rewrite (ltb_leb _ _ E) in Hpre. discriminate.
      * apply ltb_irrefl.
    + intros c' Hin Hlt. rewrite Hg in Hin.
      apply in_app_or in Hin as [Hin|[<-|Hin]]; auto.
      * rewrite ltb_irrefl in Hlt. discriminate.
      * pose proof grid_increasing as Hinc. rewrite Hg in Hinc.
        pose proof (increasing_split pre c post Hinc c' Hin) as Hgt.
        pose proof (ltb_trans _ _ _ Hlt Hgt) as Habs.
        rewrite ltb_irrefl in Habs. discriminate.
Qed.

(** C1 against the code.  The loop starts from the placeholder
    [optimalCapacity = 0] with [minCost = Infinity] and adopts a candidate
    only when its total is strictly lower.  With the page's data and a
    battery capacity of -1e308 typed into the input, the total charge of
    every capacity of the grid 1000, 1010, ..., 4000 overflows to Infinity,
    [Infinity < Infinity] is false, no candidate is adopted, and the
    optimizer returns the placeholder 0: not on the grid and outside
    [1000, 4000], and the button stores it as the contracted capacity and
    names it in the explanation.
    Everywhere else the claim holds, for every demand series, tariff and
    state: the loop terminates with a capacity; when some capacity of the
    grid has a total charge below Infinity, the result is the smallest grid
    capacity whose total charge is minimal (it is on the grid, no grid
    capacity is strictly cheaper, and every lower grid capacity is not as
    cheap, so among equal totals the lowest capacity is kept); only when
    none has is the result 0.  The result depends on the state through the
    battery capacity only, so two calls on the same inputs return the same
    capacity. *)
Theorem findOptimalCapacity_placeholder_leaks :
  let st := onChangeBatteryCapacity (-1e308) initialState in
  Forall (fun c => calculateTotalCharge maxDemands tariff st c = infinity) grid
  /\ findOptimalCapacity maxDemands tariff st = Some 0
  /\ onGrid 0 = false
  /\ inCapacityBounds 0 = false
  /\ option_map contractedCapacity (handleSetOptimalCapacity maxDemands tariff st)
     = Some 0
  /\ option_map explanation (handleSetOptimalCapacity maxDemands tariff st)
     = Some (Some 0)
  /\ (forall demands rates st,
        let cost := calculateTotalCharge demands rates st in
        ((findOptimalCapacity demands rates st = Some 0
          /\ forall c, In c grid -> (cost c <? infinity) = false)
         \/ exists c, findOptimalCapacity demands rates st = Some c
              /\ In c grid
              /\ (cost c <? infinity) = true
              /\ (forall c', In c' grid -> (cost c' <? cost c) = false)
              /\ (forall c', In c' grid -> (c' <? c) = true ->
                    (cost c' <=? cost c) = false))
        /\ forall st', batteryCapacity st' = batteryCapacity st ->
             findOptimalCapacity demands rates st'
             = findOptimalCapacity demands rates st).
Proof.
  intros st.
  assert (H : forallb (fun c => Leibniz.eqb (calculateTotalCharge maxDemands tariff st c)
                                            infinity) grid = true)
    by (vm_compute; reflexivity).
  split; [|split; [|split; [|split; [|split; [|split]]]]].
  - rewrite forallb_forall in H. apply Forall_forall. intros c Hc.
    apply FloatAxioms.Leibniz.eqb_spec, H, Hc.
  - vm_compute. reflexivity.
  - vm_compute. reflexivity.
  - vm_compute. reflexivity.
  - vm_compute. reflexivity.
  - vm_compute. reflexivity.
  - intros demands rates st0 cost. split.
    + apply findOptimalCapacity_cases.
    + intros st' Hb. apply findOptimalCapacity_battery, Hb.
Qed.

(** On the page's data and initial state the optimum is 2680 kW. *)
Example findOptimalCapacity_initial :
  findOptimalCapacity maxDemands tariff initialState = Some 2680.
Proof. vm_compute. reflexivity. Qed.

Lemma optimizer_multiple_of_10 demands rates st c :
  findOptimalCapacity demands rates st = Some c -> isMultipleOf10 c = true.
Proof.
  intros H. pose proof grid_multiples as Hg. rewrite forallb_forall in Hg. apply Hg.
  destruct (findOptimalCapacity_cases demands rates st) as [[H0 _]|(c' & Hc & Hin & _)].
  - left. congruence.
  - right. congruence.
Qed.

(** C10.  The optimizer does not read the contracted capacity: two states
    with the same battery capacity get the same optimum, whatever their
    contracted capacities (and drag flags) are. *)
Theorem optimizer_ignores_contracted_capacity demands rates st1 st2 :
  batteryCapacity st1 = batteryCapacity st2 ->
  findOptimalCapacity demands rates st1 = findOptimalCapacity demands rates st2.
Proof. apply findOptimalCapacity_battery. Qed.

(** The initial state and a dragging state with 1500 kW typed in get the
    same optimum. *)
Lemma optimizer_ignores_contracted_capacity_witness :
  findOptimalCapacity maxDemands tariff initialState =
  findOptimalCapacity maxDemands tariff (onChangeContractedCapacity 1500 dragging).
Proof.
  apply (optimizer_ignores_contracted_capacity maxDemands tariff initialState
           (onChangeContractedCapacity 1500 dragging)).
  reflexivity.
Defined.

(** * The cost model on the page's data *)

(** C2, with the August figure the code computes.  On the page's demand
    series, a battery of 400 kW and the rates 16.37 and 24.56: the
    effective demands are the listed ones; at 3100 kW July (1067) has no
    exceedance and costs 3100 * 16.37 = 50747; August (3494) exceeds by 394
    and costs 50747 + 394 * 24.56 = 60423.64. *)
Theorem reference_scenario_charges :
  effectiveDemands maxDemands initialState
    = [2714; 2336; 1067; 3494; 2685; 2677; 2713; 2698]
  /\ Math.max [0; 1067 - 3100] = 0
  /\ calculateMonthlyCharge tariff 1067 3100 = 3100 * 16.37
  /\ 3100 * 16.37 = 50747
  /\ Math.max [0; 3494 - 3100] = 394
  /\ calculateMonthlyCharge tariff 3494 3100 = 50747 + 394 * 24.56
  /\ 50747 + 394 * 24.56 = 60423.64
  /\ nth 2 (monthlyCharges maxDemands tariff initialState) nan = 50747
  /\ nth 3 (monthlyCharges maxDemands tariff initialState) nan = 60423.64.
Proof. repeat split; reflexivity. Qed.

(** C2 as stated fails in its last figure: the August charge is a whole
    dollar away from 60424.64. *)
Lemma august_charge_is_not_60424_64 :
  let august := calculateMonthlyCharge tariff 3494 3100 in
  (abs (august - 60424.64) <? 0.005) = false
  /\ (0.99 <? abs (august - 60424.64)) = true.
Proof. vm_compute. split; reflexivity. Qed.

(** * Savings *)

Lemma savingsDrift_grid :
  forallb (fun b => forallb (fun c => savingsDrift (mkState b c) <=? 1e-9) grid)
          batteryGrid = true.
Proof. vm_compute. reflexivity. Qed.

Lemma existsb_eqb_In v l : existsb (Leibniz.eqb v) l = true -> In v l.
Proof.
  rewrite existsb_exists. intros (x & Hin & Heq).
  apply FloatAxioms.Leibniz.eqb_spec in Heq. subst x. exact Hin.
Qed.

(** C3, as the code has it.  The net savings are the baseline total minus
    the current total, two rounded sums; on the page's data, for every
    state whose battery capacity is one of 0, 10, ..., 1000 and whose
    contracted capacity is one of 1000, 1010, ..., 4000, they agree with
    the sum of the monthly savings to within 1e-9. *)
Theorem savings_decomposition_up_to_rounding st :
  onBatteryGrid (batteryCapacity st) = true ->
  onGrid (contractedCapacity st) = true ->
  savings maxDemands tariff st
    = totalOriginalCharge maxDemands tariff - totalCharge maxDemands tariff st
  /\ (abs (savings maxDemands tariff st - sum (monthlySavings maxDemands tariff st))
        <=? 1e-9) = true.
Proof.
  intros Hb Hc. split; [reflexivity|].
  apply existsb_eqb_In in Hb, Hc. pose proof savingsDrift_grid as H.
  rewrite forallb_forall in H. specialize (H _ Hb).
  rewrite forallb_forall in H. specialize (H _ Hc).
  destruct st; exact H.
Qed.

(** The initial state (400 kW, 3100 kW) is one of these states. *)
Lemma savings_decomposition_initial_state :
  savings maxDemands tariff initialState
    = totalOriginalCharge maxDemands tariff - totalCharge maxDemands tariff initialState
  /\ (abs (savings maxDemands tariff initialState
           - sum (monthlySavings maxDemands tariff initialState)) <=? 1e-9) = true.
Proof.
  apply (savings_decomposition_up_to_rounding initialState); vm_compute; reflexivity.
Defined.

(** C3 as stated fails: with no battery and 1000 kW contracted the net
    savings and the sum of the monthly savings are different numbers. *)
Lemma savings_decomposition_not_exact :
  let st := mkState 0 1000 in
  (savings maxDemands tariff st =? sum (monthlySavings maxDemands tariff st)) = false
  /\ (0 <? savingsDrift st) = true.
Proof. vm_compute. split; reflexivity. Qed.

(** * Baseline *)

Lemma sub_neg_3100 d m e :
  Prim2SF d = S754_finite true m e -> SFsigned true (Prim2SF (d - 3100)).
Proof.
  intros Hd. rewrite FloatAxioms.sub_spec, Hd.
  destruct (Prim2SF 3100) as [s|s| |s m' e'] eqn:E; vm_compute in E; try discriminate.
  injection E as <- _ _.
  unfold SF64sub, SFsub, binary_normalize.
  destruct (shl_align m e _) as [a ?], (shl_align m' e' _) as [b ?]. simpl.
  apply binary_round_signed.
Qed.

(** The exceedance over 3100 kW is the same for a raw demand and for its
    effective demand under a battery of 0 kW, whatever the demand. *)
Lemma exceedance_no_battery d :
  Math.max [0; Math.max [0; d - 0] - 3100] = Math.max [0; d - 3100].
Proof.
  destruct (Prim2SF d) as [s|s| |s m e] eqn:Hd.
  - apply float_of_SF in Hd. subst d. destruct s; reflexivity.
  - apply float_of_SF in Hd. subst d. destruct s; reflexivity.
  - apply float_of_SF in Hd. subst d. reflexivity.
  - assert (H0 : d - 0 = d).
    { apply Prim2SF_inj. rewrite FloatAxioms.sub_spec, Hd. reflexivity. }
    rewrite H0, (max_0 d), is_nan_spec, FloatAxioms.ltb_spec, Hd.
    destruct s; simpl; [|reflexivity].
    pose proof (sub_neg_3100 d m e Hd) as Hs.
    rewrite (max_0 (d - 3100)), is_nan_spec, FloatAxioms.ltb_spec.
    change (Prim2SF 0) with (S754_zero false).
    rewrite (SFsigned_true_not_pos _ Hs).
    destruct (Prim2SF (d - 3100)); try reflexivity. destruct Hs.
Qed.

Lemma monthly_charge_no_battery rates d :
  calculateMonthlyCharge rates (Math.max [0; d - 0]) 3100
  = calculateMonthlyCharge rates d 3100.
Proof. unfold calculateMonthlyCharge. rewrite exceedance_no_battery. reflexivity. Qed.

(** C4.  For every demand series and tariff, the current-scenario total
    with a battery of 0 kW and 3100 kW contracted, through [totalCharge] as
    through [calculateTotalCharge], is the baseline total, bit for bit. *)
Theorem baseline_symmetry demands rates st :
  totalCharge demands rates (baselineState st) = totalOriginalCharge demands rates
  /\ calculateTotalCharge demands rates (baselineState st) 3100
     = totalOriginalCharge demands rates.
Proof.
  assert (H : map (fun effDemand => calculateMonthlyCharge rates effDemand 3100)
                (effectiveDemands demands (baselineState st))
              = originalCharges demands rates).
  { unfold effectiveDemands, originalCharges. simpl. rewrite map_map.
    apply map_ext. intros d. apply monthly_charge_no_battery. }
  unfold totalCharge, monthlyCharges, calculateTotalCharge, totalOriginalCharge.
  simpl contractedCapacity. rewrite H. split; reflexivity.
Qed.

(** * Rationale *)

(** The three texts differ, so the text shown tells which branch fired. *)
Lemma branch_text_inj b1 b2 : branch_text b1 = branch_text b2 -> b1 = b2.
Proof.
  destruct b1, b2; try reflexivity; intros H; apply String.eqb_eq in H;
    vm_compute in H; discriminate.
Qed.

(** C5.  For every demand series, tariff and state the rendered rationale
    is the text of the branch the three-way rule selects: the battery text
    when the net savings are at least 0, otherwise the over-contracting
    text when the contracted capacity exceeds the greatest effective
    demand, otherwise the under-contracting text; and it is the text of no
    other branch. *)
Theorem rationale_three_way demands rates st :
  let fired := rationale_rule (savings demands rates st) (contractedCapacity st)
                 (maxEffectiveDemand demands st) in
  rationale demands rates st = branch_text fired
  /\ forall b, rationale demands rates st = branch_text b -> b = fired.
Proof.
  intros fired.
  assert (H : rationale demands rates st = branch_text fired).
  { subst fired. unfold rationale, negativeReason, rationale_rule, isPositiveSavings.
    destruct (0 <=? savings demands rates st); [reflexivity|].
    destruct (maxEffectiveDemand demands st <? contractedCapacity st); [reflexivity|].
    destruct (contractedCapacity st <? minEffectiveDemand demands st); reflexivity. }
  split; [exact H|]. intros b Hb. apply branch_text_inj. congruence.
Qed.

(** One state per branch, on the page's data. *)
Example rationale_branches :
  rationale maxDemands tariff initialState = batteryHelps
  /\ rationale maxDemands tariff (mkState 400 4000) = tooHigh
  /\ rationale maxDemands tariff (mkState 400 1000) = tooLow
  /\ rationale maxDemands tariff (mkState 0 2000) = tooLow.
Proof. vm_compute. repeat split; reflexivity. Qed.

(** * Dragging *)

Lemma drag_outside_ignored e st :
  (clientY e - chartTop e <? 0) = true
  \/ (chartHeight e <? clientY e - chartTop e) = true ->
  handleMouseMove e st = st.
Proof.
  intros H. unfold handleMouseMove. destruct (isDragging st); [|reflexivity].
  destruct H as [H|H]; rewrite (ltb_not_leb _ _ H); [|rewrite andb_false_r];
    reflexivity.
Qed.

(** The value stored by a pointer-move that passes the guard, in terms of
    the ratio [yPixel / chartHeight]. *)
Lemma drag_stored e st :
  isDragging st = true ->
  (0 <=? clientY e - chartTop e) = true ->
  (clientY e - chartTop e <=? chartHeight e) = true ->
  contractedCapacity (handleMouseMove e st)
  = clampedTenfold
      (Math.round ((1 - (clientY e - chartTop e) / chartHeight e) * 4000 / 10)).
Proof.
  intros Hd Hy0 HyH. unfold handleMouseMove. rewrite Hd, Hy0, HyH. reflexivity.
Qed.

Lemma grid_values_ok :
  forallb (fun v => isMultipleOf10 v && inCapacityBounds v) grid = true.
Proof. vm_compute. reflexivity. Qed.

Lemma onGrid_sound v :
  onGrid v = true -> isMultipleOf10 v = true /\ inCapacityBounds v = true.
Proof.
  intros H. apply existsb_eqb_In in H. pose proof grid_values_ok as Hg.
  rewrite forallb_forall in Hg. apply andb_prop, Hg, H.
Qed.

(** Unless the ratio [yPixel / chartHeight] is [NaN], a pointer-move that
    passes the guard stores a grid value ... *)
Lemma drag_inside_on_grid e st :
  isDragging st = true ->
  (0 <=? clientY e - chartTop e) = true ->
  (clientY e - chartTop e <=? chartHeight e) = true ->
  is_nan ((clientY e - chartTop e) / chartHeight e) = false ->
  onGrid (contractedCapacity (handleMouseMove e st)) = true.
Proof.
  intros Hd Hy0 HyH Hr. rewrite drag_stored by assumption.
  apply rounded_tenfold_on_grid.
  apply div_notnan; [|exact I]. apply mul_notnan; [|exact I].
  apply sub_notnan; [exact I|exact Hr].
Qed.

(** ... and when the ratio is [NaN] it stores [NaN]. *)
Lemma drag_nan_ratio_stores_nan e st :
  isDragging st = true ->
  (0 <=? clientY e - chartTop e) = true ->
  (clientY e - chartTop e <=? chartHeight e) = true ->
  is_nan ((clientY e - chartTop e) / chartHeight e) = true ->
  contractedCapacity (handleMouseMove e st) = nan.
Proof.
  intros Hd Hy0 HyH Hr. rewrite drag_stored by assumption.
  rewrite is_nan_spec in Hr.
  destruct (Prim2SF (_ / _)) eqn:E; try discriminate.
  apply float_of_SF in E. rewrite E. reflexivity.
Qed.

(** Over a plot of finite height [H > 0] the ratio is a number. *)
Lemma drag_ratio_notnan e :
  (0 <? chartHeight e) = true -> (chartHeight e <? infinity) = true ->
  (0 <=? clientY e - chartTop e) = true ->
  is_nan ((clientY e - chartTop e) / chartHeight e) = false.
Proof.
  intros H0 Hi Hy. apply div_notnan; [|apply finite_of_bounds; assumption].
  eapply leb_notnan_r, Hy.
Qed.

(** Every capacity a drag over a plot of finite height [H > 0] stores is a
    multiple of 10 within [1000, 4000]. *)
Lemma drag_quantized e st :
  isDragging st = true ->
  (0 <? chartHeight e) = true -> (chartHeight e <? infinity) = true ->
  (0 <=? clientY e - chartTop e) = true ->
  (clientY e - chartTop e <=? chartHeight e) = true ->
  isMultipleOf10 (contractedCapacity (handleMouseMove e st)) = true
  /\ inCapacityBounds (contractedCapacity (handleMouseMove e st)) = true.
Proof.
  intros Hd H0 Hi Hy0 HyH. apply onGrid_sound, drag_inside_on_grid; try assumption.
  apply drag_ratio_notnan; assumption.
Qed.

Lemma drag_inside_in_bounds e st :
  isDragging st = true ->
  (0 <? chartHeight e) = true -> (chartHeight e <? infinity) = true ->
  (0 <=? clientY e - chartTop e) = true ->
  (clientY e - chartTop e <=? chartHeight e) = true ->
  inCapacityBounds (contractedCapacity (handleMouseMove e st)) = true.
Proof. intros. apply drag_quantized; assumption. Qed.

(** C6, as the code has it.  During a drag over a plot area of finite
    height H > 0, a pointer-move with y < 0 or y > H is ignored and the
    state, contracted capacity included, stays as it was; a pointer-move
    with 0 <= y <= H stores a contracted capacity within [1000, 4000]. *)
Theorem drag_clamp e st :
  isDragging st = true ->
  (0 <? chartHeight e) = true -> (chartHeight e <? infinity) = true ->
  let y := clientY e - chartTop e in
  ((y <? 0) = true \/ (chartHeight e <? y) = true -> handleMouseMove e st = st)
  /\ ((0 <=? y) = true /\ (y <=? chartHeight e) = true ->
      inCapacityBounds (contractedCapacity (handleMouseMove e st)) = true).
Proof.
  intros Hd H0 Hi y. split.
  - apply drag_outside_ignored.
  - intros [Hy0 HyH]. apply drag_inside_in_bounds; assumption.
Qed.

(** Over a plot 432 pixels high: 5 pixels above it, 8 pixels below it and
    100 pixels into it. *)
Lemma drag_clamp_witness :
  handleMouseMove moveAbove dragging = dragging
  /\ handleMouseMove moveBelow dragging = dragging
  /\ inCapacityBounds (contractedCapacity (handleMouseMove moveInside dragging)) = true.
Proof.
  split; [|split].
  - apply (drag_clamp moveAbove dragging); try reflexivity. left. reflexivity.
  - apply (drag_clamp moveBelow dragging); try reflexivity. right. reflexivity.
  - apply (drag_clamp moveInside dragging); try reflexivity. split; reflexivity.
Defined.

(** C6 as stated fails: 5 pixels above a plot 432 pixels high the drag
    leaves the capacity at 3100 and not at 4000, and 8 pixels below it
    leaves it at 3100 and not at 1000. *)
Lemma drag_outside_plot_keeps_capacity :
  (clientY moveAbove - chartTop moveAbove <? 0) = true
  /\ contractedCapacity (handleMouseMove moveAbove dragging) = 3100
  /\ (contractedCapacity (handleMouseMove moveAbove dragging) =? 4000) = false
  /\ (chartHeight moveBelow <? clientY moveBelow - chartTop moveBelow) = true
  /\ contractedCapacity (handleMouseMove moveBelow dragging) = 3100
  /\ (contractedCapacity (handleMouseMove moveBelow dragging) =? 1000) = false.
Proof. vm_compute. repeat split; reflexivity. Qed.

(** On the top edge of a plot of finite height [H > 0] the drag stores
    the upper bound. *)
Lemma drag_top_edge e st :
  isDragging st = true ->
  (0 <? chartHeight e) = true -> (chartHeight e <? infinity) = true ->
  clientY e - chartTop e = 0 ->
  contractedCapacity (handleMouseMove e st) = 4000.
Proof.
  intros Hd H0 Hi Hy.
  rewrite (drag_stored e st Hd);
    [|rewrite Hy; reflexivity|rewrite Hy; apply ltb_leb, H0].
  rewrite Hy.
  assert (Hq : 0 / chartHeight e = 0).
  { apply Prim2SF_inj. rewrite FloatAxioms.div_spec.
    pose proof (finite_of_bounds _ H0 Hi) as Hf. unfold finite in Hf.
    rewrite FloatAxioms.ltb_spec in H0.
    destruct (Prim2SF (chartHeight e)) as [| | |[] m ex]; try contradiction;
      try discriminate. reflexivity. }
  rewrite Hq. reflexivity.
Qed.

(** On its bottom edge it stores the lower bound. *)
Lemma drag_bottom_edge e st :
  isDragging st = true ->
  (0 <? chartHeight e) = true -> (chartHeight e <? infinity) = true ->
  clientY e - chartTop e = chartHeight e ->
  contractedCapacity (handleMouseMove e st) = 1000.
Proof.
  intros Hd H0 Hi Hy. pose proof (finite_of_bounds _ H0 Hi) as Hf.
  assert (Hle : (chartHeight e <=? chartHeight e) = true).
  { rewrite FloatAxioms.leb_spec. unfold finite in Hf.
    destruct (Prim2SF (chartHeight e)) as [| | |s m ex]; try contradiction.
    unfold SFleb, SFcompare.
    destruct s; rewrite Z.compare_refl, Pos.compare_cont_refl; reflexivity. }
  rewrite (drag_stored e st Hd);
    [|rewrite Hy; apply ltb_leb, H0|rewrite Hy; exact Hle].
  rewrite Hy, (div_self _ Hf). reflexivity.
Qed.

(** Inside the plot the drag maps the pointer to the grid. *)
Example drag_inside :
  contractedCapacity (handleMouseMove moveInside dragging) = 3070.
Proof. reflexivity. Qed.

(** With a plot of height 0 every pointer position other than the top
    edge is ignored. *)
Lemma zero_height_off_edge_ignored e st :
  chartHeight e = 0 ->
  (clientY e - chartTop e <? 0) = true \/ (0 <? clientY e - chartTop e) = true ->
  handleMouseMove e st = st.
Proof. intros H Hy. apply drag_outside_ignored. rewrite H. exact Hy. Qed.

Lemma zero_height_stores_nan e st :
  isDragging st = true ->
  chartHeight e = 0 -> clientY e - chartTop e = 0 ->
  contractedCapacity (handleMouseMove e st) = nan.
Proof.
  intros Hd HH Hy. unfold handleMouseMove. rewrite Hd, HH, Hy. reflexivity.
Qed.

(** C7 against the code.  With a plot of height 0 and the pointer on its
    top edge, the guard [0 <= y <= H] passes, [y / H] is [0 / 0], and the
    drag that started at 3100 kW stores [NaN]; so does every drag with
    [H = 0] and [y = 0].  Only the other pointer positions leave the state
    as it was. *)
Theorem zero_height_drag_stores_nan :
  contractedCapacity dragging = 3100
  /\ contractedCapacity (handleMouseMove zeroHeightMove dragging) = nan
  /\ is_nan (contractedCapacity (handleMouseMove zeroHeightMove dragging)) = true
  /\ (forall e st, isDragging st = true ->
        chartHeight e = 0 -> clientY e - chartTop e = 0 ->
        contractedCapacity (handleMouseMove e st) = nan)
  /\ (forall e st, chartHeight e = 0 ->
        (clientY e - chartTop e <? 0) = true \/ (0 <? clientY e - chartTop e) = true ->
        handleMouseMove e st = st).
Proof.
  repeat split; try reflexivity.
  - apply zero_height_stores_nan.
  - apply zero_height_off_edge_ignored.
Qed.

(** C8 against the code.  The value the drag stores for a plot of height 0
    is not a multiple of 10 (it is not a number).  Every other value is:
    a pointer-move that passes the guard with a ratio [y / H] that is a
    number stores a multiple of 10, and so does the optimizer. *)
Theorem zero_height_drag_not_multiple_of_10 :
  isMultipleOf10 (contractedCapacity (handleMouseMove zeroHeightMove dragging)) = false
  /\ (forall e st, isDragging st = true ->
        (0 <=? clientY e - chartTop e) = true ->
        (clientY e - chartTop e <=? chartHeight e) = true ->
        is_nan ((clientY e - chartTop e) / chartHeight e) = false ->
        isMultipleOf10 (contractedCapacity (handleMouseMove e st)) = true)
  /\ (forall demands rates st c,
        findOptimalCapacity demands rates st = Some c -> isMultipleOf10 c = true).
Proof.
  split; [reflexivity|]. split.
  - intros e st Hd Hy0 HyH Hr. apply onGrid_sound, drag_inside_on_grid; assumption.
  - apply optimizer_multiple_of_10.
Qed.

(** * Manual edits *)

Lemma manual_edit_stores_value value st :
  contractedCapacity (onChangeContractedCapacity value st) = value
  /\ batteryCapacity (onChangeBatteryCapacity value st) = value.
Proof. split; reflexivity. Qed.

(** C9 against the code.  The manual edits store the typed number as it
    is: 5000 in the contracted-capacity input is stored though it is above
    the bound 4000, 1234.5 is stored though it is not a multiple of 10, and
    2500 in the battery input is stored though it is above the bound 1000;
    the drag of [drag_quantized] would have clamped and rounded. *)
Theorem manual_edit_not_clamped :
  (forall value st,
     contractedCapacity (onChangeContractedCapacity value st) = value
     /\ batteryCapacity (onChangeBatteryCapacity value st) = value)
  /\ contractedCapacity (onChangeContractedCapacity 5000 initialState) = 5000
  /\ inCapacityBounds 5000 = false
  /\ contractedCapacity (onChangeContractedCapacity 1234.5 initialState) = 1234.5
  /\ isMultipleOf10 1234.5 = false
  /\ batteryCapacity (onChangeBatteryCapacity 2500 initialState) = 2500
  /\ inBatteryBounds 2500 = false.
Proof. split; [apply manual_edit_stores_value|]. vm_compute. repeat split; reflexivity. Qed.

(** * Further facts about binary64 arithmetic *)

(** ** The order is total and transitive away from [NaN] *)
Lemma SFleb_total x y : x <> S754_nan -> y <> S754_nan -> SFltb x y = false -> SFleb y x = true.
Proof. sf_order. Qed.

Lemma SFleb_trans x y z : SFleb x y = true -> SFleb y z = true -> SFleb x z = true.
Proof. sf_order. Qed.

Lemma SFltb_leb_trans x y z : SFltb x y = true -> SFleb y z = true -> SFltb x z = true.
Proof. sf_order. Qed.

Lemma SFleb_refl x : x <> S754_nan -> SFleb x x = true.
Proof.
  unfold SFleb, SFcompare. destruct x as [[]|[]| |[] m e]; try congruence; intros _;
    rewrite ?Z.compare_refl, ?Pos.compare_cont_refl; reflexivity.
Qed.

Lemma ltb_false_leb x y : is_nan x = false -> is_nan y = false -> (x <? y) = false -> (y <=? x) = true.
Proof. rewrite !is_nan_false, FloatAxioms.ltb_spec, FloatAxioms.leb_spec. apply SFleb_total. Qed.

Lemma leb_trans x y z : (x <=? y) = true -> (y <=? z) = true -> (x <=? z) = true.
Proof. rewrite !FloatAxioms.leb_spec. apply SFleb_trans. Qed.

Lemma ltb_leb_trans x y z : (x <? y) = true -> (y <=? z) = true -> (x <? z) = true.
Proof. rewrite !FloatAxioms.ltb_spec, FloatAxioms.leb_spec. apply SFltb_leb_trans. Qed.

Lemma leb_refl x : is_nan x = false -> (x <=? x) = true.
Proof. rewrite is_nan_false, FloatAxioms.leb_spec. apply SFleb_refl. Qed.

Lemma ltb_notnan_l x y : (x <? y) = true -> is_nan x = false.
Proof.
  rewrite FloatAxioms.ltb_spec, is_nan_spec. unfold SFltb, SFcompare.
  destruct (Prim2SF x); try reflexivity. discriminate.
Qed.

Lemma ltb_notnan_r x y : (x <? y) = true -> is_nan y = false.
Proof.
  rewrite FloatAxioms.ltb_spec, is_nan_spec. unfold SFltb, SFcompare.
  destruct (Prim2SF x), (Prim2SF y); try reflexivity; discriminate.
Qed.

Lemma leb_notnan_l x y : (x <=? y) = true -> is_nan x = false.
Proof.
  rewrite FloatAxioms.leb_spec, is_nan_spec. unfold SFleb, SFcompare.
  destruct (Prim2SF x); try reflexivity. discriminate.
Qed.

(** ** [Math.max] and [Math.min] over a list *)

Lemma max_loop_nan coerced : forall highest,
  noNaN coerced = false -> Math.max_loop highest coerced = nan.
Proof.
  induction coerced as [|n rest IH]; intros h H; simpl in *; [discriminate|].
  destruct (is_nan n); [reflexivity|]. simpl in H. apply IH, H.
Qed.

Lemma max_loop_spec coerced : forall highest,
  noNaN coerced = true -> is_nan highest = false ->
  let r := Math.max_loop highest coerced in
  is_nan r = false /\ (highest <=? r) = true
  /\ (forall x, In x coerced -> (x <=? r) = true)
  /\ (r = highest \/ In r coerced).
Proof.
  induction coerced as [|n rest IH]; intros h Hl Hh; simpl in *.
  - repeat split; auto using leb_refl; easy.
  - apply andb_prop in Hl as [Hn Hl]. apply negb_true_iff in Hn. rewrite Hn.
    set (h1 := if Leibniz.eqb n zero && Leibniz.eqb h neg_zero then zero else h).
    assert (H1 : is_nan h1 = false /\ (h <=? h1) = true /\ (h1 = h \/ h1 = n)).
    { subst h1. destruct (Leibniz.eqb n zero && Leibniz.eqb h neg_zero) eqn:E.
      - apply andb_prop in E as [En Eh].
        apply FloatAxioms.Leibniz.eqb_spec in En, Eh. subst. repeat split; auto.
      - repeat split; auto using leb_refl. }
    destruct H1 as (H1n & H1h & H1e).
    set (h2 := if h1 <? n then n else h1).
    assert (H2 : is_nan h2 = false /\ (h1 <=? h2) = true /\ (n <=? h2) = true
                 /\ (h2 = h1 \/ h2 = n)).
    { subst h2. destruct (h1 <? n) eqn:E.
      - repeat split; auto using leb_refl, ltb_leb.
      - repeat split; auto using leb_refl, ltb_false_leb. }
    destruct H2 as (H2n & H2h & H2x & H2e).
    destruct (IH h2 Hl H2n) as (Hr & Hge & Hall & Hin).
    repeat split.
    + exact Hr.
    + eauto using leb_trans.
    + intros x [<-|Hx]; eauto using leb_trans.
    + destruct Hin as [->|Hin]; [|auto].
      destruct H2e as [->| ->]; [|auto]. destruct H1e as [->| ->]; auto.
Qed.

Lemma min_loop_nan coerced : forall lowest,
  noNaN coerced = false -> Math.min_loop lowest coerced = nan.
Proof.
  induction coerced as [|n rest IH]; intros h H; simpl in *; [discriminate|].
  destruct (is_nan n); [reflexivity|]. simpl in H. apply IH, H.
Qed.

Lemma min_loop_spec coerced : forall lowest,
  noNaN coerced = true -> is_nan lowest = false ->
  let r := Math.min_loop lowest coerced in
  is_nan r = false /\ (r <=? lowest) = true
  /\ (forall x, In x coerced -> (r <=? x) = true)
  /\ (r = lowest \/ In r coerced).
Proof.
  induction coerced as [|n rest IH]; intros h Hl Hh; simpl in *.
  - repeat split; auto using leb_refl; easy.
  - apply andb_prop in Hl as [Hn Hl]. apply negb_true_iff in Hn. rewrite Hn.
    set (h1 := if Leibniz.eqb n neg_zero && Leibniz.eqb h zero then neg_zero else h).
    assert (H1 : is_nan h1 = false /\ (h1 <=? h) = true /\ (h1 = h \/ h1 = n)).
    { subst h1. destruct (Leibniz.eqb n neg_zero && Leibniz.eqb h zero) eqn:E.
      - apply andb_prop in E as [En Eh].
        apply FloatAxioms.Leibniz.eqb_spec in En, Eh. subst. repeat split; auto.
      - repeat split; auto using leb_refl. }
    destruct H1 as (H1n & H1h & H1e).
    set (h2 := if n <? h1 then n else h1).
    assert (H2 : is_nan h2 = false /\ (h2 <=? h1) = true /\ (h2 <=? n) = true
                 /\ (h2 = h1 \/ h2 = n)).
    { subst h2. destruct (n <? h1) eqn:E.
      - repeat split; auto using leb_refl, ltb_leb.
      - repeat split; auto using leb_refl, ltb_false_leb. }
    destruct H2 as (H2n & H2h & H2x & H2e).
    destruct (IH h2 Hl H2n) as (Hr & Hge & Hall & Hin).
    repeat split.
    + exact Hr.
    + eauto using leb_trans.
    + intros x [<-|Hx]; eauto using leb_trans.
    + destruct Hin as [->|Hin]; [|auto].
      destruct H2e as [->| ->]; [|auto]. destruct H1e as [->| ->]; auto.
Qed.

(** ** The value of a number in normal form *)

Lemma iter_xO_value d : forall m, Zpos (Pos.iter xO m d) = (Zpos m * 2 ^ Zpos d)%Z.
Proof.
  induction d using Pos.peano_ind; intros m.
  - simpl. lia.
  - rewrite Pos.iter_succ, Pos2Z.inj_succ, Z.pow_succ_r by lia.
    rewrite Pos2Z.inj_xO, IHd. lia.
Qed.

Lemma shl_align_value m e e' :
  (e' <= e)%Z -> Zpos (fst (shl_align m e e')) = (Zpos m * 2 ^ (e - e'))%Z.
Proof.
  intros H. unfold shl_align. destruct (e' - e)%Z as [|d|d] eqn:E; cbn [fst]; try lia.
  - replace (e - e')%Z with 0%Z by lia. lia.
  - rewrite iter_xO_value. f_equal. f_equal. lia.
Qed.

Lemma canonical_upper m e : canonical m e -> (Zpos m < 2 ^ 53)%Z.
Proof.
  unfold canonical. intros Hc.
  assert (Hd : (Zdigits2 (Zpos m) <= 53)%Z) by (cbn [Zdigits2]; lia).
  rewrite Zdigits2_log2 in Hd by lia. apply Z.log2_lt_pow2; lia.
Qed.

Lemma canonical_lower m e : canonical m e -> (-1074 < e)%Z -> (2 ^ 52 <= Zpos m)%Z.
Proof.
  unfold canonical. intros Hc He.
  assert (Hd : Zdigits2 (Zpos m) = 53%Z) by (cbn [Zdigits2]; lia).
  rewrite Zdigits2_log2 in Hd by lia.
  pose proof (Z.log2_spec (Zpos m) ltac:(lia)) as [Hl _].
  replace (Z.log2 (Zpos m)) with 52%Z in Hl by lia. exact Hl.
Qed.

Lemma canonical_emin m e : canonical m e -> (-1074 <= e)%Z.
Proof. unfold canonical. lia. Qed.

Lemma valid_finite_canonical x s m e : Prim2SF x = S754_finite s m e -> canonical m e.
Proof. apply valid_canonical. Qed.

(** A lower exponent means a smaller magnitude. *)
Lemma canonical_exp_lt m1 e1 m2 e2 :
  canonical m1 e1 -> canonical m2 e2 -> (e1 < e2)%Z ->
  (Zpos m1 < Zpos m2 * 2 ^ (e2 - e1))%Z.
Proof.
  intros H1 H2 He.
  pose proof (canonical_upper _ _ H1). pose proof (canonical_emin _ _ H1).
  pose proof (canonical_lower _ _ H2 ltac:(lia)).
  assert (2 ^ 1 <= 2 ^ (e2 - e1))%Z by (apply Z.pow_le_mono_r; lia).
  change (2 ^ 1)%Z with 2%Z in *. change (2 ^ 53)%Z with (2 * 2 ^ 52)%Z in *. nia.
Qed.

Lemma aligned_diff_le s1 m1 e1 s2 m2 e2 :
  canonical m1 e1 -> canonical m2 e2 ->
  SFleb (S754_finite s1 m1 e1) (S754_finite s2 m2 e2) = true ->
  (aligned_diff s1 m1 e1 s2 m2 e2 <= 0)%Z.
Proof.
  intros H1 H2. unfold aligned_diff. cbv zeta.
  rewrite !shl_align_value by lia.
  unfold SFleb, SFcompare. change (Pos.compare_cont Eq) with Pos.compare.
  destruct s1, s2; cbn [cond_Zopp]; try discriminate; try (intros _; nia).
  - destruct (Z.compare_spec e1 e2) as [->|He|He]; try discriminate.
    + rewrite Z.min_id, Z.sub_diag, !Z.mul_1_r.
      destruct (Pos.compare_spec m1 m2); try discriminate; subst; lia.
    + intros _. pose proof (canonical_exp_lt _ _ _ _ H2 H1 He).
      rewrite Z.min_r, Z.sub_diag, Z.mul_1_r by lia. lia.
  - destruct (Z.compare_spec e1 e2) as [->|He|He]; try discriminate.
    + rewrite Z.min_id, Z.sub_diag, !Z.mul_1_r.
      destruct (Pos.compare_spec m1 m2); try discriminate; subst; lia.
    + intros _. pose proof (canonical_exp_lt _ _ _ _ H1 H2 He).
      rewrite Z.min_l, Z.sub_diag, Z.mul_1_r by lia. lia.
Qed.

Lemma aligned_diff_gt s1 m1 e1 s2 m2 e2 :
  canonical m1 e1 -> canonical m2 e2 ->
  SFltb (S754_finite s2 m2 e2) (S754_finite s1 m1 e1) = true ->
  (0 < aligned_diff s1 m1 e1 s2 m2 e2)%Z.
Proof.
  intros H1 H2. unfold aligned_diff. cbv zeta.
  rewrite !shl_align_value by lia.
  unfold SFltb, SFcompare. change (Pos.compare_cont Eq) with Pos.compare.
  destruct s1, s2; cbn [cond_Zopp]; try discriminate; try (intros _; nia).
  - destruct (Z.compare_spec e2 e1) as [->|He|He]; try discriminate.
    + rewrite Z.min_id, Z.sub_diag, !Z.mul_1_r.
      destruct (Pos.compare_spec m2 m1); try discriminate; subst; lia.
    + intros _. pose proof (canonical_exp_lt _ _ _ _ H1 H2 He).
      rewrite Z.min_l, Z.sub_diag, Z.mul_1_r by lia. lia.
  - destruct (Z.compare_spec e2 e1) as [->|He|He]; try discriminate.
    + rewrite Z.min_id, Z.sub_diag, !Z.mul_1_r.
      destruct (Pos.compare_spec m2 m1); try discriminate; subst; lia.
    + intros _. pose proof (canonical_exp_lt _ _ _ _ H2 H1 He).
      rewrite Z.min_r, Z.sub_diag, Z.mul_1_r by lia. lia.
Qed.

(** From the least exponent upwards, rounding a positive mantissa never
    gives zero. *)
Lemma shr_fexp_pos m e l :
  (0 < m)%Z -> (-1074 <= e)%Z ->
  (0 < shr_m (fst (shr_fexp prec emax m e l)))%Z
  /\ (e <= snd (shr_fexp prec emax m e l))%Z.
Proof.
  intros Hm He. unfold shr_fexp, shr, fexp, SpecFloat.emin, prec, emax.
  pose proof (shr_record_of_loc_m m l) as Hr.
  destruct (Z.max (Zdigits2 m + e - 53) (3 - 1024 - 53) - e)%Z as [|p|p] eqn:En;
    cbn [fst snd]; rewrite ?Hr; try (split; lia).
  pose proof (iter_shr_1_digits p (shr_record_of_loc m l) ltac:(lia)) as Hd.
  pose proof (iter_shr_1_nonneg p (shr_record_of_loc m l) ltac:(lia)) as Hp.
  rewrite Hr in Hd.
  assert (Zdigits2 (shr_m (SpecFloat.iter_pos shr_1 p (shr_record_of_loc m l))) = 53%Z)
    by lia.
  split; [|lia].
  destruct (shr_m (SpecFloat.iter_pos shr_1 p (shr_record_of_loc m l))); simpl in *; lia.
Qed.

Lemma binary_round_aux_nonzero s m e l :
  (0 < m)%Z -> (-1074 <= e)%Z -> SFnonzero s (binary_round_aux prec emax s m e l).
Proof.
  intros Hm He. unfold binary_round_aux.
  destruct (shr_fexp_pos m e l Hm He) as (H1 & H2).
  destruct (shr_fexp prec emax m e l) as [mrs' e']. cbn [fst snd] in *.
  set (mr := round_nearest_even (shr_m mrs') (loc_of_shr_record mrs')).
  assert (Hr : (shr_m mrs' <= mr)%Z).
  { subst mr. unfold round_nearest_even.
    destruct (loc_of_shr_record mrs') as [|[]]; try lia. destruct (Z.even _); lia. }
  destruct (shr_fexp_pos mr e' loc_Exact ltac:(lia) ltac:(lia)) as (H4 & H5).
  destruct (shr_fexp prec emax mr e' loc_Exact) as [mrs'' e'']. cbn [fst snd] in *.
  destruct (shr_m mrs''); try lia.
  destruct (_ <=? _)%Z; reflexivity.
Qed.

Lemma binary_round_nonzero s m e :
  (-1074 <= e)%Z -> SFnonzero s (binary_round prec emax s m e).
Proof.
  intros He. unfold binary_round, shl_align.
  destruct (fexp prec emax (Zpos (digits2_pos m) + e) - e)%Z eqn:E;
    apply binary_round_aux_nonzero; try lia.
  unfold fexp, SpecFloat.emin, prec, emax in *. lia.
Qed.

Lemma SFnonzero_pos x : SFnonzero false x -> SFltb (S754_zero false) x = true.
Proof. destruct x as [[]|[]| |[] ? ?]; simpl; easy. Qed.

(** ** The sign of a difference is the comparison of its operands *)
Lemma SFsub_nonpos x y :
  valid_binary x = true -> valid_binary y = true ->
  SFleb x y = true -> SFltb (S754_zero false) (SF64sub x y) = false.
Proof.
  intros Hx Hy Hle.
  destruct x as [sx|sx| |sx mx ex], y as [sy|sy| |sy my ey];
    try (destruct sx); try (destruct sy); try discriminate; try reflexivity.
  all: unfold SF64sub, SFsub.
  all: unfold SpecFloat.valid_binary, bounded, canonical_mantissa, fexp in Hx, Hy;
    apply andb_prop in Hx as [Hx _]; apply andb_prop in Hy as [Hy _];
    apply Z.eqb_eq in Hx, Hy.
  all: match goal with
       | |- context [binary_normalize _ _ ?d _ _] =>
           pose proof (aligned_diff_le _ _ _ _ _ _ Hx Hy Hle) as Hd;
           unfold aligned_diff in Hd; cbv zeta in Hd;
           destruct d as [|p|p] eqn:Ed; try lia; cbn [binary_normalize];
           [reflexivity| apply SFsigned_true_not_pos, binary_round_signed]
       end.
Qed.

Lemma SFsub_pos x y :
  valid_binary x = true -> valid_binary y = true ->
  SFltb y x = true -> SFltb (S754_zero false) (SF64sub x y) = true.
Proof.
  intros Hx Hy Hlt.
  destruct x as [sx|sx| |sx mx ex], y as [sy|sy| |sy my ey];
    try (destruct sx); try (destruct sy); try discriminate; try reflexivity.
  all: unfold SF64sub, SFsub.
  all: unfold SpecFloat.valid_binary, bounded, canonical_mantissa, fexp in Hx, Hy;
    apply andb_prop in Hx as [Hx _]; apply andb_prop in Hy as [Hy _];
    apply Z.eqb_eq in Hx, Hy.
  all: pose proof (canonical_emin _ _ Hx); pose proof (canonical_emin _ _ Hy).
  all: match goal with
       | |- context [binary_normalize _ _ ?d _ _] =>
           pose proof (aligned_diff_gt _ _ _ _ _ _ Hx Hy Hlt) as Hd;
           unfold aligned_diff in Hd; cbv zeta in Hd;
           destruct d as [|p|p] eqn:Ed; try lia; cbn [binary_normalize];
           apply SFnonzero_pos, binary_round_nonzero; lia
       end.
Qed.

Lemma sub_nonpos x y : (x <=? y) = true -> (0 <? x - y) = false.
Proof.
  rewrite FloatAxioms.leb_spec, FloatAxioms.ltb_spec, FloatAxioms.sub_spec.
  apply SFsub_nonpos; apply Prim2SF_valid.
Qed.

Lemma sub_pos x y : (y <? x) = true -> (0 <? x - y) = true.
Proof.
  rewrite !FloatAxioms.ltb_spec, FloatAxioms.sub_spec.
  apply SFsub_pos; apply Prim2SF_valid.
Qed.

Lemma aligned_diff_opp s1 m1 e1 s2 m2 e2 :
  aligned_diff s1 m1 e1 s2 m2 e2 = (- aligned_diff s2 m2 e2 s1 m1 e1)%Z.
Proof. unfold aligned_diff. cbv zeta. rewrite (Z.min_comm e2 e1). lia. Qed.

Lemma SFnonzero_neg x : SFnonzero true x -> SFltb x (S754_zero false) = true.
Proof. destruct x as [[]|[]| |[] ? ?]; simpl; easy. Qed.

Lemma SFsigned_false_not_neg x : SFsigned false x -> SFltb x (S754_zero false) = false.
Proof. destruct x as [s|s| |s m e]; simpl; try easy; intros ->; reflexivity. Qed.

Lemma SFsub_nonneg x y :
  valid_binary x = true -> valid_binary y = true ->
  SFleb y x = true -> SFltb (SF64sub x y) (S754_zero false) = false.
Proof.
  intros Hx Hy Hle.
  destruct x as [sx|sx| |sx mx ex], y as [sy|sy| |sy my ey];
    try (destruct sx); try (destruct sy); try discriminate; try reflexivity.
  all: unfold SF64sub, SFsub.
  all: unfold SpecFloat.valid_binary, bounded, canonical_mantissa, fexp in Hx, Hy;
    apply andb_prop in Hx as [Hx _]; apply andb_prop in Hy as [Hy _];
    apply Z.eqb_eq in Hx, Hy.
  all: match goal with
       | |- context [binary_normalize _ _ ?d _ _] =>
           pose proof (aligned_diff_le _ _ _ _ _ _ Hy Hx Hle) as Hd;
           rewrite aligned_diff_opp in Hd;
           unfold aligned_diff in Hd; cbv zeta in Hd;
           destruct d as [|p|p] eqn:Ed; try lia; cbn [binary_normalize];
           [reflexivity| apply SFsigned_false_not_neg, binary_round_signed]
       end.
Qed.

Lemma SFsub_neg x y :
  valid_binary x = true -> valid_binary y = true ->
  SFltb x y = true -> SFltb (SF64sub x y) (S754_zero false) = true.
Proof.
  intros Hx Hy Hlt.
  destruct x as [sx|sx| |sx mx ex], y as [sy|sy| |sy my ey];
    try (destruct sx); try (destruct sy); try discriminate; try reflexivity.
  all: unfold SF64sub, SFsub.
  all: unfold SpecFloat.valid_binary, bounded, canonical_mantissa, fexp in Hx, Hy;
    apply andb_prop in Hx as [Hx _]; apply andb_prop in Hy as [Hy _];
    apply Z.eqb_eq in Hx, Hy.
  all: pose proof (canonical_emin _ _ Hx); pose proof (canonical_emin _ _ Hy).
  all: match goal with
       | |- context [binary_normalize _ _ ?d _ _] =>
           pose proof (aligned_diff_gt _ _ _ _ _ _ Hy Hx Hlt) as Hd;
           rewrite aligned_diff_opp in Hd;
           unfold aligned_diff in Hd; cbv zeta in Hd;
           destruct d as [|p|p] eqn:Ed; try lia; cbn [binary_normalize];
           apply SFnonzero_neg, binary_round_nonzero; lia
       end.
Qed.

Lemma sub_nonneg x y : (y <=? x) = true -> (x - y <? 0) = false.
Proof.
  rewrite FloatAxioms.leb_spec, FloatAxioms.ltb_spec, FloatAxioms.sub_spec.
  apply SFsub_nonneg; apply Prim2SF_valid.
Qed.

Lemma sub_neg x y : (x <? y) = true -> (x - y <? 0) = true.
Proof.
  rewrite !FloatAxioms.ltb_spec, FloatAxioms.sub_spec.
  apply SFsub_neg; apply Prim2SF_valid.
Qed.

Lemma sub_nan_operands x y :
  is_nan (x - y) = false -> is_nan x = false /\ is_nan y = false.
Proof.
  rewrite !is_nan_false, FloatAxioms.sub_spec. unfold SF64sub, SFsub.
  destruct (Prim2SF x), (Prim2SF y); split; congruence.
Qed.

(** The sign of a difference that is a number is the comparison of its
    operands. *)
Lemma sub_sign x y :
  is_nan (x - y) = false -> (0 <=? x - y) = (y <=? x).
Proof.
  intros Hn. destruct (sub_nan_operands x y Hn) as [Hx Hy].
  destruct (y <=? x) eqn:Hle.
  - apply ltb_false_leb; auto. apply sub_nonneg, Hle.
  - destruct (x <? y) eqn:Hlt.
    + apply ltb_not_leb, sub_neg, Hlt.
    + rewrite (ltb_false_leb x y Hx Hy Hlt) in Hle. discriminate.
Qed.

(** ** Sums and products of numbers that are never negative *)
Lemma neverNegative_spec x : neverNegative x = true <-> SFnn (Prim2SF x).
Proof.
  unfold neverNegative. rewrite is_nan_spec, FloatAxioms.leb_spec.
  change (Prim2SF 0) with (S754_zero false).
  destruct (Prim2SF x) as [[]|[]| |[] m e]; simpl; split; easy.
Qed.

Lemma SFmul_nn x y : SFnn x -> SFnn y -> SFnn (SF64mul x y).
Proof.
  unfold SF64mul, SFmul.
  destruct x as [[]|[]| |[] mx ex], y as [[]|[]| |[] my ey]; simpl; try easy.
  intros _ _. pose proof (binary_round_aux_signed false (Zpos (mx * my)) (ex + ey)
                            loc_Exact ltac:(lia)) as H.
  destruct (binary_round_aux _ _ _ _ _ _) as [| | |[] ? ?]; simpl in *; subst; easy.
Qed.

Lemma SFadd_nn x y : SFnn x -> SFnn y -> SFnn (SF64add x y).
Proof.
  unfold SF64add, SFadd.
  destruct x as [[]|[]| |[] mx ex], y as [[]|[]| |[] my ey];
    cbv beta iota delta [SFnn]; try easy.
  intros _ _. cbv zeta. cbn [cond_Zopp].
  pose proof (binary_round_signed false) as H.
  destruct (_ + _)%Z as [|p|p] eqn:E; try lia; cbn [binary_normalize].
  specialize (H p (Z.min ex ey)).
  destruct (binary_round _ _ _ _ _) as [| | |[] ? ?]; simpl in *; subst; easy.
Qed.

Lemma mul_neverNegative x y :
  neverNegative x = true -> neverNegative y = true -> neverNegative (x * y) = true.
Proof. rewrite !neverNegative_spec, FloatAxioms.mul_spec. apply SFmul_nn. Qed.

Lemma add_neverNegative x y :
  neverNegative x = true -> neverNegative y = true -> neverNegative (x + y) = true.
Proof. rewrite !neverNegative_spec, FloatAxioms.add_spec. apply SFadd_nn. Qed.

Lemma max_0_neverNegative v : neverNegative (Math.max [0; v]) = true.
Proof.
  rewrite max_0. destruct (is_nan v) eqn:Hn; [reflexivity|].
  destruct (0 <? v) eqn:H; [|reflexivity].
  unfold neverNegative. rewrite (ltb_leb _ _ H). apply orb_true_r.
Qed.

Lemma sum_from_neverNegative xs : forall acc,
  neverNegative acc = true -> Forall (fun x => neverNegative x = true) xs ->
  neverNegative (fold_left (fun sum c => sum + c) xs acc) = true.
Proof.
  induction xs as [|x xs IH]; intros acc Ha Hx; simpl; [exact Ha|].
  inversion Hx; subst. apply IH; auto using add_neverNegative.
Qed.

(** * Effective demand and exceedance *)

(** X1. No effective demand is negative: every entry of [effectiveDemands] is
    at least 0, or is [NaN] (when the demand or the battery capacity is [NaN],
    or both are the same infinity). *)
Theorem effectiveDemands_never_negative demands st :
  Forall (fun eff => is_nan eff = true \/ (0 <=? eff) = true)
         (effectiveDemands demands st).
Proof.
  unfold effectiveDemands. apply Forall_forall. intros eff Hin.
  apply in_map_iff in Hin as (d & <- & _).
  pose proof (max_0_neverNegative (d - batteryCapacity st)) as H.
  apply orb_prop in H. exact H.
Qed.

Lemma ltb_sub_notnan x y : (x <? y) = true -> is_nan (y - x) = false.
Proof.
  intros H. pose proof (sub_pos y x H) as Hp. eapply ltb_notnan_r, Hp.
Qed.

Lemma exceedance_within e c :
  (e <=? c) = true -> is_nan (e - c) = false -> Math.max [0; e - c] = 0.
Proof.
  intros Hle Hn. rewrite max_0, Hn, (sub_nonpos _ _ Hle). reflexivity.
Qed.

Lemma exceedance_above e c :
  (c <? e) = true -> Math.max [0; e - c] = e - c /\ (0 <? e - c) = true.
Proof.
  intros Hlt. pose proof (sub_pos _ _ Hlt) as Hp.
  rewrite max_0, (ltb_notnan_r _ _ Hp), Hp. auto.
Qed.

(** X2. When [effectiveDemand - capacity] is a number, exactly the months
    whose demand is above the capacity pay for exceedance: at or below the
    capacity the exceedance is 0 and the charge is [capacity * contractedRate
    + 0 * exceedanceRate]; above it the exceedance is positive and the charge
    adds [(effectiveDemand - capacity) * exceedanceRate]. *)
Theorem exceedance_charged_iff_above rates e c :
  is_nan (e - c) = false ->
  ((e <=? c) = true \/ (c <? e) = true)
  /\ ((e <=? c) = true ->
      Math.max [0; e - c] = 0
      /\ calculateMonthlyCharge rates e c
         = c * contractedRate rates + 0 * exceedanceRate rates)
  /\ ((c <? e) = true ->
      (0 <? Math.max [0; e - c]) = true
      /\ calculateMonthlyCharge rates e c
         = c * contractedRate rates + (e - c) * exceedanceRate rates).
Proof.
  intros Hn. destruct (sub_nan_operands e c Hn) as [He Hc]. repeat split.
  - destruct (c <? e) eqn:Hlt; [auto|]. left. apply ltb_false_leb; auto.
  - apply exceedance_within; assumption.
  - unfold calculateMonthlyCharge. rewrite exceedance_within; auto.
  - destruct (exceedance_above e c H) as [-> Hp]. exact Hp.
  - unfold calculateMonthlyCharge. destruct (exceedance_above e c H) as [-> _].
    reflexivity.
Qed.

Lemma exceedance_charged_witness :
  Math.max [0; 1067 - 3100] = 0
  /\ calculateMonthlyCharge tariff 1067 3100 = 3100 * 16.37 + 0 * 24.56.
Proof.
  refine (proj1 (proj2 (exceedance_charged_iff_above tariff 1067 3100 _)) _);
    reflexivity.
Defined.

(** * The least and the greatest effective demand *)

Lemma leb_neg_infinity x : (x <=? neg_infinity) = true -> x = neg_infinity.
Proof.
  rewrite FloatAxioms.leb_spec. change (Prim2SF neg_infinity) with (S754_infinity true).
  intros H. apply Prim2SF_inj. change (Prim2SF neg_infinity) with (S754_infinity true).
  destruct (Prim2SF x) as [[]|[]| |[] ? ?]; try discriminate. reflexivity.
Qed.

Lemma leb_infinity x : (infinity <=? x) = true -> x = infinity.
Proof.
  rewrite FloatAxioms.leb_spec. change (Prim2SF infinity) with (S754_infinity false).
  intros H. apply Prim2SF_inj. change (Prim2SF infinity) with (S754_infinity false).
  destruct (Prim2SF x) as [[]|[]| |[] ? ?]; try discriminate. reflexivity.
Qed.

Lemma Math_max_spec l :
  noNaN l = true ->
  is_nan (Math.max l) = false
  /\ (forall x, In x l -> (x <=? Math.max l) = true)
  /\ (l <> [] -> In (Math.max l) l).
Proof.
  intros Hl. unfold Math.max.
  destruct (max_loop_spec l neg_infinity Hl eq_refl) as (Hn & _ & Hall & Hin).
  repeat split; auto. intros Hne. destruct Hin as [Heq|Hin]; [|exact Hin].
  destruct l as [|x rest]; [congruence|].
  pose proof (Hall x (or_introl eq_refl)) as Hx. rewrite Heq in Hx.
  apply leb_neg_infinity in Hx. rewrite Heq, <- Hx. left. reflexivity.
Qed.

Lemma Math_min_spec l :
  noNaN l = true ->
  is_nan (Math.min l) = false
  /\ (forall x, In x l -> (Math.min l <=? x) = true)
  /\ (l <> [] -> In (Math.min l) l).
Proof.
  intros Hl. unfold Math.min.
  destruct (min_loop_spec l infinity Hl eq_refl) as (Hn & _ & Hall & Hin).
  repeat split; auto. intros Hne. destruct Hin as [Heq|Hin]; [|exact Hin].
  destruct l as [|x rest]; [congruence|].
  pose proof (Hall x (or_introl eq_refl)) as Hx. rewrite Heq in Hx.
  apply leb_infinity in Hx. rewrite Heq, <- Hx. left. reflexivity.
Qed.

Lemma Math_max_nan l : noNaN l = false -> Math.max l = nan.
Proof. apply max_loop_nan. Qed.

Lemma Math_min_nan l : noNaN l = false -> Math.min l = nan.
Proof. apply min_loop_nan. Qed.

(** X3. [minEffectiveDemand] and [maxEffectiveDemand] bound every effective
    demand and are themselves effective demands, when the series is not empty
    and holds no [NaN]; with a [NaN] in the series both are [NaN]; for the
    empty series they are [+Infinity] and [-Infinity]. *)
Theorem effective_demand_extremes demands st :
  let effs := effectiveDemands demands st in
  (noNaN effs = true ->
     (forall eff, In eff effs ->
        (minEffectiveDemand demands st <=? eff) = true
        /\ (eff <=? maxEffectiveDemand demands st) = true)
     /\ (demands <> [] ->
         In (minEffectiveDemand demands st) effs
         /\ In (maxEffectiveDemand demands st) effs))
  /\ (noNaN effs = false ->
      minEffectiveDemand demands st = nan /\ maxEffectiveDemand demands st = nan)
  /\ (demands = [] ->
      minEffectiveDemand demands st = infinity
      /\ maxEffectiveDemand demands st = neg_infinity).
Proof.
  intros effs. unfold minEffectiveDemand, maxEffectiveDemand. fold effs.
  split; [|split].
  - intros Hl. destruct (Math_max_spec effs Hl) as (_ & Hmax & Hmaxin).
    destruct (Math_min_spec effs Hl) as (_ & Hmin & Hminin).
    split; [auto|]. intros Hne.
    assert (effs <> []).
    { subst effs. unfold effectiveDemands. destruct demands; [congruence|discriminate]. }
    auto.
  - intros Hl. split; [apply Math_min_nan|apply Math_max_nan]; exact Hl.
  - intros ->. split; reflexivity.
Qed.

Lemma noNaN_of_max l : is_nan (Math.max l) = false -> noNaN l = true.
Proof.
  intros H. destruct (noNaN l) eqn:E; [reflexivity|].
  rewrite (Math_max_nan l E) in H. discriminate.
Qed.

Lemma noNaN_of_min l : is_nan (Math.min l) = false -> noNaN l = true.
Proof.
  intros H. destruct (noNaN l) eqn:E; [reflexivity|].
  rewrite (Math_min_nan l E) in H. discriminate.
Qed.

Lemma negativeReason_tooHigh demands st :
  negativeReason demands st = tooHigh ->
  (maxEffectiveDemand demands st <? contractedCapacity st) = true.
Proof.
  unfold negativeReason.
  destruct (maxEffectiveDemand demands st <? contractedCapacity st); [reflexivity|].
  assert (Hne : tooLow <> tooHigh).
  { intros H. apply String.eqb_eq in H. vm_compute in H. discriminate. }
  destruct (contractedCapacity st <? minEffectiveDemand demands st); intros H;
    destruct (Hne H).
Qed.

(** X4. When [negativeReason] says the contracted capacity is too high, no
    month has any exceedance and every monthly charge is the fixed charge
    [contractedCapacity * contractedRate + 0 * exceedanceRate]. *)
Theorem too_high_means_no_exceedance demands rates st :
  negativeReason demands st = tooHigh ->
  Forall (fun eff => Math.max [0; eff - contractedCapacity st] = 0)
         (effectiveDemands demands st)
  /\ Forall (fun charge =>
               charge = contractedCapacity st * contractedRate rates
                        + 0 * exceedanceRate rates)
            (monthlyCharges demands rates st).
Proof.
  intros Hr. apply negativeReason_tooHigh in Hr.
  pose proof (ltb_notnan_l _ _ Hr) as Hn. unfold maxEffectiveDemand in *.
  destruct (Math_max_spec _ (noNaN_of_max _ Hn)) as (_ & Hmax & _).
  assert (H : forall eff, In eff (effectiveDemands demands st) ->
            Math.max [0; eff - contractedCapacity st] = 0).
  { intros eff Hin. pose proof (leb_ltb_trans _ _ _ (Hmax eff Hin) Hr) as Hlt.
    apply exceedance_within; [apply ltb_leb, Hlt|].
    eapply ltb_notnan_l, sub_neg, Hlt. }
  split; apply Forall_forall.
  - exact H.
  - intros charge Hin. unfold monthlyCharges in Hin.
    apply in_map_iff in Hin as (eff & <- & Hin).
    unfold calculateMonthlyCharge. rewrite (H eff Hin). reflexivity.
Qed.

Lemma too_high_witness :
  Forall (fun eff => Math.max [0; eff - 4000] = 0)
         (effectiveDemands maxDemands (mkState 400 4000))
  /\ Forall (fun charge => charge = 4000 * 16.37 + 0 * 24.56)
            (monthlyCharges maxDemands tariff (mkState 400 4000)).
Proof.
  apply (too_high_means_no_exceedance maxDemands tariff (mkState 400 4000)).
  vm_compute. reflexivity.
Defined.

(** X5. When the contracted capacity is below [minEffectiveDemand], every
    month has a positive exceedance [effectiveDemand - contractedCapacity],
    and for a non-empty series [negativeReason] is the exceedance explanation.
    (For the empty series both comparisons of [negativeReason] hold and the
    first one wins.) *)
Theorem below_minimum_means_every_month_exceeds demands st :
  (contractedCapacity st <? minEffectiveDemand demands st) = true ->
  Forall (fun eff => (0 <? Math.max [0; eff - contractedCapacity st]) = true
                     /\ Math.max [0; eff - contractedCapacity st]
                        = eff - contractedCapacity st)
         (effectiveDemands demands st)
  /\ (demands <> [] -> negativeReason demands st = tooLow).
Proof.
  intros Hr. pose proof (ltb_notnan_r _ _ Hr) as Hn. unfold minEffectiveDemand in *.
  destruct (Math_min_spec _ (noNaN_of_min _ Hn)) as (_ & Hmin & Hin).
  split.
  - apply Forall_forall. intros eff He.
    pose proof (ltb_leb_trans _ _ _ Hr (Hmin eff He)) as Hlt.
    destruct (exceedance_above eff (contractedCapacity st) Hlt) as [Heq Hp].
    rewrite Heq. auto.
  - intros Hne. unfold negativeReason, minEffectiveDemand. rewrite Hr.
    destruct (maxEffectiveDemand demands st <? contractedCapacity st) eqn:Hhigh;
      [|reflexivity].
    exfalso. pose proof (ltb_notnan_l _ _ Hhigh) as Hm. unfold maxEffectiveDemand in *.
    destruct (Math_max_spec _ (noNaN_of_max _ Hm)) as (_ & Hmax & Hmaxin).
    destruct (effectiveDemands demands st) as [|eff rest] eqn:E.
    + unfold effectiveDemands in E. destruct demands; [congruence|discriminate].
    + pose proof (Hmin eff (or_introl eq_refl)) as H1.
      pose proof (Hmax eff (or_introl eq_refl)) as H2.
      pose proof (ltb_leb_trans _ _ _ Hr H1) as H3.
      pose proof (leb_ltb_trans _ _ _ H2 Hhigh) as H4.
      pose proof (ltb_trans _ _ _ H3 H4) as H5. rewrite ltb_irrefl in H5. discriminate.
Qed.

Lemma below_minimum_witness :
  Forall (fun eff => (0 <? Math.max [0; eff - 1000]) = true
                     /\ Math.max [0; eff - 1000] = eff - 1000)
         (effectiveDemands maxDemands (mkState 400 1000))
  /\ (maxDemands <> [] -> negativeReason maxDemands (mkState 400 1000) = tooLow).
Proof.
  apply (below_minimum_means_every_month_exceeds maxDemands (mkState 400 1000)).
  vm_compute. reflexivity.
Defined.

(** * No charge is negative *)

Lemma leb_neverNegative x : (0 <=? x) = true -> neverNegative x = true.
Proof. intros H. unfold neverNegative. rewrite H. apply orb_true_r. Qed.

Lemma charge_neverNegative rates e c :
  (0 <=? contractedRate rates) = true -> (0 <=? exceedanceRate rates) = true ->
  (0 <=? c) = true ->
  neverNegative (calculateMonthlyCharge rates e c) = true.
Proof.
  intros Hc He Hcap. unfold calculateMonthlyCharge.
  apply add_neverNegative; apply mul_neverNegative;
    auto using leb_neverNegative, max_0_neverNegative.
Qed.

(** X6. With rates and a contracted capacity that are not negative, no charge
    is negative: every monthly charge, the total charge, every original charge
    and the original total are at least 0 or [NaN]. *)
Theorem charges_never_negative demands rates st :
  (0 <=? contractedRate rates) = true -> (0 <=? exceedanceRate rates) = true ->
  (0 <=? contractedCapacity st) = true ->
  let ok := fun x => is_nan x = true \/ (0 <=? x) = true in
  Forall ok (monthlyCharges demands rates st)
  /\ ok (totalCharge demands rates st)
  /\ Forall ok (originalCharges demands rates)
  /\ ok (totalOriginalCharge demands rates).
Proof.
  intros Hc He Hcap ok.
  assert (Hok : forall x, neverNegative x = true -> ok x).
  { intros x H. apply orb_prop in H. exact H. }
  assert (H1 : Forall (fun x => neverNegative x = true) (monthlyCharges demands rates st)).
  { apply Forall_forall. intros x Hin. unfold monthlyCharges in Hin.
    apply in_map_iff in Hin as (e & <- & _). apply charge_neverNegative; assumption. }
  assert (H2 : Forall (fun x => neverNegative x = true) (originalCharges demands rates)).
  { apply Forall_forall. intros x Hin. unfold originalCharges in Hin.
    apply in_map_iff in Hin as (e & <- & _). apply charge_neverNegative; auto. }
  repeat split.
  - eapply Forall_impl; [exact Hok|exact H1].
  - apply Hok, sum_from_neverNegative; [reflexivity|exact H1].
  - eapply Forall_impl; [exact Hok|exact H2].
  - apply Hok, sum_from_neverNegative; [reflexivity|exact H2].
Qed.

Lemma charges_never_negative_witness :
  let ok := fun x => is_nan x = true \/ (0 <=? x) = true in
  Forall ok (monthlyCharges maxDemands tariff initialState)
  /\ ok (totalCharge maxDemands tariff initialState)
  /\ Forall ok (originalCharges maxDemands tariff)
  /\ ok (totalOriginalCharge maxDemands tariff).
Proof.
  apply (charges_never_negative maxDemands tariff initialState); reflexivity.
Defined.

(** * The optimize button *)

Lemma findOptimalCapacity_no_cheaper demands rates st :
  exists c, findOptimalCapacity demands rates st = Some c
    /\ forall c', In c' grid ->
         (calculateTotalCharge demands rates st c'
          <? calculateTotalCharge demands rates st c) = false.
Proof.
  destruct (findOptimalCapacity_cases demands rates st)
    as [[H0 Hnone]|(c & Hc & _ & _ & Hmin & _)].
  - exists 0. split; [exact H0|]. intros c' Hin. specialize (Hnone c' Hin).
    destruct (_ <? calculateTotalCharge demands rates st 0) eqn:E; [|reflexivity].
    assert (Hx : forall x y, (x <? infinity) = false -> (x <? y) = true -> False).
    { intros x y. rewrite !FloatAxioms.ltb_spec.
      change (Prim2SF infinity) with (S754_infinity false).
      unfold SFltb, SFcompare.
      destruct (Prim2SF x) as [[]|[]| |[] ? ?], (Prim2SF y) as [[]|[]| |[] ? ?];
        discriminate. }
    destruct (Hx _ _ Hnone E).
  - exists c. auto.
Qed.

(** X7. The optimize button always finishes and only changes the contracted
    capacity and the explanation: the battery capacity and the drag flag are
    kept, the explanation shows the capacity that was set, no capacity of the
    grid has a total charge below the new total charge, and pressing the
    button again changes nothing. *)
Theorem handleSetOptimalCapacity_settles demands rates st :
  exists st', handleSetOptimalCapacity demands rates st = Some st'
    /\ batteryCapacity st' = batteryCapacity st
    /\ isDragging st' = isDragging st
    /\ explanation st' = Some (contractedCapacity st')
    /\ (forall c, In c grid ->
          (calculateTotalCharge demands rates st' c <? totalCharge demands rates st')
          = false)
    /\ handleSetOptimalCapacity demands rates st' = Some st'.
Proof.
  destruct (findOptimalCapacity_no_cheaper demands rates st) as (c & Hc & Hmin).
  unfold handleSetOptimalCapacity. rewrite Hc.
  eexists. split; [reflexivity|]. cbn [batteryCapacity isDragging explanation
    contractedCapacity setExplanation setContractedCapacity].
  repeat split.
  - intros c' Hin.
    rewrite (calculateTotalCharge_battery demands rates _ st c') by reflexivity.
    exact (Hmin c' Hin).
  - rewrite (findOptimalCapacity_battery demands rates _ st) by reflexivity.
    rewrite Hc. reflexivity.
Qed.

(** * Sequences of mouse moves *)

(** X8. Of two successive mouse moves the later one decides when it is inside
    the plot, and is ignored otherwise; handling the same move twice is
    handling it once. *)
Theorem drag_last_position_wins e1 e2 st :
  handleMouseMove e2 (handleMouseMove e1 st)
  = (if inPlot e2 then handleMouseMove e2 st else handleMouseMove e1 st)
  /\ handleMouseMove e1 (handleMouseMove e1 st) = handleMouseMove e1 st.
Proof.
  unfold handleMouseMove, inPlot.
  destruct (isDragging st) eqn:Hd.
  - destruct ((0 <=? clientY e1 - chartTop e1) && _) eqn:H1;
      destruct ((0 <=? clientY e2 - chartTop e2) && _) eqn:H2;
      cbn [isDragging setContractedCapacity]; rewrite ?Hd, ?H1, ?H2; split; reflexivity.
  - destruct ((0 <=? clientY e2 - chartTop e2) && _); rewrite ?Hd; split; reflexivity.
Qed.

Lemma handleMouseMove_frame e st :
  batteryCapacity (handleMouseMove e st) = batteryCapacity st
  /\ isDragging (handleMouseMove e st) = isDragging st
  /\ isHovering (handleMouseMove e st) = isHovering st
  /\ explanation (handleMouseMove e st) = explanation st.
Proof.
  unfold handleMouseMove. destruct (isDragging st) eqn:Hd; [|auto].
  destruct (_ && _); repeat split; reflexivity || exact Hd.
Qed.

Lemma handleMouseMove_idle e st : isDragging st = false -> handleMouseMove e st = st.
Proof. intros H. unfold handleMouseMove. rewrite H. reflexivity. Qed.

Lemma handleMouseMoves_idle events : forall st,
  isDragging st = false -> handleMouseMoves events st = st.
Proof.
  induction events as [|e es IH]; intros s Hs; simpl; [reflexivity|].
  rewrite handleMouseMove_idle by exact Hs. apply IH, Hs.
Qed.

Lemma handleMouseMoves_frame events : forall st,
  batteryCapacity (handleMouseMoves events st) = batteryCapacity st
  /\ isDragging (handleMouseMoves events st) = isDragging st.
Proof.
  induction events as [|e es IH]; intros st; simpl; [auto|].
  destruct (IH (handleMouseMove e st)) as [-> ->].
  destruct (handleMouseMove_frame e st) as (H1 & H2 & _). auto.
Qed.

(** X9. After the mouse button is released (or the pointer leaves the chart),
    and in the initial state, no sequence of mouse moves changes anything;
    after the button is pressed the page keeps dragging through any sequence
    of moves. *)
Theorem no_stuck_drag events st :
  handleMouseMoves events (handleMouseUp st) = handleMouseUp st
  /\ handleMouseMoves events initialState = initialState
  /\ isDragging (handleMouseMoves events (handleMouseDown st)) = true.
Proof.
  repeat split; try (apply handleMouseMoves_idle; reflexivity).
  rewrite (proj2 (handleMouseMoves_frame events _)). reflexivity.
Qed.

(** X10. Dragging never changes what the optimizer works from: after any
    sequence of mouse moves the battery capacity, the effective demands, the
    optimal capacity and the total charge at each capacity are as before. *)
Theorem drag_leaves_cost_inputs demands rates events st :
  let st' := handleMouseMoves events st in
  batteryCapacity st' = batteryCapacity st
  /\ effectiveDemands demands st' = effectiveDemands demands st
  /\ findOptimalCapacity demands rates st' = findOptimalCapacity demands rates st
  /\ (forall c, calculateTotalCharge demands rates st' c
                = calculateTotalCharge demands rates st c).
Proof.
  intros st'.
  assert (Hb : batteryCapacity st' = batteryCapacity st)
    by apply handleMouseMoves_frame.
  split; [|split; [|split]].
  - exact Hb.
  - unfold effectiveDemands. rewrite Hb. reflexivity.
  - apply findOptimalCapacity_battery, Hb.
  - intros c. apply calculateTotalCharge_battery, Hb.
Qed.

(** * The net label *)

(** X11. The page shows savings exactly when the savings figure is a number
    and the total charge is at most the original total charge; otherwise it
    shows an additional cost. *)
Theorem net_label_compares_totals demands rates st :
  isPositiveSavings demands rates st
  = (if is_nan (savings demands rates st) then false
     else totalCharge demands rates st <=? totalOriginalCharge demands rates)
  /\ netLabel demands rates st
     = (if is_nan (savings demands rates st) then "additional cost"%string
        else if totalCharge demands rates st <=? totalOriginalCharge demands rates
             then "savings"%string else "additional cost"%string).
Proof.
  assert (H : isPositiveSavings demands rates st
              = (if is_nan (savings demands rates st) then false
                 else totalCharge demands rates st <=? totalOriginalCharge demands rates)).
  { unfold isPositiveSavings, savings.
    destruct (is_nan (_ - _)) eqn:Hn.
    - destruct (0 <=? _) eqn:E; [|reflexivity].
      rewrite (leb_notnan_r _ _ E) in Hn. discriminate.
    - apply sub_sign, Hn. }
  split; [exact H|]. unfold netLabel. rewrite H.
  destruct (is_nan _); [reflexivity|]. reflexivity.
Qed.

Lemma sub_self x : is_nan (x - x) = false -> x - x = 0.
Proof.
  intros Hn. apply Prim2SF_inj. rewrite is_nan_false in Hn.
  rewrite FloatAxioms.sub_spec in *. change (Prim2SF 0) with (S754_zero false).
  unfold SF64sub, SFsub in *.
  destruct (Prim2SF x) as [[]|[]| |s m e]; try congruence.
  cbv zeta. rewrite Z.sub_diag. reflexivity.
Qed.

Lemma totalCharge_baselineState demands rates st :
  totalCharge demands rates (baselineState st) = totalOriginalCharge demands rates.
Proof.
  unfold totalCharge, monthlyCharges, totalOriginalCharge, originalCharges,
    effectiveDemands. simpl. rewrite map_map. f_equal.
  apply map_ext. intros d. apply monthly_charge_no_battery.
Qed.

(** X12. With no battery and the original capacity of 3100 the savings are
    exactly 0, shown as savings with the battery explanation, provided the
    savings figure is a number. *)
Theorem baseline_shows_zero_savings demands rates st :
  is_nan (savings demands rates (baselineState st)) = false ->
  savings demands rates (baselineState st) = 0
  /\ netLabel demands rates (baselineState st) = "savings"%string
  /\ rationale demands rates (baselineState st) = batteryHelps.
Proof.
  unfold rationale, netLabel, isPositiveSavings, savings.
  rewrite totalCharge_baselineState. intros Hn.
  rewrite (sub_self _ Hn). repeat split.
Qed.

Lemma baseline_shows_zero_savings_witness :
  savings maxDemands tariff (baselineState dragging) = 0
  /\ netLabel maxDemands tariff (baselineState dragging) = "savings"%string
  /\ rationale maxDemands tariff (baselineState dragging) = batteryHelps.
Proof.
  apply (baseline_shows_zero_savings maxDemands tariff dragging).
  vm_compute. reflexivity.
Defined.

(** * Monthly savings and chart rows *)

Lemma mapi_from_map {A B} (f : A -> nat -> B) (g : A -> B) xs : forall k,
  (forall i x, nth_error xs i = Some x -> f x (k + i)%nat = g x) ->
  mapi_from f k xs = map g xs.
Proof.
  induction xs as [|x xs IH]; intros k H; simpl; [reflexivity|]. f_equal.
  - rewrite <- (H 0%nat x eq_refl). f_equal. lia.
  - apply IH. intros i y Hy. rewrite <- (H (S i) y Hy). f_equal. lia.
Qed.

Lemma monthlySavings_map demands rates st :
  monthlySavings demands rates st
  = map (fun demand =>
           calculateMonthlyCharge rates demand 3100
           - calculateMonthlyCharge rates
               (Math.max [0; demand - batteryCapacity st]) (contractedCapacity st))
        demands.
Proof.
  unfold monthlySavings, mapi. apply mapi_from_map. intros i d Hd. cbv zeta.
  f_equal. unfold monthlyCharges, effectiveDemands. rewrite map_map.
  apply nth_error_nth. simpl. rewrite nth_error_map, Hd. reflexivity.
Qed.

(** X13. [monthlySavings] pairs each month with its own charge: entry [i] is
    the original charge of demand [i] minus the charge of the effective demand
    of the same month, and there are as many monthly savings and monthly
    charges as demands. *)
Theorem monthlySavings_pointwise demands rates st :
  monthlySavings demands rates st
  = map (fun demand =>
           calculateMonthlyCharge rates demand 3100
           - calculateMonthlyCharge rates
               (Math.max [0; demand - batteryCapacity st]) (contractedCapacity st))
        demands
  /\ List.length (monthlySavings demands rates st) = List.length demands
  /\ List.length (monthlyCharges demands rates st) = List.length demands.
Proof.
  split; [apply monthlySavings_map|split].
  - rewrite monthlySavings_map. apply length_map.
  - unfold monthlyCharges, effectiveDemands. rewrite !length_map. reflexivity.
Qed.

Lemma nth_error_mapi_from {A B} (f : A -> nat -> B) xs : forall k i,
  nth_error (mapi_from f k xs) i
  = option_map (fun x => f x (k + i)%nat) (nth_error xs i).
Proof.
  induction xs as [|x xs IH]; intros k [|i]; simpl; try reflexivity.
  - rewrite Nat.add_0_r. reflexivity.
  - rewrite IH. replace (S k + i)%nat with (k + S i)%nat by lia. reflexivity.
Qed.

(** * Rounding to nearest, semantically *)

(** ** What a right shift leaves behind *)

Lemma shifted_0 m : shifted m 0 (shr_record_of_loc m loc_Exact).
Proof. split; simpl; [rewrite Z.div_1_r|rewrite Z.mod_1_r]; reflexivity. Qed.

Lemma shr_1_div2 rec :
  (0 <= shr_m rec)%Z ->
  shr_m (shr_1 rec) = (shr_m rec / 2)%Z
  /\ shr_r (shr_1 rec) = Z.odd (shr_m rec)
  /\ shr_s (shr_1 rec) = (shr_r rec || shr_s rec)%bool.
Proof.
  destruct rec as [m r s]. cbn [shr_m shr_r shr_s]. intros Hm.
  destruct m as [|[p|p|]|p]; try lia; cbn [shr_1 shr_m shr_r shr_s]; repeat split.
  - apply (Z.div_unique _ 2 (Zpos p) 1); lia.
  - apply (Z.div_unique _ 2 (Zpos p) 0); lia.
Qed.

Lemma loc_sticky rec (r : Z) c :
  loc_of_shr_record rec = (if (r =? 0)%Z then loc_Exact else loc_Inexact c) ->
  (shr_r rec || shr_s rec)%bool = negb (r =? 0)%Z.
Proof.
  destruct rec as [q [] []]; simpl; destruct (r =? 0)%Z; simpl; congruence.
Qed.

Lemma loc_after_shift k r (odd : bool) q :
  (0 <= r < 2 ^ k)%Z ->
  loc_of_shr_record {| shr_m := q; shr_r := odd; shr_s := negb (r =? 0)%Z |}
  = (if (r + 2 ^ k * (if odd then 1 else 0) =? 0)%Z then loc_Exact
     else loc_Inexact (2 * (r + 2 ^ k * (if odd then 1 else 0)) ?= 2 ^ k * 2)%Z).
Proof.
  intros Hr. destruct odd; destruct (Z.eqb_spec r 0) as [H0|H0];
    cbn [loc_of_shr_record negb];
    match goal with |- context [(?x =? 0)%Z] => destruct (Z.eqb_spec x 0) end; try lia;
    try reflexivity;
    match goal with |- context [(?x ?= ?y)%Z] => destruct (Z.compare_spec x y) end;
    (lia || reflexivity).
Qed.

Lemma shifted_step m k rec :
  (0 <= m)%Z -> (0 <= k)%Z -> shifted m k rec -> shifted m (k + 1) (shr_1 rec).
Proof.
  intros Hm Hk [Hq Hl].
  assert (Hp : (0 < 2 ^ k)%Z) by (apply Z.pow_pos_nonneg; lia).
  assert (Hq0 : (0 <= shr_m rec)%Z) by (rewrite Hq; apply Z.div_pos; lia).
  destruct (shr_1_div2 rec Hq0) as (H1 & H2 & H3).
  rewrite (loc_sticky _ _ _ Hl) in H3.
  unfold shifted. rewrite Z.pow_add_r, Z.pow_1_r by lia.
  pose proof (Z.rem_mul_r m (2 ^ k) 2 ltac:(lia) ltac:(lia)) as Hrem.
  pose proof (Z.mod_pos_bound m (2 ^ k) Hp) as Hb.
  split.
  - rewrite H1, Hq, Z.div_div by lia. reflexivity.
  - rewrite Hrem, Zmod_odd. rewrite Hq in H2.
    destruct (shr_1 rec) as [q' r' s']. cbn [shr_m shr_r shr_s] in *.
    subst r' s'. apply loc_after_shift, Hb.
Qed.

Lemma shifted_iter p : forall m k rec,
  (0 <= m)%Z -> (0 <= k)%Z -> shifted m k rec ->
  shifted m (k + Zpos p) (SpecFloat.iter_pos shr_1 p rec).
Proof.
  induction p as [p IH|p IH|]; intros m k rec Hm Hk H; cbn [SpecFloat.iter_pos].
  - replace (k + Zpos p~1)%Z with (k + 1 + Zpos p + Zpos p)%Z by lia.
    apply IH; try lia. apply IH; try lia. apply shifted_step; assumption.
  - replace (k + Zpos p~0)%Z with (k + Zpos p + Zpos p)%Z by lia.
    apply IH; try lia. apply IH; try lia. assumption.
  - apply shifted_step; assumption.
Qed.

(** ** Nearest integer, ties to even *)

Lemma shr_fexp_rne m e :
  (0 < m)%Z -> (e <= fexp prec emax (Zdigits2 m + e))%Z ->
  let t := fexp prec emax (Zdigits2 m + e) in
  round_nearest_even (shr_m (fst (shr_fexp prec emax m e loc_Exact)))
                     (loc_of_shr_record (fst (shr_fexp prec emax m e loc_Exact)))
  = rne m (t - e)
  /\ snd (shr_fexp prec emax m e loc_Exact) = t.
Proof.
  intros Hm He t. unfold shr_fexp, shr. fold t.
  destruct (t - e)%Z as [|p|p] eqn:En; try lia; cbn [fst snd].
  - destruct (shifted_0 m) as [-> ->]. split; [reflexivity|lia].
  - destruct (shifted_iter p m 0 _ ltac:(lia) ltac:(lia) (shifted_0 m)) as [H1 H2].
    rewrite Z.add_0_l in H1, H2. rewrite H1, H2. split; [reflexivity|lia].
Qed.

Lemma rne_near m n :
  (0 <= m)%Z -> (0 <= n)%Z ->
  let k := rne m n in
  (2 * m - 2 ^ n <= 2 * 2 ^ n * k <= 2 * m + 2 ^ n)%Z
  /\ ((2 * 2 ^ n * k = 2 * m + 2 ^ n \/ 2 * 2 ^ n * k = 2 * m - 2 ^ n)%Z
      -> Z.even k = true)
  /\ (0 <= k)%Z.
Proof.
  intros Hm Hn k. subst k. unfold rne.
  assert (Hp : (0 < 2 ^ n)%Z) by (apply Z.pow_pos_nonneg; lia).
  pose proof (Z.div_mod m (2 ^ n) ltac:(lia)) as Hdm.
  pose proof (Z.mod_pos_bound m (2 ^ n) Hp) as Hb.
  assert (Hq : (0 <= m / 2 ^ n)%Z) by (apply Z.div_pos; lia).
  set (q := (m / 2 ^ n)%Z) in *. set (r := (m mod 2 ^ n)%Z) in *.
  set (P := (2 ^ n)%Z) in *.
  destruct (Z.eqb_spec r 0) as [H0|H0]; cbn [round_nearest_even].
  - repeat split; try nia; intros [H|H]; nia.
  - destruct (Z.compare_spec (2 * r) P) as [He|Hl|Hg]; cbn [round_nearest_even].
    + destruct (Z.even q) eqn:Hev.
      * repeat split; try nia; intros _; exact Hev.
      * repeat split; try nia; intros _; rewrite Z.even_add, Hev; reflexivity.
    + repeat split; try nia; intros [H|H]; nia.
    + repeat split; try nia; intros [H|H]; nia.
Qed.

Lemma rne_le m n K : (0 <= m)%Z -> (0 <= n)%Z -> (m <= K * 2 ^ n)%Z -> (rne m n <= K)%Z.
Proof.
  intros Hm Hn H. destruct (rne_near m n Hm Hn) as ([_ Hu] & _ & _).
  assert (Hp : (0 < 2 ^ n)%Z) by (apply Z.pow_pos_nonneg; lia). nia.
Qed.

Lemma rne_ge m n K : (0 <= m)%Z -> (0 <= n)%Z -> (K * 2 ^ n <= m)%Z -> (K <= rne m n)%Z.
Proof.
  intros Hm Hn H. destruct (rne_near m n Hm Hn) as ([Hl _] & _ & _).
  assert (Hp : (0 < 2 ^ n)%Z) by (apply Z.pow_pos_nonneg; lia). nia.
Qed.

Lemma rne_small m n : (0 <= m)%Z -> (0 <= n)%Z -> (2 * m < 2 ^ n)%Z -> rne m n = 0%Z.
Proof.
  intros Hm Hn H. destruct (rne_near m n Hm Hn) as ([_ Hu] & _ & H0).
  assert (Hp : (0 < 2 ^ n)%Z) by (apply Z.pow_pos_nonneg; lia). nia.
Qed.

(** ** Powers of two as real numbers *)

Lemma bpow_pos e : (0 < bpow e)%R.
Proof. apply powerRZ_lt. lra. Qed.

Lemma bpow_add a b : bpow (a + b) = (bpow a * bpow b)%R.
Proof. apply powerRZ_add. lra. Qed.

Lemma bpow_0 : bpow 0 = 1%R.
Proof. reflexivity. Qed.

Lemma bpow_1 : bpow 1 = 2%R.
Proof. unfold bpow. simpl. lra. Qed.

Lemma bpow_succ e : bpow (e + 1) = (2 * bpow e)%R.
Proof. rewrite bpow_add, bpow_1. lra. Qed.

Lemma bpow_IZR n : (0 <= n)%Z -> bpow n = IZR (2 ^ n).
Proof.
  intros Hn. unfold bpow, powerRZ. destruct n as [|p|p]; try lia; [reflexivity|].
  rewrite pow_IZR, positive_nat_Z. reflexivity.
Qed.

Lemma bpow_le a b : (a <= b)%Z -> (bpow a <= bpow b)%R.
Proof.
  intros H. replace b with (a + (b - a))%Z by lia. rewrite bpow_add.
  rewrite (bpow_IZR (b - a)) by lia.
  assert (1 <= IZR (2 ^ (b - a)))%R.
  { apply IZR_le. pose proof (Z.pow_pos_nonneg 2 (b - a)). lia. }
  pose proof (bpow_pos a). nra.
Qed.

Lemma bpow_lt a b : (a < b)%Z -> (bpow a < bpow b)%R.
Proof.
  intros H. apply Rlt_le_trans with (bpow (a + 1)); [|apply bpow_le; lia].
  rewrite bpow_succ. pose proof (bpow_pos a). lra.
Qed.

Lemma bpow_lt_inv a b : (bpow a < bpow b)%R -> (a < b)%Z.
Proof.
  intros H. destruct (Z_lt_le_dec a b) as [Hl|Hl]; [exact Hl|].
  pose proof (bpow_le _ _ Hl). lra.
Qed.

Lemma F2R_scale m e n : (0 <= n)%Z -> F2R (m * 2 ^ n) (e - n) = F2R m e.
Proof.
  intros Hn. unfold F2R. rewrite mult_IZR, <- bpow_IZR by exact Hn.
  replace e with ((e - n) + n)%Z at 2 by lia. rewrite bpow_add. ring.
Qed.

Lemma F2R_add a b e : F2R (a + b) e = (F2R a e + F2R b e)%R.
Proof. unfold F2R. rewrite plus_IZR. ring. Qed.

Lemma F2R_sub a b e : F2R (a - b) e = (F2R a e - F2R b e)%R.
Proof. unfold F2R. rewrite minus_IZR. ring. Qed.

Lemma F2R_opp a e : F2R (- a) e = (- F2R a e)%R.
Proof. unfold F2R. rewrite opp_IZR. ring. Qed.

Lemma F2R_pos m e : (0 < m)%Z -> (0 < F2R m e)%R.
Proof.
  intros H. unfold F2R. apply Rmult_lt_0_compat; [apply IZR_lt, H|apply bpow_pos].
Qed.

Lemma F2R_le m1 m2 e : (m1 <= m2)%Z -> (F2R m1 e <= F2R m2 e)%R.
Proof.
  intros H. unfold F2R. apply Rmult_le_compat_r; [apply Rlt_le, bpow_pos|apply IZR_le, H].
Qed.

Lemma F2R_le_inv m1 m2 e : (F2R m1 e <= F2R m2 e)%R -> (m1 <= m2)%Z.
Proof.
  intros H. apply le_IZR. unfold F2R in H.
  apply Rmult_le_reg_r with (bpow e); [apply bpow_pos|exact H].
Qed.

Lemma F2R_bpow n e : (0 <= n)%Z -> F2R (2 ^ n) e = bpow (n + e).
Proof. intros H. unfold F2R. rewrite <- bpow_IZR, bpow_add by exact H. reflexivity. Qed.

(** A positive mantissa lies between the powers of two its digit count
    gives. *)
Lemma digits_bounds m : (0 < m)%Z -> (2 ^ (Zdigits2 m - 1) <= m < 2 ^ Zdigits2 m)%Z.
Proof.
  intros Hm. rewrite Zdigits2_log2 by exact Hm.
  pose proof (Z.log2_spec m Hm) as [H1 H2].
  replace (Z.log2 m + 1 - 1)%Z with (Z.log2 m) by lia.
  replace (Z.log2 m + 1)%Z with (Z.succ (Z.log2 m)) by lia. lia.
Qed.

Lemma F2R_bounds m e :
  (0 < m)%Z -> (bpow (Zdigits2 m + e - 1) <= F2R m e < bpow (Zdigits2 m + e))%R.
Proof.
  intros Hm. destruct (digits_bounds m Hm) as [H1 H2].
  pose proof (Zdigits2_pos m Hm) as Hd.
  split.
  - replace (Zdigits2 m + e - 1)%Z with ((Zdigits2 m - 1) + e)%Z by lia.
    rewrite <- F2R_bpow by lia. apply F2R_le, H1.
  - rewrite <- F2R_bpow by lia. unfold F2R.
    apply Rmult_lt_compat_r; [apply bpow_pos|apply IZR_lt, H2].
Qed.

(** ** Nearest multiples *)

Lemma nearest_exact k g : (0 < g)%R -> nearest (IZR k * g) g k.
Proof. intros Hg. split; [lra|]. intros [H|H]; lra. Qed.

Lemma nearest_mono v1 v2 g k1 k2 :
  (0 < g)%R -> (v1 <= v2)%R -> nearest v1 g k1 -> nearest v2 g k2 -> (k1 <= k2)%Z.
Proof.
  intros Hg Hv [[_ H1] E1] [[H2 _] E2].
  destruct (Z_le_gt_dec k1 k2) as [Hle|Hgt]; [exact Hle|exfalso].
  assert (Hk : (IZR k2 + 1 <= IZR k1)%R).
  { rewrite <- plus_IZR. apply IZR_le. lia. }
  assert (Hm : ((IZR k2 + 1) * g <= IZR k1 * g)%R)
    by (apply Rmult_le_compat_r; lra).
  assert (Ha : (IZR k1 * g = v1 + g / 2)%R) by lra.
  assert (Hb : (IZR k2 * g = v2 - g / 2)%R) by lra.
  assert (Hc : (IZR k1 * g = (IZR k2 + 1) * g)%R) by lra.
  apply Rmult_eq_reg_r in Hc; [|lra].
  rewrite <- plus_IZR in Hc. apply eq_IZR in Hc.
  specialize (E1 (or_introl Ha)). specialize (E2 (or_intror Hb)).
  subst k1. rewrite Z.even_add, E2 in E1. discriminate.
Qed.

Lemma rne_nearest m e n :
  (0 <= m)%Z -> (0 <= n)%Z -> nearest (F2R m e) (bpow (e + n)) (rne m n).
Proof.
  intros Hm Hn. destruct (rne_near m n Hm Hn) as ([Hl Hu] & He & _).
  set (k := rne m n) in *. unfold F2R. rewrite bpow_add, (bpow_IZR n) by exact Hn.
  pose proof (bpow_pos e) as Hp.
  apply IZR_le in Hl, Hu.
  rewrite minus_IZR, !mult_IZR in Hl. rewrite plus_IZR, !mult_IZR in Hu.
  set (b := bpow e) in *. set (P := IZR (2 ^ n)) in *.
  apply (Rmult_le_compat_l b) in Hl, Hu; try lra.
  split; [split; lra|].
  intros H. apply He.
  destruct H as [H|H]; [left|right]; apply eq_IZR;
    rewrite ?minus_IZR, ?plus_IZR, !mult_IZR; fold P;
    apply (Rmult_eq_reg_l b); lra.
Qed.

(** ** What [binary_round_aux] returns *)

Lemma fexp_eq E : fexp prec emax E = Z.max (E - 53) (-1074).
Proof. reflexivity. Qed.

Lemma rne_bounds m e :
  (0 < m)%Z ->
  let E := (Zdigits2 m + e)%Z in
  let t := fexp prec emax E in
  (e <= t)%Z ->
  let k := rne m (t - e) in
  (0 <= k <= 2 ^ 53)%Z
  /\ (t = E - 53 -> 2 ^ 52 <= k)%Z.
Proof.
  intros Hm E t He k. subst k. pose proof (fexp_eq E) as Ht. fold t in Ht.
  destruct (digits_bounds m Hm) as [Hd1 Hd2].
  pose proof (Zdigits2_pos m Hm) as Hd. set (d := Zdigits2 m) in *.
  destruct (rne_near m (t - e) ltac:(lia) ltac:(lia)) as (_ & _ & H0).
  split; [split; [exact H0|]|].
  - destruct (Z_le_gt_dec (t - e) d) as [Hle|Hgt].
    + apply Z.le_trans with (2 ^ (d - (t - e)))%Z.
      * apply rne_le; try lia. rewrite <- Z.pow_add_r by lia.
        replace (d - (t - e) + (t - e))%Z with d by lia. lia.
      * apply Z.pow_le_mono_r; lia.
    + rewrite rne_small; try lia.
      assert (2 ^ (d + 1) <= 2 ^ (t - e))%Z by (apply Z.pow_le_mono_r; lia).
      rewrite Z.pow_add_r, Z.pow_1_r in H by lia. lia.
  - intros Hn. apply rne_ge; try lia. rewrite <- Z.pow_add_r by lia.
    replace (52 + (t - e))%Z with (d - 1)%Z by lia. exact Hd1.
Qed.

Lemma shr_fexp_keep k t :
  (0 <= k < 2 ^ 53)%Z -> (-1074 <= t)%Z ->
  shr_fexp prec emax k t loc_Exact = (shr_record_of_loc k loc_Exact, t).
Proof.
  intros Hk Ht. unfold shr_fexp, shr. rewrite fexp_eq.
  assert (Hd : (Zdigits2 k <= 53)%Z).
  { destruct (Z.eq_dec k 0) as [->|Hne]; [simpl; lia|].
    destruct (digits_bounds k ltac:(lia)) as [H1 _].
    destruct (Z_le_gt_dec (Zdigits2 k) 53) as [H|H]; [exact H|exfalso].
    assert (2 ^ 53 <= 2 ^ (Zdigits2 k - 1))%Z by (apply Z.pow_le_mono_r; lia). lia. }
  destruct (Z.max (Zdigits2 k + t - 53) (-1074) - t)%Z eqn:E; try lia; reflexivity.
Qed.

Lemma shr_fexp_carry t :
  (-1074 <= t)%Z ->
  shr_fexp prec emax (2 ^ 53) t loc_Exact
  = (shr_record_of_loc (2 ^ 52) loc_Exact, (t + 1)%Z).
Proof.
  intros Ht. unfold shr_fexp, shr. rewrite fexp_eq.
  change (Zdigits2 (2 ^ 53)) with 54%Z.
  replace (Z.max (54 + t - 53) (-1074) - t)%Z with 1%Z by lia. reflexivity.
Qed.

Lemma binary_round_aux_RndPos m e :
  (0 < m)%Z -> (e <= fexp prec emax (Zdigits2 m + e))%Z ->
  RndPos (F2R m e) (binary_round_aux prec emax false m e loc_Exact).
Proof.
  intros Hm He.
  destruct (rne_bounds m e Hm He) as ([Hk0 Hk1] & Hk2).
  destruct (shr_fexp_rne m e Hm He) as [Hr Ht].
  set (E := (Zdigits2 m + e)%Z) in *. set (t := fexp prec emax E) in *.
  set (k := rne m (t - e)) in *.
  assert (Hte : t = Z.max (E - 53) (-1074)) by apply fexp_eq.
  exists E, k. split; [apply F2R_bounds, Hm|]. split.
  { pose proof (rne_nearest m e (t - e) ltac:(lia) ltac:(lia)) as Hn.
    replace (e + (t - e))%Z with t in Hn by lia. exact Hn. }
  unfold binary_round_aux.
  destruct (shr_fexp prec emax m e loc_Exact) as [mrs' e']. cbn [fst snd] in Hr, Ht.
  rewrite Hr, Ht.
  destruct (Z.eq_dec k (2 ^ 53)) as [Hc|Hc].
  - rewrite Hc, shr_fexp_carry by lia. cbn [shr_record_of_loc shr_m].
    change (2 ^ 52)%Z with (Zpos (2 ^ 52)).
    rewrite F2R_bpow by lia.
    assert (Hv : F2R (Zpos (2 ^ 52)) (t + 1) = bpow (53 + t)).
    { change (Zpos (2 ^ 52)) with (2 ^ 52)%Z. rewrite F2R_bpow by lia.
      f_equal. lia. }
    destruct (Z.leb_spec (t + 1) (emax - prec)) as [Hle|Hgt]; unfold emax, prec in *.
    + repeat split; [exact Hv|]. apply bpow_lt. lia.
    + split; [reflexivity|]. apply bpow_le. lia.
  - rewrite shr_fexp_keep by lia. rewrite shr_record_of_loc_m.
    destruct k as [|p|p] eqn:Ek; [split; reflexivity| |lia].
    destruct (Z.leb_spec t (emax - prec)) as [Hle|Hgt]; unfold emax, prec in *.
    + repeat split.
      apply Rlt_le_trans with (F2R (2 ^ 53) t).
      * unfold F2R. apply Rmult_lt_compat_r; [apply bpow_pos|apply IZR_lt; lia].
      * rewrite F2R_bpow by lia. apply bpow_le. lia.
    + split; [reflexivity|].
      apply Rle_trans with (F2R (2 ^ 52) t).
      * rewrite F2R_bpow by lia. apply bpow_le. lia.
      * apply F2R_le, Hk2. lia.
Qed.

(** ** Rounding is monotone *)

Lemma nearest_nonneg v g k : (0 < g)%R -> (0 <= v)%R -> nearest v g k -> (0 <= k)%Z.
Proof.
  intros Hg Hv Hn. apply (nearest_mono (IZR 0 * g) v g); auto using nearest_exact.
  lra.
Qed.

Lemma bpow_F2R E t : (t <= E)%Z -> bpow E = F2R (2 ^ (E - t)) t.
Proof. intros H. rewrite F2R_bpow by lia. f_equal. lia. Qed.

Lemma rounded_bounds v E k :
  let t := fexp prec emax E in
  (bpow (E - 1) <= v < bpow E)%R -> nearest v (bpow t) k ->
  (0 <= F2R k t <= bpow E)%R /\ ((t < E)%Z -> (bpow (E - 1) <= F2R k t)%R).
Proof.
  intros t [Hl Hu] Hn. pose proof (bpow_pos t) as Hg.
  pose proof (bpow_pos (E - 1)) as Hp.
  pose proof (nearest_nonneg v _ k Hg ltac:(lra) Hn) as Hk.
  split; [split|].
  - unfold F2R. apply Rmult_le_pos; [apply IZR_le, Hk|lra].
  - destruct (Z_le_gt_dec t E) as [Hle|Hgt].
    + rewrite (bpow_F2R E t) in * by lia.
      apply F2R_le.
      apply (nearest_mono v (F2R (2 ^ (E - t)) t) (bpow t));
        [exact Hg|lra|exact Hn|apply nearest_exact, Hg].
    + assert (Hh : (bpow E <= bpow t / 2)%R).
      { replace t with ((t - 1) + 1)%Z at 1 by lia. rewrite bpow_succ.
        pose proof (bpow_le E (t - 1) ltac:(lia)). lra. }
      destruct Hn as [[_ Hn] _].
      destruct (Z_le_gt_dec k 0) as [H0|H1].
      * replace k with 0%Z by lia. unfold F2R. pose proof (bpow_pos E). lra.
      * assert (1 <= IZR k)%R by (apply IZR_le; lia). nra.
  - intros Hlt. rewrite (bpow_F2R (E - 1) t) in * by lia.
    apply F2R_le.
    apply (nearest_mono (F2R (2 ^ (E - 1 - t)) t) v (bpow t));
      [exact Hg|lra|apply nearest_exact, Hg|exact Hn].
Qed.

Lemma rounded_mono v1 v2 E1 E2 k1 k2 :
  (v1 <= v2)%R ->
  (bpow (E1 - 1) <= v1 < bpow E1)%R -> nearest v1 (bpow (fexp prec emax E1)) k1 ->
  (bpow (E2 - 1) <= v2 < bpow E2)%R -> nearest v2 (bpow (fexp prec emax E2)) k2 ->
  (F2R k1 (fexp prec emax E1) <= F2R k2 (fexp prec emax E2))%R.
Proof.
  intros Hv Hb1 Hn1 Hb2 Hn2.
  assert (HE : (E1 <= E2)%Z).
  { assert (E1 - 1 < E2)%Z by (apply bpow_lt_inv; lra). lia. }
  destruct (rounded_bounds v1 E1 k1 Hb1 Hn1) as ([_ Hu1] & _).
  destruct (rounded_bounds v2 E2 k2 Hb2 Hn2) as (_ & Hl2).
  rewrite (fexp_eq E1), (fexp_eq E2) in *.
  destruct (Z.eq_dec (Z.max (E1 - 53) (-1074)) (Z.max (E2 - 53) (-1074))) as [Ht|Ht].
  - rewrite Ht in *. apply F2R_le.
    apply (nearest_mono v1 v2 (bpow (Z.max (E2 - 53) (-1074)))); auto using bpow_pos.
  - pose proof (bpow_le E1 (E2 - 1) ltac:(lia)). specialize (Hl2 ltac:(lia)). lra.
Qed.

(** ** The order of binary64 numbers is the order of their values *)

Lemma SFleb_pos_finite m1 e1 m2 e2 :
  canonical m1 e1 -> canonical m2 e2 ->
  (F2R (Zpos m1) e1 <= F2R (Zpos m2) e2)%R ->
  SFleb (S754_finite false m1 e1) (S754_finite false m2 e2) = true.
Proof.
  intros H1 H2 Hv.
  destruct (SFltb (S754_finite false m2 e2) (S754_finite false m1 e1)) eqn:Hlt;
    [exfalso|apply SFleb_total; congruence].
  pose proof (aligned_diff_gt _ _ _ _ _ _ H1 H2 Hlt) as Hd.
  unfold aligned_diff in Hd. cbv zeta in Hd. cbn [cond_Zopp] in Hd.
  rewrite !shl_align_value in Hd by lia.
  set (ez := Z.min e1 e2) in *.
  rewrite <- (F2R_scale (Zpos m1) e1 (e1 - ez)) in Hv by lia.
  rewrite <- (F2R_scale (Zpos m2) e2 (e2 - ez)) in Hv by lia.
  replace (e1 - (e1 - ez))%Z with ez in Hv by lia.
  replace (e2 - (e2 - ez))%Z with ez in Hv by lia.
  apply F2R_le_inv in Hv. lia.
Qed.

Lemma valid_canonical_SF s m e :
  valid_binary (S754_finite s m e) = true -> canonical m e /\ (e <= 971)%Z.
Proof.
  unfold SpecFloat.valid_binary, bounded, canonical_mantissa, fexp. intros H.
  apply andb_prop in H as [H1 H2]. apply Z.eqb_eq in H1. apply Z.leb_le in H2.
  split; [exact H1|exact H2].
Qed.

Lemma RndPos_leb v1 v2 r1 r2 :
  valid_binary r1 = true -> valid_binary r2 = true -> (v1 <= v2)%R ->
  RndPos v1 r1 -> RndPos v2 r2 -> SFleb r1 r2 = true.
Proof.
  intros V1 V2 Hv (E1 & k1 & Hb1 & Hn1 & R1) (E2 & k2 & Hb2 & Hn2 & R2).
  pose proof (rounded_mono v1 v2 E1 E2 k1 k2 Hv Hb1 Hn1 Hb2 Hn2) as Hm.
  destruct r1 as [s1|s1| |s1 m1 e1], r2 as [s2|s2| |s2 m2 e2];
    try contradiction;
    repeat match goal with H : _ /\ _ |- _ => destruct H end; subst;
    try reflexivity.
  - exfalso. unfold F2R in *. rewrite Rmult_0_l in *. pose proof (bpow_pos 1024). lra.
  - exfalso. lra.
  - exfalso. pose proof (F2R_pos (Zpos m1) e1 ltac:(lia)). unfold F2R in *.
    rewrite Rmult_0_l in *. lra.
  - apply valid_canonical_SF in V1 as [C1 _], V2 as [C2 _].
    apply SFleb_pos_finite; auto. lra.
Qed.

(** ** Signs *)

Lemma SFleb_opp a b : SFleb (SFopp a) (SFopp b) = SFleb b a.
Proof.
  unfold SFleb, SFcompare.
  destruct a as [[]|[]| |[] m1 e1], b as [[]|[]| |[] m2 e2]; try reflexivity;
    cbn [SFopp negb]; change (Pos.compare_cont Eq) with Pos.compare; cmp_cases;
    simpl; try reflexivity; lia.
Qed.

Lemma valid_opp r : valid_binary (SFopp r) = valid_binary r.
Proof. destruct r; reflexivity. Qed.

Lemma SFopp_involutive r : SFopp (SFopp r) = r.
Proof. destruct r as [[]|[]| |[] ? ?]; reflexivity. Qed.

Lemma SFR_opp x : SFR (SFopp x) = (- SFR x)%R.
Proof.
  destruct x as [s|s| |s m e]; simpl; try lra.
  destruct s; simpl; change (Z.neg m) with (- Zpos m)%Z; rewrite F2R_opp; lra.
Qed.

Lemma RndPos_nn v r : RndPos v r -> SFnn r /\ r <> S754_nan.
Proof.
  intros (E & k & _ & _ & H).
  destruct r as [s|s| |s m e]; simpl in *; try contradiction;
    destruct H as [-> _]; split; (exact I || discriminate).
Qed.

Lemma SFleb_signed r1 r2 :
  SFnn (SFopp r1) /\ SFopp r1 <> S754_nan -> SFnn r2 /\ r2 <> S754_nan ->
  SFleb r1 r2 = true.
Proof.
  destruct r1 as [[]|[]| |[] ? ?], r2 as [[]|[]| |[] ? ?]; simpl;
    intros [H1 N1] [H2 N2]; try contradiction; try congruence; reflexivity.
Qed.

Lemma zero_nn r : (exists s, r = S754_zero s) -> SFnn r /\ r <> S754_nan.
Proof. intros [s ->]. split; [exact I|discriminate]. Qed.

Lemma zero_opp_nn r :
  (exists s, r = S754_zero s) -> SFnn (SFopp r) /\ SFopp r <> S754_nan.
Proof. intros [s ->]. split; [exact I|discriminate]. Qed.

Lemma Rnd_leb v1 v2 r1 r2 :
  valid_binary r1 = true -> valid_binary r2 = true -> (v1 <= v2)%R ->
  Rnd v1 r1 -> Rnd v2 r2 -> SFleb r1 r2 = true.
Proof.
  intros V1 V2 Hv [[H1 Z1]|[[H1 R1]|[H1 R1]]] [[H2 Z2]|[[H2 R2]|[H2 R2]]];
    try lra.
  - apply SFleb_signed; auto using zero_nn, zero_opp_nn.
  - apply SFleb_signed; eauto using zero_opp_nn, RndPos_nn.
  - eapply RndPos_leb; eauto.
  - apply SFleb_signed; eauto using zero_nn, RndPos_nn.
  - apply SFleb_signed; eauto using RndPos_nn.
  - rewrite <- SFleb_opp. apply (RndPos_leb (- v2) (- v1)); auto; try lra;
      rewrite valid_opp; assumption.
Qed.

(** ** What the operations return *)

Lemma binary_round_aux_opp m e l :
  binary_round_aux prec emax true m e l
  = SFopp (binary_round_aux prec emax false m e l).
Proof.
  unfold binary_round_aux. destruct (shr_fexp prec emax m e l) as [a b].
  destruct (shr_fexp prec emax _ b loc_Exact) as [c d].
  destruct (shr_m c); try reflexivity. destruct (_ <=? _)%Z; reflexivity.
Qed.

Lemma binary_round_opp m e :
  binary_round prec emax true m e = SFopp (binary_round prec emax false m e).
Proof. unfold binary_round. destruct (shl_align _ _ _). apply binary_round_aux_opp. Qed.

Lemma shl_align_F2R m e t :
  F2R (Zpos (fst (shl_align m e t))) (snd (shl_align m e t)) = F2R (Zpos m) e
  /\ (snd (shl_align m e t) <= t)%Z.
Proof.
  unfold shl_align. destruct (t - e)%Z as [|d|d] eqn:Hd; cbn [fst snd];
    try (split; [reflexivity|lia]).
  unfold shift_pos. rewrite iter_xO_value. split; [|lia].
  replace t with (e - Zpos d)%Z by lia. apply F2R_scale. lia.
Qed.

Lemma binary_round_RndPos m e :
  RndPos (F2R (Zpos m) e) (binary_round prec emax false m e).
Proof.
  unfold binary_round. set (t := fexp prec emax (Zpos (digits2_pos m) + e)).
  pose proof (shl_align_digits m e t) as Hd.
  destruct (shl_align_F2R m e t) as [Hv Hle].
  destruct (shl_align m e t) as [mz ez]. cbn [fst snd] in *. rewrite <- Hv.
  apply binary_round_aux_RndPos; [lia|]. cbn [Zdigits2]. rewrite Hd. exact Hle.
Qed.

Lemma binary_normalize_Rnd m e s : Rnd (F2R m e) (binary_normalize prec emax m e s).
Proof.
  destruct m as [|p|p]; cbn [binary_normalize].
  - left. split; [unfold F2R; lra|eexists; reflexivity].
  - right. left. split; [apply F2R_pos; lia|apply binary_round_RndPos].
  - right. right. change (Z.neg p) with (- Zpos p)%Z. rewrite F2R_opp.
    pose proof (F2R_pos (Zpos p) e ltac:(lia)). split; [lra|].
    rewrite binary_round_opp, SFopp_involutive, Ropp_involutive.
    apply binary_round_RndPos.
Qed.

Lemma RndPos_exact m e :
  canonical m e -> (e <= 971)%Z -> RndPos (F2R (Zpos m) e) (S754_finite false m e).
Proof.
  intros Hc He. exists (Zpos (digits2_pos m) + e)%Z, (Zpos m).
  assert (Ht : fexp prec emax (Zpos (digits2_pos m) + e) = e).
  { rewrite fexp_eq. exact Hc. }
  rewrite Ht. split; [apply (F2R_bounds (Zpos m) e); lia|].
  split; [apply nearest_exact, bpow_pos|]. repeat split.
  pose proof (canonical_upper _ _ Hc) as Hu.
  apply Rlt_le_trans with (F2R (2 ^ 53) e).
  - unfold F2R. apply Rmult_lt_compat_r; [apply bpow_pos|apply IZR_lt, Hu].
  - rewrite F2R_bpow by lia. apply bpow_le. lia.
Qed.

Lemma Rnd_exact x : valid_binary x = true -> SFfin x -> Rnd (SFR x) x.
Proof.
  destruct x as [s|s| |s m e]; try contradiction; intros Hv _.
  - left. split; [reflexivity|eexists; reflexivity].
  - apply valid_canonical_SF in Hv as [Hc He].
    pose proof (F2R_pos (Zpos m) e ltac:(lia)) as Hp.
    destruct s; cbn [SFR cond_Zopp].
    + right. right. change (- Zpos m)%Z with (- Zpos m)%Z. rewrite F2R_opp.
      split; [lra|]. rewrite Ropp_involutive. apply RndPos_exact; assumption.
    + right. left. split; [exact Hp|]. apply RndPos_exact; assumption.
Qed.

Lemma cond_Zopp_mul s a b : (cond_Zopp s a * b)%Z = cond_Zopp s (a * b).
Proof. destruct s; simpl; lia. Qed.

Lemma SFR_aligned s m e ez :
  (ez <= e)%Z ->
  F2R (cond_Zopp s (Zpos m)) e = F2R (cond_Zopp s (Zpos (fst (shl_align m e ez)))) ez.
Proof.
  intros H. rewrite shl_align_value by exact H. rewrite <- cond_Zopp_mul.
  replace ez with (e - (e - ez))%Z at 2 by lia. rewrite F2R_scale by lia. reflexivity.
Qed.

Lemma SFleb_SFR x y :
  valid_binary x = true -> valid_binary y = true -> SFfin x -> SFfin y ->
  SFleb x y = true -> (SFR x <= SFR y)%R.
Proof.
  destruct x as [sx|sx| |sx mx ex], y as [sy|sy| |sy my ey]; try contradiction;
    intros Vx Vy _ _ H; cbn [SFR].
  - lra.
  - destruct sy; [discriminate|]. apply Rlt_le, F2R_pos. reflexivity.
  - destruct sx; [|discriminate]. change (cond_Zopp true (Zpos mx)) with (- Zpos mx)%Z.
    rewrite F2R_opp. pose proof (F2R_pos (Zpos mx) ex ltac:(lia)). lra.
  - apply valid_canonical_SF in Vx as [Cx _], Vy as [Cy _].
    pose proof (aligned_diff_le _ _ _ _ _ _ Cx Cy H) as Hd.
    unfold aligned_diff in Hd. cbv zeta in Hd.
    rewrite (SFR_aligned sx mx ex (Z.min ex ey)), (SFR_aligned sy my ey (Z.min ex ey))
      by lia.
    apply F2R_le. lia.
Qed.

Lemma SFsub_Rnd x y :
  valid_binary x = true -> valid_binary y = true -> SFfin x -> SFfin y ->
  Rnd (SFR x - SFR y) (SF64sub x y).
Proof.
  destruct x as [sx|sx| |sx mx ex], y as [sy|sy| |sy my ey]; try contradiction;
    intros Vx Vy _ _; unfold SF64sub, SFsub.
  - left. split; [simpl; lra|]. destruct sx, sy; eexists; reflexivity.
  - replace (SFR (S754_zero sx) - SFR (S754_finite sy my ey))%R
      with (SFR (SFopp (S754_finite sy my ey))) by (rewrite SFR_opp; simpl; lra).
    apply (Rnd_exact (SFopp (S754_finite sy my ey)));
      [rewrite valid_opp; exact Vy|exact I].
  - replace (SFR (S754_finite sx mx ex) - SFR (S754_zero sy))%R
      with (SFR (S754_finite sx mx ex)) by (simpl; lra).
    apply Rnd_exact; [exact Vx|exact I].
  - cbv zeta. cbn [SFR].
    rewrite (SFR_aligned sx mx ex (Z.min ex ey)), (SFR_aligned sy my ey (Z.min ex ey))
      by lia.
    rewrite <- F2R_sub. apply binary_normalize_Rnd.
Qed.

Lemma SFadd_Rnd x y :
  valid_binary x = true -> valid_binary y = true -> SFfin x -> SFfin y ->
  Rnd (SFR x + SFR y) (SF64add x y).
Proof.
  destruct x as [sx|sx| |sx mx ex], y as [sy|sy| |sy my ey]; try contradiction;
    intros Vx Vy _ _; unfold SF64add, SFadd.
  - left. split; [simpl; lra|]. destruct sx, sy; eexists; reflexivity.
  - replace (SFR (S754_zero sx) + SFR (S754_finite sy my ey))%R
      with (SFR (S754_finite sy my ey)) by (simpl; lra).
    apply Rnd_exact; [exact Vy|exact I].
  - replace (SFR (S754_finite sx mx ex) + SFR (S754_zero sy))%R
      with (SFR (S754_finite sx mx ex)) by (simpl; lra).
    apply Rnd_exact; [exact Vx|exact I].
  - cbv zeta. cbn [SFR].
    rewrite (SFR_aligned sx mx ex (Z.min ex ey)), (SFR_aligned sy my ey (Z.min ex ey))
      by lia.
    rewrite <- F2R_add. apply binary_normalize_Rnd.
Qed.

Lemma canonical_mul_exponent mx ex my ey :
  canonical mx ex -> canonical my ey ->
  (ex + ey <= fexp prec emax (Zdigits2 (Zpos (mx * my)) + (ex + ey)))%Z.
Proof.
  unfold canonical. intros Hx Hy. rewrite fexp_eq.
  pose proof (Zdigits2_mul (Zpos mx) (Zpos my) ltac:(lia) ltac:(lia)) as Hd.
  change (Zpos mx * Zpos my)%Z with (Zpos (mx * my)) in Hd.
  cbn [Zdigits2] in *.
  assert (0 < Zpos (digits2_pos mx))%Z by lia.
  assert (0 < Zpos (digits2_pos my))%Z by lia. lia.
Qed.

Lemma F2R_mul a ea b eb : F2R (a * b) (ea + eb) = (F2R a ea * F2R b eb)%R.
Proof. unfold F2R. rewrite mult_IZR, bpow_add. ring. Qed.

Lemma SFmul_Rnd x y :
  valid_binary x = true -> valid_binary y = true -> SFfin x -> SFfin y ->
  Rnd (SFR x * SFR y) (SF64mul x y).
Proof.
  destruct x as [sx|sx| |sx mx ex], y as [sy|sy| |sy my ey]; try contradiction;
    intros Vx Vy _ _; unfold SF64mul, SFmul;
    try (left; split; [simpl; lra|eexists; reflexivity]).
  apply valid_canonical_SF in Vx as [Cx _], Vy as [Cy _].
  pose proof (canonical_mul_exponent mx ex my ey Cx Cy) as He.
  pose proof (binary_round_aux_RndPos (Zpos (mx * my)) (ex + ey) ltac:(lia) He) as Hr.
  change (Zpos (mx * my)) with (Zpos mx * Zpos my)%Z in Hr at 1.
  rewrite F2R_mul in Hr.
  pose proof (F2R_pos (Zpos mx) ex ltac:(lia)) as Px.
  pose proof (F2R_pos (Zpos my) ey ltac:(lia)) as Py.
  assert (0 < F2R (Zpos mx) ex * F2R (Zpos my) ey)%R by (apply Rmult_lt_0_compat; assumption).
  cbn [SFR].
  destruct sx, sy; cbn [xorb cond_Zopp];
    change (- Zpos mx)%Z with (- Zpos mx)%Z; rewrite ?F2R_opp.
  - right. left. split; [lra|].
    replace (- F2R (Zpos mx) ex * - F2R (Zpos my) ey)%R
      with (F2R (Zpos mx) ex * F2R (Zpos my) ey)%R by ring. exact Hr.
  - right. right. split; [nra|]. rewrite binary_round_aux_opp, SFopp_involutive.
    replace (- (- F2R (Zpos mx) ex * F2R (Zpos my) ey))%R
      with (F2R (Zpos mx) ex * F2R (Zpos my) ey)%R by ring. exact Hr.
  - right. right. split; [nra|]. rewrite binary_round_aux_opp, SFopp_involutive.
    replace (- (F2R (Zpos mx) ex * - F2R (Zpos my) ey))%R
      with (F2R (Zpos mx) ex * F2R (Zpos my) ey)%R by ring. exact Hr.
  - right. left. split; [lra|]. exact Hr.
Qed.

(** ** Infinite operands *)

Lemma SF_cases x : x = S754_nan \/ (exists s, x = S754_infinity s) \/ SFfin x.
Proof. destruct x; simpl; eauto. Qed.

Lemma SFleb_neg_inf r : r <> S754_nan -> SFleb (S754_infinity true) r = true.
Proof. destruct r as [[]|[]| |[] ? ?]; try reflexivity; congruence. Qed.

Lemma SFleb_pos_inf r : r <> S754_nan -> SFleb r (S754_infinity false) = true.
Proof. destruct r as [[]|[]| |[] ? ?]; try reflexivity; congruence. Qed.

Lemma SFleb_inf_l x : SFleb (S754_infinity false) x = true -> x = S754_infinity false.
Proof. destruct x as [[]|[]| |[] ? ?]; try discriminate; reflexivity. Qed.

Lemma SFleb_inf_r x : SFleb x (S754_infinity true) = true -> x = S754_infinity true.
Proof. destruct x as [[]|[]| |[] ? ?]; try discriminate; reflexivity. Qed.

Lemma SFleb_nan_l x : SFleb S754_nan x = false.
Proof. reflexivity. Qed.

Lemma SFleb_nan_r x : SFleb x S754_nan = false.
Proof. destruct x; reflexivity. Qed.

Lemma SFsub_inf_r x s :
  SF64sub x (S754_infinity s) <> S754_nan ->
  SF64sub x (S754_infinity s) = S754_infinity (negb s).
Proof. destruct x as [[]|[]| |[] ? ?], s; simpl; congruence. Qed.

Lemma SFsub_inf_l s y :
  SF64sub (S754_infinity s) y <> S754_nan ->
  SF64sub (S754_infinity s) y = S754_infinity s.
Proof. destruct y as [[]|[]| |[] ? ?], s; simpl; congruence. Qed.

Lemma SFsub_nan_r x : SF64sub x S754_nan = S754_nan.
Proof. destruct x; reflexivity. Qed.

Lemma SFadd_inf_r x s :
  SF64add x (S754_infinity s) <> S754_nan ->
  SF64add x (S754_infinity s) = S754_infinity s.
Proof. destruct x as [[]|[]| |[] ? ?], s; simpl; congruence. Qed.

Lemma SFadd_inf_l s y :
  SF64add (S754_infinity s) y <> S754_nan ->
  SF64add (S754_infinity s) y = S754_infinity s.
Proof. destruct y as [[]|[]| |[] ? ?], s; simpl; congruence. Qed.

Lemma SFadd_nan_r x : SF64add x S754_nan = S754_nan.
Proof. destruct x; reflexivity. Qed.

(** ** Subtraction, addition and multiplication are monotone *)

Lemma SFsub_mono_l x1 x2 y :
  valid_binary x1 = true -> valid_binary x2 = true -> valid_binary y = true ->
  valid_binary (SF64sub x1 y) = true -> valid_binary (SF64sub x2 y) = true ->
  SFleb x1 x2 = true ->
  SF64sub x1 y <> S754_nan -> SF64sub x2 y <> S754_nan ->
  SFleb (SF64sub x1 y) (SF64sub x2 y) = true.
Proof.
  intros V1 V2 Vy W1 W2 Hle N1 N2.
  destruct (SF_cases y) as [->|[[sy ->]|Fy]].
  - rewrite SFsub_nan_r in N1. congruence.
  - rewrite (SFsub_inf_r x1 sy N1), (SFsub_inf_r x2 sy N2). destruct sy; reflexivity.
  - destruct (SF_cases x1) as [->|[[s1 ->]|F1]].
    + discriminate.
    + rewrite (SFsub_inf_l s1 y N1). destruct s1.
      * apply SFleb_neg_inf, N2.
      * apply SFleb_inf_l in Hle. subst x2. rewrite (SFsub_inf_l false y N2).
        reflexivity.
    + destruct (SF_cases x2) as [->|[[s2 ->]|F2]].
      * rewrite SFleb_nan_r in Hle. discriminate.
      * rewrite (SFsub_inf_l s2 y N2). destruct s2.
        -- apply SFleb_inf_r in Hle. subst x1. contradiction.
        -- apply SFleb_pos_inf, N1.
      * apply (Rnd_leb (SFR x1 - SFR y) (SFR x2 - SFR y)); auto using SFsub_Rnd.
        pose proof (SFleb_SFR x1 x2 V1 V2 F1 F2 Hle). lra.
Qed.

Lemma SFsub_mono_r x y1 y2 :
  valid_binary x = true -> valid_binary y1 = true -> valid_binary y2 = true ->
  valid_binary (SF64sub x y1) = true -> valid_binary (SF64sub x y2) = true ->
  SFleb y1 y2 = true ->
  SF64sub x y1 <> S754_nan -> SF64sub x y2 <> S754_nan ->
  SFleb (SF64sub x y2) (SF64sub x y1) = true.
Proof.
  intros Vx V1 V2 W1 W2 Hle N1 N2.
  destruct (SF_cases x) as [->|[[sx ->]|Fx]].
  - simpl in N1. congruence.
  - rewrite (SFsub_inf_l sx y1 N1), (SFsub_inf_l sx y2 N2). destruct sx; reflexivity.
  - destruct (SF_cases y1) as [->|[[s1 ->]|F1]].
    + discriminate.
    + rewrite (SFsub_inf_r x s1 N1). destruct s1.
      * apply SFleb_pos_inf, N2.
      * apply SFleb_inf_l in Hle. subst y2. rewrite (SFsub_inf_r x false N2).
        reflexivity.
    + destruct (SF_cases y2) as [->|[[s2 ->]|F2]].
      * rewrite SFleb_nan_r in Hle. discriminate.
      * rewrite (SFsub_inf_r x s2 N2). destruct s2.
        -- apply SFleb_inf_r in Hle. subst y1. contradiction.
        -- apply SFleb_neg_inf, N1.
      * apply (Rnd_leb (SFR x - SFR y2) (SFR x - SFR y1)); auto using SFsub_Rnd.
        pose proof (SFleb_SFR y1 y2 V1 V2 F1 F2 Hle). lra.
Qed.

Lemma SFadd_mono x1 x2 y1 y2 :
  valid_binary x1 = true -> valid_binary x2 = true ->
  valid_binary y1 = true -> valid_binary y2 = true ->
  valid_binary (SF64add x1 y1) = true -> valid_binary (SF64add x2 y2) = true ->
  SFleb x1 x2 = true -> SFleb y1 y2 = true ->
  SF64add x1 y1 <> S754_nan -> SF64add x2 y2 <> S754_nan ->
  SFleb (SF64add x1 y1) (SF64add x2 y2) = true.
Proof.
  intros Vx1 Vx2 Vy1 Vy2 W1 W2 Hx Hy N1 N2.
  destruct (SF_cases x1) as [->|[[s1 ->]|F1]]; [discriminate| |].
  { rewrite (SFadd_inf_l s1 y1 N1). destruct s1; [apply SFleb_neg_inf, N2|].
    apply SFleb_inf_l in Hx. subst x2. rewrite (SFadd_inf_l false y2 N2). reflexivity. }
  destruct (SF_cases y1) as [->|[[t1 ->]|G1]]; [discriminate| |].
  { rewrite (SFadd_inf_r x1 t1 N1). destruct t1; [apply SFleb_neg_inf, N2|].
    apply SFleb_inf_l in Hy. subst y2. rewrite (SFadd_inf_r x2 false N2). reflexivity. }
  destruct (SF_cases x2) as [->|[[s2 ->]|F2]].
  { rewrite SFleb_nan_r in Hx. discriminate. }
  { rewrite (SFadd_inf_l s2 y2 N2). destruct s2; [|apply SFleb_pos_inf, N1].
    apply SFleb_inf_r in Hx. subst x1. contradiction. }
  destruct (SF_cases y2) as [->|[[t2 ->]|G2]].
  { rewrite SFleb_nan_r in Hy. discriminate. }
  { rewrite (SFadd_inf_r x2 t2 N2). destruct t2; [|apply SFleb_pos_inf, N1].
    apply SFleb_inf_r in Hy. subst y1. contradiction. }
  apply (Rnd_leb (SFR x1 + SFR y1) (SFR x2 + SFR y2)); auto using SFadd_Rnd.
  pose proof (SFleb_SFR x1 x2 Vx1 Vx2 F1 F2 Hx).
  pose proof (SFleb_SFR y1 y2 Vy1 Vy2 G1 G2 Hy). lra.
Qed.

Lemma SFmul_inf_r x :
  SF64mul x (S754_infinity false) <> S754_nan ->
  exists s, SFnonzero s x /\ SF64mul x (S754_infinity false) = S754_infinity s.
Proof.
  destruct x as [s|s| |s m e]; simpl; try congruence; intros _; exists s;
    rewrite xorb_false_r; split; reflexivity.
Qed.

Lemma SFmul_inf_l s c :
  SFleb (S754_zero false) c = true -> SF64mul (S754_infinity s) c <> S754_nan ->
  SF64mul (S754_infinity s) c = S754_infinity s.
Proof.
  destruct c as [[]|[]| |[] ? ?], s; simpl; try congruence; discriminate.
Qed.

Lemma SFnonzero_leb x1 x2 :
  SFnonzero false x1 -> SFleb x1 x2 = true -> SFnonzero false x2.
Proof.
  destruct x1 as [[]|[]| |[] ? ?], x2 as [[]|[]| |[] ? ?]; simpl;
    try discriminate; try contradiction; reflexivity.
Qed.

Lemma SFmul_mono_r x1 x2 c :
  valid_binary x1 = true -> valid_binary x2 = true -> valid_binary c = true ->
  valid_binary (SF64mul x1 c) = true -> valid_binary (SF64mul x2 c) = true ->
  SFleb (S754_zero false) c = true -> SFleb x1 x2 = true ->
  SF64mul x1 c <> S754_nan -> SF64mul x2 c <> S754_nan ->
  SFleb (SF64mul x1 c) (SF64mul x2 c) = true.
Proof.
  intros V1 V2 Vc W1 W2 Hc Hle N1 N2.
  destruct (SF_cases c) as [->|[[sc ->]|Fc]]; [discriminate| |].
  - destruct sc; [discriminate|].
    destruct (SFmul_inf_r x1 N1) as (s1 & S1 & ->).
    destruct (SFmul_inf_r x2 N2) as (s2 & S2 & ->).
    destruct s1; [apply SFleb_neg_inf; discriminate|].
    pose proof (SFnonzero_leb x1 x2 S1 Hle) as S2'.
    destruct x2 as [[]|[]| |[] ? ?]; simpl in S2, S2'; subst; try contradiction;
      try discriminate; reflexivity.
  - destruct (SF_cases x1) as [->|[[s1 ->]|F1]]; [discriminate| |].
    + rewrite (SFmul_inf_l s1 c Hc N1). destruct s1; [apply SFleb_neg_inf, N2|].
      apply SFleb_inf_l in Hle. subst x2. rewrite (SFmul_inf_l false c Hc N2).
      reflexivity.
    + destruct (SF_cases x2) as [->|[[s2 ->]|F2]].
      * rewrite SFleb_nan_r in Hle. discriminate.
      * rewrite (SFmul_inf_l s2 c Hc N2). destruct s2; [|apply SFleb_pos_inf, N1].
        apply SFleb_inf_r in Hle. subst x1. contradiction.
      * apply (Rnd_leb (SFR x1 * SFR c) (SFR x2 * SFR c)); auto using SFmul_Rnd.
        pose proof (SFleb_SFR x1 x2 V1 V2 F1 F2 Hle).
        pose proof (SFleb_SFR (S754_zero false) c eq_refl Vc I Fc Hc) as H0.
        simpl in H0. nra.
Qed.

(** ** The same on the page's numbers *)

Lemma valid_sub x y : valid_binary (SF64sub (Prim2SF x) (Prim2SF y)) = true.
Proof. rewrite <- FloatAxioms.sub_spec. apply Prim2SF_valid. Qed.

Lemma valid_add x y : valid_binary (SF64add (Prim2SF x) (Prim2SF y)) = true.
Proof. rewrite <- FloatAxioms.add_spec. apply Prim2SF_valid. Qed.

Lemma valid_mul x y : valid_binary (SF64mul (Prim2SF x) (Prim2SF y)) = true.
Proof. rewrite <- FloatAxioms.mul_spec. apply Prim2SF_valid. Qed.

Lemma sub_mono_l x1 x2 y :
  (x1 <=? x2) = true -> is_nan (x1 - y) = false -> is_nan (x2 - y) = false ->
  (x1 - y <=? x2 - y) = true.
Proof.
  rewrite !is_nan_false, !FloatAxioms.leb_spec, !FloatAxioms.sub_spec.
  intros; apply SFsub_mono_l; auto using Prim2SF_valid, valid_sub.
Qed.

Lemma sub_mono_r x y1 y2 :
  (y1 <=? y2) = true -> is_nan (x - y1) = false -> is_nan (x - y2) = false ->
  (x - y2 <=? x - y1) = true.
Proof.
  rewrite !is_nan_false, !FloatAxioms.leb_spec, !FloatAxioms.sub_spec.
  intros; apply SFsub_mono_r; auto using Prim2SF_valid, valid_sub.
Qed.

Lemma add_mono x1 x2 y1 y2 :
  (x1 <=? x2) = true -> (y1 <=? y2) = true ->
  is_nan (x1 + y1) = false -> is_nan (x2 + y2) = false ->
  (x1 + y1 <=? x2 + y2) = true.
Proof.
  rewrite !is_nan_false, !FloatAxioms.leb_spec, !FloatAxioms.add_spec.
  intros; apply SFadd_mono; auto using Prim2SF_valid, valid_add.
Qed.

Lemma mul_mono_r x1 x2 c :
  (0 <=? c) = true -> (x1 <=? x2) = true ->
  is_nan (x1 * c) = false -> is_nan (x2 * c) = false ->
  (x1 * c <=? x2 * c) = true.
Proof.
  rewrite !is_nan_false, !FloatAxioms.leb_spec, !FloatAxioms.mul_spec.
  change (Prim2SF 0) with (S754_zero false).
  intros; apply SFmul_mono_r; auto using Prim2SF_valid, valid_mul.
Qed.

Lemma add_nan_operands x y :
  is_nan (x + y) = false -> is_nan x = false /\ is_nan y = false.
Proof.
  rewrite !is_nan_false, FloatAxioms.add_spec. unfold SF64add, SFadd.
  destruct (Prim2SF x), (Prim2SF y); split; congruence.
Qed.

Lemma mul_nan_operands x y :
  is_nan (x * y) = false -> is_nan x = false /\ is_nan y = false.
Proof.
  rewrite !is_nan_false, FloatAxioms.mul_spec. unfold SF64mul, SFmul.
  destruct (Prim2SF x), (Prim2SF y); split; congruence.
Qed.

Lemma max_0_nan_operand v : is_nan (Math.max [0; v]) = false -> is_nan v = false.
Proof. rewrite max_0. destruct (is_nan v); [discriminate|reflexivity]. Qed.

Lemma max_0_mono v1 v2 :
  (v1 <=? v2) = true -> (Math.max [0; v1] <=? Math.max [0; v2]) = true.
Proof.
  intros H. pose proof (leb_notnan_l _ _ H) as N1. pose proof (leb_notnan_r _ _ H) as N2.
  rewrite !max_0, N1, N2.
  destruct (0 <? v1) eqn:H1, (0 <? v2) eqn:H2; auto using ltb_leb.
  pose proof (ltb_leb_trans _ _ _ H1 H). congruence.
Qed.

(** * What a battery and a capacity do to the charges *)

Lemma sub_0_r x : x - 0 = x.
Proof.
  apply Prim2SF_inj. rewrite FloatAxioms.sub_spec.
  change (Prim2SF 0) with (S754_zero false).
  destruct (Prim2SF x) as [[]|[]| |[] ? ?]; reflexivity.
Qed.

Lemma add_0_r_leb x : is_nan x = false -> (x <=? x + 0) = true.
Proof.
  rewrite is_nan_false, FloatAxioms.leb_spec, FloatAxioms.add_spec.
  change (Prim2SF 0) with (S754_zero false).
  destruct (Prim2SF x) as [[]|[]| |[] m e]; try congruence; intros _;
    try reflexivity; apply SFleb_refl; discriminate.
Qed.

Lemma add_nonneg x y :
  (0 <=? x) = true -> (0 <=? y) = true -> (0 <=? x + y) = true.
Proof.
  intros Hx Hy.
  pose proof (add_neverNegative x y (leb_neverNegative _ Hx) (leb_neverNegative _ Hy))
    as H.
  unfold neverNegative in H.
  assert (Hn : is_nan (x + y) = false).
  { revert Hx Hy. rewrite is_nan_false, !FloatAxioms.leb_spec, FloatAxioms.add_spec.
    change (Prim2SF 0) with (S754_zero false). unfold SF64add, SFadd.
    destruct (Prim2SF x) as [[]|[]| |[] ? ?], (Prim2SF y) as [[]|[]| |[] ? ?];
      try discriminate; intros _ _; try discriminate.
    apply binary_normalize_notnan. }
  rewrite Hn in H. exact H.
Qed.

Lemma mul_nonneg x y :
  (0 <=? x) = true -> (0 <=? y) = true -> is_nan (x * y) = false ->
  (0 <=? x * y) = true.
Proof.
  intros Hx Hy Hn.
  pose proof (mul_neverNegative x y (leb_neverNegative _ Hx) (leb_neverNegative _ Hy))
    as H.
  unfold neverNegative in H. rewrite Hn in H. exact H.
Qed.

Lemma mul_finite_l_notnan x y : finite x -> is_nan y = false -> is_nan (x * y) = false.
Proof.
  unfold finite. rewrite !is_nan_false, FloatAxioms.mul_spec. unfold SF64mul, SFmul.
  destruct (Prim2SF x) as [[]|[]| |[] ? ?]; try contradiction; intros _;
    destruct (Prim2SF y) as [[]|[]| |[] ? ?]; try congruence; intros _;
    try discriminate;
    match goal with
    | |- binary_round_aux _ _ ?s ?m ?e _ <> _ =>
        pose proof (binary_round_aux_signed s m e loc_Exact ltac:(lia)) as H;
        intros E; rewrite E in H; exact H
    end.
Qed.

Lemma sub_finite_r_notnan x y : is_nan x = false -> finite y -> is_nan (x - y) = false.
Proof.
  unfold finite. rewrite !is_nan_false, FloatAxioms.sub_spec. unfold SF64sub, SFsub.
  destruct (Prim2SF y) as [[]|[]| |[] ? ?]; try contradiction;
    destruct (Prim2SF x) as [[]|[]| |[] ? ?]; try congruence; intros _ _;
    try discriminate; apply binary_normalize_notnan.
Qed.

Lemma zero_mul_nonneg y : is_nan (0 * y) = false -> (0 <=? 0 * y) = true.
Proof.
  rewrite is_nan_false, FloatAxioms.leb_spec, FloatAxioms.mul_spec.
  change (Prim2SF 0) with (S754_zero false).
  destruct (Prim2SF y) as [[]|[]| |[] ? ?]; simpl; try congruence; reflexivity.
Qed.

(** ** One month *)

Lemma charge_notnan rates e c :
  is_nan (calculateMonthlyCharge rates e c) = false ->
  is_nan (c * contractedRate rates) = false
  /\ is_nan (Math.max [0; e - c] * exceedanceRate rates) = false
  /\ is_nan (e - c) = false.
Proof.
  unfold calculateMonthlyCharge. intros H. apply add_nan_operands in H as [H1 H2].
  split; [exact H1|split; [exact H2|]].
  apply mul_nan_operands in H2 as [H2 _]. apply max_0_nan_operand, H2.
Qed.

Lemma charge_mono_demand rates e1 e2 c :
  (0 <=? exceedanceRate rates) = true -> (e1 <=? e2) = true ->
  is_nan (calculateMonthlyCharge rates e1 c) = false ->
  is_nan (calculateMonthlyCharge rates e2 c) = false ->
  (calculateMonthlyCharge rates e1 c <=? calculateMonthlyCharge rates e2 c) = true.
Proof.
  intros Hr He N1 N2.
  destruct (charge_notnan _ _ _ N1) as (A1 & B1 & C1).
  destruct (charge_notnan _ _ _ N2) as (A2 & B2 & C2).
  unfold calculateMonthlyCharge in *. apply add_mono; try assumption.
  - apply leb_refl, A1.
  - apply mul_mono_r; try assumption. apply max_0_mono, sub_mono_l; assumption.
Qed.

Lemma charge_at_least_fixed rates e c :
  (0 <=? exceedanceRate rates) = true ->
  is_nan (calculateMonthlyCharge rates e c) = false ->
  (c * contractedRate rates <=? calculateMonthlyCharge rates e c) = true.
Proof.
  intros Hr N. destruct (charge_notnan _ _ _ N) as (A & B & C).
  pose proof (add_0_r_leb _ A) as H0.
  apply leb_trans with (c * contractedRate rates + 0); [exact H0|].
  unfold calculateMonthlyCharge in *. apply add_mono; try assumption.
  - apply leb_refl, A.
  - apply mul_nonneg; try assumption.
    pose proof (max_0_neverNegative (e - c)) as Hm. unfold neverNegative in Hm.
    apply mul_nan_operands in B as [B _]. rewrite B in Hm. exact Hm.
  - apply (leb_notnan_r _ _ H0).
Qed.

(** ** Sums *)

Lemma sum_from_notnan xs : forall acc,
  is_nan (fold_left (fun sum c => sum + c) xs acc) = false ->
  is_nan acc = false /\ Forall (fun x => is_nan x = false) xs.
Proof.
  induction xs as [|x xs IH]; simpl; intros acc H; [auto|].
  apply IH in H as [H1 H2]. apply add_nan_operands in H1 as [Ha Hx]. auto.
Qed.

Lemma sum_from_mono xs ys :
  Forall2 (fun x y => (x <=? y) = true) xs ys ->
  forall a b, (a <=? b) = true ->
  is_nan (fold_left (fun sum c => sum + c) xs a) = false ->
  is_nan (fold_left (fun sum c => sum + c) ys b) = false ->
  (fold_left (fun sum c => sum + c) xs a <=? fold_left (fun sum c => sum + c) ys b)
  = true.
Proof.
  induction 1 as [|x y xs ys Hxy _ IH]; simpl; intros a b Hab N1 N2; [exact Hab|].
  apply IH; try assumption. apply add_mono; try assumption.
  - apply (sum_from_notnan xs _ N1).
  - apply (sum_from_notnan ys _ N2).
Qed.

Lemma sum_from_nonneg xs : forall acc,
  (0 <=? acc) = true -> Forall (fun x => (0 <=? x) = true) xs ->
  (0 <=? fold_left (fun sum c => sum + c) xs acc) = true.
Proof.
  induction xs as [|x xs IH]; simpl; intros acc Ha Hx; [exact Ha|].
  inversion Hx; subst. apply IH; auto using add_nonneg.
Qed.

Lemma Forall2_map_in {A B C} (P : B -> C -> Prop) (f : A -> B) (g : A -> C) l :
  (forall x, In x l -> P (f x) (g x)) -> Forall2 P (map f l) (map g l).
Proof.
  induction l as [|x l IH]; simpl; intros H; constructor; auto.
Qed.

(** ** The battery *)

Lemma effectiveDemands_mono_battery demands st1 st2 :
  (batteryCapacity st1 <=? batteryCapacity st2) = true ->
  noNaN (effectiveDemands demands st1) = true ->
  noNaN (effectiveDemands demands st2) = true ->
  Forall2 (fun e2 e1 => (e2 <=? e1) = true)
          (effectiveDemands demands st2) (effectiveDemands demands st1).
Proof.
  intros Hb N1 N2. unfold effectiveDemands in *. apply Forall2_map_in. intros d Hd.
  unfold noNaN in *. rewrite forallb_forall in N1, N2.
  apply max_0_mono, sub_mono_r; try assumption; apply max_0_nan_operand.
  - specialize (N1 _ (in_map _ _ _ Hd)). apply negb_true_iff in N1. exact N1.
  - specialize (N2 _ (in_map _ _ _ Hd)). apply negb_true_iff in N2. exact N2.
Qed.

Lemma total_notnan demands rates st c :
  is_nan (calculateTotalCharge demands rates st c) = false ->
  forall eff, In eff (effectiveDemands demands st) ->
    is_nan (calculateMonthlyCharge rates eff c) = false /\ is_nan eff = false.
Proof.
  unfold calculateTotalCharge, sum. intros H eff Hin.
  destruct (sum_from_notnan _ _ H) as [_ F]. rewrite Forall_forall in F.
  pose proof (F _ (in_map _ _ _ Hin)) as N. split; [exact N|].
  destruct (charge_notnan _ _ _ N) as (_ & _ & C).
  apply (sub_nan_operands _ _ C).
Qed.

Lemma noNaN_forall l : (forall x, In x l -> is_nan x = false) -> noNaN l = true.
Proof.
  intros H. apply forallb_forall. intros x Hx. rewrite (H x Hx). reflexivity.
Qed.

Lemma calculateTotalCharge_mono_battery demands rates st1 st2 c :
  (0 <=? exceedanceRate rates) = true ->
  (batteryCapacity st1 <=? batteryCapacity st2) = true ->
  is_nan (calculateTotalCharge demands rates st1 c) = false ->
  is_nan (calculateTotalCharge demands rates st2 c) = false ->
  (calculateTotalCharge demands rates st2 c <=? calculateTotalCharge demands rates st1 c)
  = true.
Proof.
  intros Hr Hb N1 N2.
  pose proof (total_notnan _ _ _ _ N1) as T1. pose proof (total_notnan _ _ _ _ N2) as T2.
  unfold calculateTotalCharge, sum in *.
  apply sum_from_mono; try assumption; [|reflexivity].
  unfold effectiveDemands in *. rewrite !map_map. apply Forall2_map_in. intros d Hd.
  destruct (T1 _ (in_map (fun demand => Math.max [0; demand - batteryCapacity st1])
                          _ _ Hd)) as [C1 E1].
  destruct (T2 _ (in_map (fun demand => Math.max [0; demand - batteryCapacity st2])
                          _ _ Hd)) as [C2 E2].
  apply charge_mono_demand; try assumption.
  apply max_0_mono, sub_mono_r; try assumption; apply max_0_nan_operand; assumption.
Qed.

Lemma effective_demand_le_demand d b :
  (0 <=? b) = true -> is_nan (Math.max [0; d - b]) = false ->
  (Math.max [0; d - b] <=? Math.max [0; d]) = true
  /\ ((0 <=? d) = true -> (Math.max [0; d - b] <=? d) = true).
Proof.
  intros Hb N. apply max_0_nan_operand in N.
  destruct (sub_nan_operands _ _ N) as [Nd _].
  assert (H : (Math.max [0; d - b] <=? Math.max [0; d]) = true).
  { apply max_0_mono. rewrite <- (sub_0_r d) at 2.
    apply sub_mono_r; try assumption. rewrite sub_0_r. exact Nd. }
  split; [exact H|]. intros Hd. apply leb_trans with (Math.max [0; d]); [exact H|].
  rewrite max_0, Nd. destruct (0 <? d); [apply leb_refl, Nd|exact Hd].
Qed.

(** X14. With an exceedance rate that is not negative, a month is never
    charged less than the fixed charge [capacity * contractedRate], and a
    higher effective demand never gives a lower monthly charge (for charges
    that are numbers). *)
Theorem monthly_charge_monotone rates e1 e2 c :
  (0 <=? exceedanceRate rates) = true -> (e1 <=? e2) = true ->
  is_nan (calculateMonthlyCharge rates e1 c) = false ->
  is_nan (calculateMonthlyCharge rates e2 c) = false ->
  (c * contractedRate rates <=? calculateMonthlyCharge rates e1 c) = true
  /\ (calculateMonthlyCharge rates e1 c <=? calculateMonthlyCharge rates e2 c) = true.
Proof.
  intros Hr He N1 N2. split.
  - apply charge_at_least_fixed; assumption.
  - apply charge_mono_demand; assumption.
Qed.

Lemma monthly_charge_monotone_witness :
  (3100 * contractedRate tariff <=? calculateMonthlyCharge tariff 1067 3100) = true
  /\ (calculateMonthlyCharge tariff 1067 3100 <=? calculateMonthlyCharge tariff 3494 3100)
     = true.
Proof. apply (monthly_charge_monotone tariff 1067 3494 3100); reflexivity. Defined.

(** X15. A bigger battery never costs more: with a battery capacity that is at
    least as large, every effective demand is at most what it was, and the
    total charge at any one capacity is at most what it was (for totals that
    are numbers and an exceedance rate that is not negative). *)
Theorem bigger_battery_never_costs_more demands rates st1 st2 c :
  (0 <=? exceedanceRate rates) = true ->
  (batteryCapacity st1 <=? batteryCapacity st2) = true ->
  is_nan (calculateTotalCharge demands rates st1 c) = false ->
  is_nan (calculateTotalCharge demands rates st2 c) = false ->
  Forall2 (fun e2 e1 => (e2 <=? e1) = true)
          (effectiveDemands demands st2) (effectiveDemands demands st1)
  /\ (calculateTotalCharge demands rates st2 c
      <=? calculateTotalCharge demands rates st1 c) = true.
Proof.
  intros Hr Hb N1 N2. split.
  - apply effectiveDemands_mono_battery; try assumption; apply noNaN_forall;
      intros eff Hin; [apply (total_notnan _ _ _ _ N1 eff Hin)
                      |apply (total_notnan _ _ _ _ N2 eff Hin)].
  - apply calculateTotalCharge_mono_battery; assumption.
Qed.

Lemma bigger_battery_never_costs_more_witness :
  Forall2 (fun e2 e1 => (e2 <=? e1) = true)
          (effectiveDemands maxDemands (mkState 400 3100))
          (effectiveDemands maxDemands (mkState 0 3100))
  /\ (calculateTotalCharge maxDemands tariff (mkState 400 3100) 2700
      <=? calculateTotalCharge maxDemands tariff (mkState 0 3100) 2700) = true.
Proof.
  apply (bigger_battery_never_costs_more maxDemands tariff
           (mkState 0 3100) (mkState 400 3100) 2700); reflexivity.
Defined.

(** X16. With the contracted capacity left at the original 3100, a battery
    that is not negative never costs: when the savings figure is a number the
    page shows savings with the battery explanation, and no month shows a
    negative saving. *)
Theorem battery_alone_always_saves demands rates st :
  contractedCapacity st = 3100 -> (0 <=? batteryCapacity st) = true ->
  (0 <=? exceedanceRate rates) = true ->
  (is_nan (savings demands rates st) = false ->
   isPositiveSavings demands rates st = true
   /\ netLabel demands rates st = "savings"%string
   /\ rationale demands rates st = batteryHelps)
  /\ Forall (fun saving => is_nan saving = true \/ (0 <=? saving) = true)
            (monthlySavings demands rates st).
Proof.
  intros Hc Hb Hr. split.
  - intros Hn.
    assert (H : isPositiveSavings demands rates st = true).
    { unfold isPositiveSavings, savings in *. rewrite (sub_sign _ _ Hn).
      destruct (sub_nan_operands _ _ Hn) as [No Nt].
      rewrite <- (totalCharge_baselineState demands rates st) in *.
      change (totalCharge demands rates st)
        with (calculateTotalCharge demands rates st (contractedCapacity st)) in *.
      rewrite Hc in *.
      change (totalCharge demands rates (baselineState st))
        with (calculateTotalCharge demands rates (baselineState st) 3100) in *.
      apply calculateTotalCharge_mono_battery; assumption. }
    unfold netLabel, rationale. rewrite H. auto.
  - rewrite monthlySavings_map, Hc. apply Forall_forall. intros saving Hin.
    apply in_map_iff in Hin as (d & <- & _).
    destruct (is_nan (_ - _)) eqn:Hn; [left; reflexivity|right].
    rewrite (sub_sign _ _ Hn). destruct (sub_nan_operands _ _ Hn) as [No Nn].
    rewrite <- (monthly_charge_no_battery rates d) in *.
    apply charge_mono_demand; try assumption. rewrite sub_0_r.
    apply effective_demand_le_demand; [exact Hb|].
    destruct (charge_notnan _ _ _ Nn) as (_ & _ & C).
    apply (sub_nan_operands _ _ C).
Qed.

Lemma battery_alone_always_saves_witness :
  (isPositiveSavings maxDemands tariff initialState = true
   /\ netLabel maxDemands tariff initialState = "savings"%string
   /\ rationale maxDemands tariff initialState = batteryHelps)
  /\ Forall (fun saving => is_nan saving = true \/ (0 <=? saving) = true)
            (monthlySavings maxDemands tariff initialState).
Proof.
  destruct (battery_alone_always_saves maxDemands tariff initialState
              eq_refl eq_refl eq_refl) as [H1 H2].
  split; [apply H1; reflexivity|exact H2].
Defined.

(** X17. At the same contracted capacity a bigger battery never shows a bigger
    total charge nor smaller savings (for savings that are numbers and an
    exceedance rate that is not negative). *)
Theorem savings_grow_with_battery demands rates st1 st2 :
  (0 <=? exceedanceRate rates) = true ->
  (batteryCapacity st1 <=? batteryCapacity st2) = true ->
  contractedCapacity st1 = contractedCapacity st2 ->
  is_nan (savings demands rates st1) = false ->
  is_nan (savings demands rates st2) = false ->
  (totalCharge demands rates st2 <=? totalCharge demands rates st1) = true
  /\ (savings demands rates st1 <=? savings demands rates st2) = true.
Proof.
  intros Hr Hb Hc N1 N2. unfold savings in *.
  destruct (sub_nan_operands _ _ N1) as [_ T1].
  destruct (sub_nan_operands _ _ N2) as [_ T2].
  assert (H : (totalCharge demands rates st2 <=? totalCharge demands rates st1) = true).
  { change (totalCharge demands rates st1)
      with (calculateTotalCharge demands rates st1 (contractedCapacity st1)) in *.
    change (totalCharge demands rates st2)
      with (calculateTotalCharge demands rates st2 (contractedCapacity st2)) in *.
    rewrite <- Hc in *. apply calculateTotalCharge_mono_battery; assumption. }
  split; [exact H|]. apply sub_mono_r; assumption.
Qed.

Lemma savings_grow_with_battery_witness :
  (totalCharge maxDemands tariff (mkState 400 2700)
   <=? totalCharge maxDemands tariff (mkState 200 2700)) = true
  /\ (savings maxDemands tariff (mkState 200 2700)
      <=? savings maxDemands tariff (mkState 400 2700)) = true.
Proof.
  apply (savings_grow_with_battery maxDemands tariff (mkState 200 2700) (mkState 400 2700));
    reflexivity.
Defined.

(** ** The chart *)

(** X18. The chart has one row per month; row [i] holds month [i], demand [i]
    and effective demand [i] ([undefined] where the demand series is shorter),
    the effective demand of a row is [Math.max(0, maxDemand -
    batteryCapacity)] of the same row, and with a battery and a demand that
    are not negative the effective-demand bar is never above the max-demand
    bar. *)
Theorem chart_rows months demands st :
  List.length (chartData months demands st) = List.length months
  /\ forall i row,
       nth_error (chartData months demands st) i = Some row ->
       nth_error months i = Some (month row)
       /\ maxDemand row = nth_error demands i
       /\ effectiveDemand row
          = option_map (fun d => Math.max [0; d - batteryCapacity st]) (maxDemand row)
       /\ forall d eff,
            maxDemand row = Some d -> effectiveDemand row = Some eff ->
            (0 <=? batteryCapacity st) = true -> (0 <=? d) = true ->
            is_nan eff = false -> (eff <=? d) = true.
Proof.
  unfold chartData, mapi. split.
  - generalize 0%nat. induction months as [|m ms IH]; intros k; simpl; [reflexivity|].
    rewrite IH. reflexivity.
  - intros i row. rewrite nth_error_mapi_from. simpl.
    destruct (nth_error months i) as [m|]; [|discriminate]. simpl.
    intros E. injection E as <-. cbn [month maxDemand effectiveDemand].
    assert (He : nth_error (effectiveDemands demands st) i
                 = option_map (fun d => Math.max [0; d - batteryCapacity st])
                              (nth_error demands i)).
    { unfold effectiveDemands. apply nth_error_map. }
    repeat split; [exact He|].
    intros d eff Hd Heff Hb H0 Hn. rewrite He, Hd in Heff. injection Heff as <-.
    apply effective_demand_le_demand; assumption.
Qed.

(** ** The optimizer and the peak demand *)

Lemma grid_positive_finite :
  forallb (fun c => (0 <? c) && (c <? infinity)) grid = true.
Proof. vm_compute. reflexivity. Qed.

Lemma charge_covered rates eff c :
  (eff <=? c) = true -> is_nan (eff - c) = false ->
  calculateMonthlyCharge rates eff c
  = c * contractedRate rates + 0 * exceedanceRate rates.
Proof.
  intros Hle Hn. unfold calculateMonthlyCharge. rewrite exceedance_within by assumption.
  reflexivity.
Qed.

Lemma charge_covered_mono rates eff c1 c2 :
  (0 <=? contractedRate rates) = true ->
  finite c1 -> (0 <? c1) = true -> (c1 <=? c2) = true -> (eff <=? c1) = true ->
  is_nan (calculateMonthlyCharge rates eff c2) = false ->
  (0 <=? calculateMonthlyCharge rates eff c1) = true
  /\ (calculateMonthlyCharge rates eff c1 <=? calculateMonthlyCharge rates eff c2) = true.
Proof.
  intros Hcr Hf Hp H12 He N.
  pose proof (leb_trans _ _ _ He H12) as He2.
  destruct (charge_notnan _ _ _ N) as (A & B & C).
  destruct (sub_nan_operands _ _ C) as [Ne _].
  rewrite (exceedance_within _ _ He2 C) in B.
  rewrite (charge_covered rates eff c2 He2 C) in *.
  rewrite (charge_covered rates eff c1 He) by (apply sub_finite_r_notnan; assumption).
  destruct (mul_nan_operands _ _ A) as [_ Nr].
  pose proof (mul_finite_l_notnan c1 _ Hf Nr) as N1.
  pose proof (mul_nonneg _ _ (ltb_leb _ _ Hp) Hcr N1) as P1.
  pose proof (add_nonneg _ _ P1 (zero_mul_nonneg _ B)) as P.
  split; [exact P|]. apply add_mono; try assumption.
  - apply mul_mono_r; assumption.
  - apply leb_refl, B.
  - apply (leb_notnan_r _ _ P).
Qed.

(** X19. With a contracted rate that is not negative, the optimizer never
    recommends more capacity than the peak needs: the capacity it returns is
    not above any candidate of the grid that is at least the largest effective
    demand. *)
Theorem optimizer_not_above_peak demands rates st c c' :
  (0 <=? contractedRate rates) = true ->
  findOptimalCapacity demands rates st = Some c ->
  In c' grid -> (maxEffectiveDemand demands st <=? c') = true ->
  (c' <? c) = false.
Proof.
  intros Hcr Hopt Hin Hpeak. destruct (c' <? c) eqn:Hlt; [exfalso|reflexivity].
  pose proof grid_positive_finite as Hg. rewrite forallb_forall in Hg.
  specialize (Hg c' Hin). apply andb_prop in Hg as [Hpos Hfin'].
  pose proof (finite_of_bounds c' Hpos Hfin') as Hf.
  destruct (findOptimalCapacity_cases demands rates st)
    as [[H0 _]|(c0 & Hc0 & Hin0 & Hfin & _ & Hpre)].
  - rewrite H0 in Hopt. injection Hopt as <-.
    pose proof (ltb_trans _ _ _ Hpos Hlt) as Habs. rewrite ltb_irrefl in Habs.
    discriminate.
  - rewrite Hc0 in Hopt. injection Hopt as <-.
    specialize (Hpre c' Hin Hlt).
    pose proof (ltb_notnan_l _ _ Hfin) as N0.
    pose proof (total_notnan _ _ _ _ N0) as T0.
    unfold maxEffectiveDemand in Hpeak.
    destruct (Math_max_spec _ (noNaN_of_max _ (leb_notnan_l _ _ Hpeak)))
      as (_ & Hmax & _).
    assert (Hm : forall eff, In eff (effectiveDemands demands st) ->
              (0 <=? calculateMonthlyCharge rates eff c') = true
              /\ (calculateMonthlyCharge rates eff c'
                  <=? calculateMonthlyCharge rates eff c0) = true).
    { intros eff He. apply charge_covered_mono; auto using ltb_leb.
      - apply leb_trans with (Math.max (effectiveDemands demands st)); auto.
      - apply (T0 eff He). }
    assert (P : (0 <=? calculateTotalCharge demands rates st c') = true).
    { unfold calculateTotalCharge, sum. apply sum_from_nonneg; [reflexivity|].
      apply Forall_forall. intros x Hx. apply in_map_iff in Hx as (eff & <- & He).
      apply (Hm eff He). }
    assert (L : (calculateTotalCharge demands rates st c'
                 <=? calculateTotalCharge demands rates st c0) = true).
    { pose proof (leb_notnan_r _ _ P) as N'.
      unfold calculateTotalCharge, sum in *.
      apply sum_from_mono; try assumption; [|reflexivity].
      apply Forall2_map_in. intros eff He. apply (Hm eff He). }
    cbv zeta in Hpre. rewrite L in Hpre. discriminate.
Qed.

(** ** The optimizer and the battery *)

(** X20. The optimized bill never grows with the battery: if the optimizer
    finds a capacity of the grid for one battery, then for a battery at least
    as large it finds one too, and its total charge is at most the first
    optimum's (provided the total at the first optimum is a number under the
    bigger battery). *)
Theorem optimum_no_worse_with_bigger_battery demands rates st1 st2 c1 :
  (0 <=? exceedanceRate rates) = true ->
  (batteryCapacity st1 <=? batteryCapacity st2) = true ->
  findOptimalCapacity demands rates st1 = Some c1 -> In c1 grid ->
  is_nan (calculateTotalCharge demands rates st2 c1) = false ->
  exists c2,
    findOptimalCapacity demands rates st2 = Some c2 /\ In c2 grid
    /\ (calculateTotalCharge demands rates st2 c2
        <=? calculateTotalCharge demands rates st1 c1) = true.
Proof.
  intros Hr Hb Hopt Hin N2.
  pose proof grid_positive_finite as Hg. rewrite forallb_forall in Hg.
  destruct (findOptimalCapacity_cases demands rates st1)
    as [[H0 _]|(c & Hc & _ & Hfin1 & _)]; cbv zeta in *.
  { rewrite H0 in Hopt. injection Hopt as <-. specialize (Hg 0 Hin). discriminate. }
  rewrite Hc in Hopt. injection Hopt as ->.
  pose proof (calculateTotalCharge_mono_battery demands rates st1 st2 c1 Hr Hb
                (ltb_notnan_l _ _ Hfin1) N2) as H21.
  pose proof (leb_ltb_trans _ _ _ H21 Hfin1) as Hfin2.
  destruct (findOptimalCapacity_cases demands rates st2)
    as [[_ Hnone]|(c2 & Hc2 & Hin2 & Hf2 & Hmin & _)]; cbv zeta in *.
  { rewrite (Hnone c1 Hin) in Hfin2. discriminate. }
  exists c2. split; [exact Hc2|]. split; [exact Hin2|].
  apply leb_trans with (calculateTotalCharge demands rates st2 c1); [|exact H21].
  apply ltb_false_leb; auto. apply (ltb_notnan_l _ _ Hf2).
Qed.

Lemma optimum_no_worse_with_bigger_battery_witness :
  exists c2,
    findOptimalCapacity maxDemands tariff (mkState 400 3100) = Some c2 /\ In c2 grid
    /\ (calculateTotalCharge maxDemands tariff (mkState 400 3100) c2
        <=? calculateTotalCharge maxDemands tariff (mkState 0 3100) 3080) = true.
Proof.
  apply (optimum_no_worse_with_bigger_battery maxDemands tariff
           (mkState 0 3100) (mkState 400 3100) 3080); try reflexivity.
  apply existsb_eqb_In. vm_compute. reflexivity.
Defined.

Lemma optimizer_not_above_peak_witness :
  findOptimalCapacity maxDemands tariff initialState = Some 2680
  /\ (3500 <? 2680) = false.
Proof.
  split; [reflexivity|].
  apply (optimizer_not_above_peak maxDemands tariff initialState 2680 3500);
    try reflexivity.
  apply existsb_eqb_In. vm_compute. reflexivity.
Defined.

(** ** The monthly table and the summary *)

(** X21. The monthly table and the summary agree: when every monthly saving is
    shown green ([saving >= 0]) and the savings figure is a number, the total
    charge is at most the original total and the summary shows savings. *)
Theorem green_months_give_green_total demands rates st :
  Forall (fun saving => (0 <=? saving) = true) (monthlySavings demands rates st) ->
  is_nan (savings demands rates st) = false ->
  (totalCharge demands rates st <=? totalOriginalCharge demands rates) = true
  /\ isPositiveSavings demands rates st = true
  /\ netLabel demands rates st = "savings"%string.
Proof.
  intros Hm Hn. rewrite monthlySavings_map, Forall_forall in Hm.
  assert (H : (totalCharge demands rates st <=? totalOriginalCharge demands rates) = true).
  { unfold savings in Hn. destruct (sub_nan_operands _ _ Hn) as [No Nt].
    unfold totalCharge, totalOriginalCharge, sum, monthlyCharges, originalCharges,
      effectiveDemands in *.
    rewrite map_map in *. apply sum_from_mono; try assumption; [|reflexivity].
    apply Forall2_map_in. intros d Hd.
    specialize (Hm _ (in_map _ _ _ Hd)). cbv beta in Hm.
    rewrite sub_sign in Hm by apply (leb_notnan_r _ _ Hm). exact Hm. }
  assert (Hp : isPositiveSavings demands rates st = true).
  { unfold isPositiveSavings, savings in *. rewrite (sub_sign _ _ Hn). exact H. }
  unfold netLabel. rewrite Hp. auto.
Qed.

Lemma green_months_give_green_total_witness :
  (totalCharge maxDemands tariff (mkState 400 2700)
   <=? totalOriginalCharge maxDemands tariff) = true
  /\ isPositiveSavings maxDemands tariff (mkState 400 2700) = true
  /\ netLabel maxDemands tariff (mkState 400 2700) = "savings"%string.
Proof.
  apply (green_months_give_green_total maxDemands tariff (mkState 400 2700));
    [|reflexivity].
  repeat constructor.
Defined.
